(** * patch_android_storage.py: a shallow embedding and its properties

    The script rewrites [user://] path literals of a Godot project into
    external-storage paths.  This development embeds

    - Python [str] values as lists of Unicode code points,
    - the fragment of Python's [re] module the script relies on, as a
      backtracking matcher with Python's priorities (leftmost match,
      greedy repetition, ordered alternation),
    - the project tree as a finite map from relative paths to files,
    - every [patch_*] method, [verify_patches], [run] and the rollback
      manager as functions over that tree,

    and then states and proves the properties of the specification.
    Console output is not modelled; of the log file the write is, and
    the lines logged are an argument. *)

From Stdlib Require Import NArith Ascii String.
From stdpp Require Import base list gmap strings sorting.

Local Open Scope nat_scope.

(** ** Text *)

(** A Python [str] is a sequence of code points. *)
Definition char := N.
Definition text := list char.

Fixpoint txt (s : string) : text :=
  match s with
  | EmptyString => []
  | String a s' => N_of_ascii a :: txt s'
  end.

Definition nl : char := 10%N.     (* line feed *)
Definition dq : char := 34%N.     (* double quote *)
Definition hash : char := 35%N.   (* number sign *)
Definition slash : char := 47%N.  (* solidus *)

(** [quoted t] is [t] between double quotes. *)
Definition quoted (t : text) : text := dq :: t ++ [dq].

(** [str.isspace()] for one code point; [\s] in a [str] pattern and
    [str.strip()] use the same table. *)
Definition is_space (c : char) : bool :=
  ((9 <=? c) && (c <=? 13) || (28 <=? c) && (c <=? 32)
   || (c =? 133) || (c =? 160) || (c =? 5760)
   || (8192 <=? c) && (c <=? 8202)
   || (c =? 8232) || (c =? 8233) || (c =? 8239) || (c =? 8287)
   || (c =? 12288))%N.

Fixpoint lstrip (t : text) : text :=
  match t with
  | c :: t' => if is_space c then lstrip t' else t
  | [] => []
  end.

Definition rstrip (t : text) : text := rev (lstrip (rev t)).

(** [t.strip()] *)
Definition strip (t : text) : text := rstrip (lstrip t).

(** [t.startswith(p)] *)
Fixpoint startswith (p t : text) : bool :=
  match p, t with
  | [], _ => true
  | a :: p', b :: t' => (a =? b)%N && startswith p' t'
  | _ :: _, [] => false
  end.

(** [t.split('\n')]: never empty, the last piece may be. *)
Fixpoint split_nl (t : text) : list text :=
  match t with
  | [] => [[]]
  | c :: t' =>
      if (c =? nl)%N then [] :: split_nl t'
      else match split_nl t' with
           | l :: ls => (c :: l) :: ls
           | [] => [[c]]
           end
  end.

(** ['\n'.join(ls)] *)
Fixpoint join_nl (ls : list text) : text :=
  match ls with
  | [] => []
  | [l] => l
  | l :: ls' => l ++ nl :: join_nl ls'
  end.

(** [t.count('\n')] *)
Fixpoint count_nl (t : text) : nat :=
  match t with
  | [] => 0
  | c :: t' => (if (c =? nl)%N then 1 else 0) + count_nl t'
  end.

(** [t[a:b]] for [0 <= a], [0 <= b]. *)
Definition slice (a b : nat) (t : text) : text := take (b - a) (drop a t).

(** [content[:pos].count('\n') + 1]: the 1-based line of offset [pos]. *)
Definition line_of (content : text) (pos : nat) : nat :=
  count_nl (take pos content) + 1.

(** [content.rfind('\n', 0, pos) + 1] *)
Fixpoint line_start_from (t : text) (pos : nat) (i : nat) (last : nat) : nat :=
  match pos, t with
  | S pos', c :: t' =>
      line_start_from t' pos' (S i) (if (c =? nl)%N then S i else last)
  | _, _ => last
  end.

Definition line_start (content : text) (pos : nat) : nat :=
  line_start_from content pos 0 0.

(** [content.find('\n', pos)], with [len(content)] standing for [-1]:
    the source turns [-1] into [len(content)] right away. *)
Fixpoint find_nl_from (t : text) (i : nat) : nat :=
  match t with
  | [] => i
  | c :: t' => if (c =? nl)%N then i else find_nl_from t' (S i)
  end.

Definition line_end (content : text) (pos : nat) : nat :=
  if decide (pos <= length content)
  then find_nl_from (drop pos content) pos
  else length content.

(** The line of [content] that holds offset [pos]:
    [content[line_start : line_end]]. *)
Definition line_content (content : text) (pos : nat) : text :=
  slice (line_start content pos) (line_end content pos) content.

(** ** Regular expressions

    The fragment of Python's [re] syntax the script uses: literals and
    character classes, greedy repetition of a class ([\s*], [\s+], a
    negated class), concatenation, alternation, one capturing group, the
    negative look-ahead [(?!...)], and the anchors [^] and [$] (no
    flags are ever passed to [re]). *)

Inductive cset : Type :=
  | CChr (c : char)              (* a literal code point *)
  | CSpace                       (* \s *)
  | COneOf (cs : list char)      (* [...] *)
  | CNoneOf (cs : list char).    (* [^...] *)

Inductive regex : Type :=
  | REps
  | RSet (c : cset)
  | RStar (c : cset)             (* c*, greedy *)
  | RSeq (a b : regex)
  | RAlt (a b : regex)
  | RGroup (a : regex)           (* ( ... ), group 1 *)
  | RNotAhead (a : regex)        (* (?! ... ) *)
  | RBol                         (* ^ *)
  | REol.                        (* $ *)

Definition in_chars (c : char) (cs : list char) : bool :=
  existsb (N.eqb c) cs.

Definition cset_mem (s : cset) (c : char) : bool :=
  match s with
  | CChr a => (a =? c)%N
  | CSpace => is_space c
  | COneOf cs => in_chars c cs
  | CNoneOf cs => negb (in_chars c cs)
  end.

(** Pattern builders. *)
Fixpoint lit (t : text) : regex :=
  match t with
  | [] => REps
  | [c] => RSet (CChr c)
  | c :: t' => RSeq (RSet (CChr c)) (lit t')
  end.

Definition lits (s : string) : regex := lit (txt s).

Fixpoint seqs (rs : list regex) : regex :=
  match rs with
  | [] => REps
  | [r] => r
  | r :: rs' => RSeq r (seqs rs')
  end.

Fixpoint alts (rs : list regex) : regex :=
  match rs with
  | [] => RNotAhead REps          (* matches nothing *)
  | [r] => r
  | r :: rs' => RAlt r (alts rs')
  end.

Definition ws_star : regex := RStar CSpace.                      (* \s* *)
Definition ws_plus : regex := RSeq (RSet CSpace) (RStar CSpace). (* \s+ *)

(** A match object: [m.start()], [m.end()] and the span of group 1. *)
Record rmatch : Type := mkMatch {
  m_start : nat;
  m_end : nat;
  m_group : option (nat * nat)
}.

Section Matcher.
Context {A : Type}.

(** A continuation receives the position reached, the rest of the
    subject and the span of group 1. *)
Definition kont : Type := nat -> text -> option (nat * nat) -> option A.

(** Greedy repetition of a class: the longest run first, then shorter
    ones on backtracking. *)
Fixpoint star_k (c : cset) (pos : nat) (s : text) (g : option (nat * nat))
    (k : kont) : option A :=
  match s with
  | x :: s' =>
      if cset_mem c x then
        match star_k c (S pos) s' g k with
        | Some r => Some r
        | None => k pos s g
        end
      else k pos s g
  | [] => k pos s g
  end.
End Matcher.

(** [match_k r pos s g k]: match [r] at offset [pos], where [s] is the
    subject from [pos] on, and hand each way of matching to [k] in
    Python's order of preference until [k] accepts one. *)
Fixpoint match_k (r : regex) {A : Type} (pos : nat) (s : text)
    (g : option (nat * nat)) (k : @kont A) : option A :=
  match r with
  | REps => k pos s g
  | RSet c =>
      match s with
      | x :: s' => if cset_mem c x then k (S pos) s' g else None
      | [] => None
      end
  | RStar c => star_k c pos s g k
  | RSeq a b => match_k a pos s g (fun p' s' g' => match_k b p' s' g' k)
  | RAlt a b =>
      match match_k a pos s g k with
      | Some x => Some x
      | None => match_k b pos s g k
      end
  | RGroup a => match_k a pos s g (fun p' s' _ => k p' s' (Some (pos, p')))
  | RNotAhead a =>
      match match_k a pos s g (fun _ _ _ => Some tt) with
      | Some _ => None
      | None => k pos s g
      end
  | RBol => if decide (pos = 0) then k pos s g else None
  | REol =>
      match s with
      | [] => k pos s g
      | [c] => if (c =? nl)%N then k pos s g else None
      | _ => None
      end
  end.

(** One attempt at a fixed offset. *)
Definition match_here (r : regex) (pos : nat) (s : text) : option rmatch :=
  match_k r pos s None (fun e _ g => Some (mkMatch pos e g)).

(** [re.match(r, subject)] *)
Definition re_match (r : regex) (subject : text) : option rmatch :=
  match_here r 0 subject.

(** [re.search]: the first offset, from the left, with a match. *)
Fixpoint search_from (r : regex) (pos : nat) (s : text) : option rmatch :=
  match match_here r pos s with
  | Some m => Some m
  | None =>
      match s with
      | _ :: s' => search_from r (S pos) s'
      | [] => None
      end
  end.

Definition re_search (r : regex) (subject : text) : option rmatch :=
  search_from r 0 subject.

(** [re.finditer]: the matches from left to right, none overlapping.
    [skip] counts the code points still covered by the last match.  An
    empty match does not hold the scan back; no pattern of the script
    matches the empty string. *)
Fixpoint scan (r : regex) (pos : nat) (s : text) (skip : nat) : list rmatch :=
  match skip with
  | S k =>
      match s with
      | _ :: s' => scan r (S pos) s' k
      | [] => []
      end
  | 0 =>
      match match_here r pos s with
      | Some m =>
          m :: match s with
               | _ :: s' => scan r (S pos) s' (m_end m - pos - 1)
               | [] => []
               end
      | None =>
          match s with
          | _ :: s' => scan r (S pos) s' 0
          | [] => []
          end
      end
  end.

Definition re_finditer (r : regex) (subject : text) : list rmatch :=
  scan r 0 subject 0.

(** Replacement templates: text and the back-reference [\1]. *)
Inductive titem : Type :=
  | TText (t : text)
  | TGroup1.

Definition template := list titem.

(** [m.group(1)] *)
Definition group1 (subject : text) (m : rmatch) : text :=
  match m_group m with
  | Some (a, b) => slice a b subject
  | None => []
  end.


(** [m.expand(template)] *)
Definition expand (subject : text) (m : rmatch) (tpl : template) : text :=
  concat (map (fun it => match it with
                         | TText t => t
                         | TGroup1 => group1 subject m
                         end) tpl).

(** The subject from offset [from] on, with each match of [ms] replaced. *)
Fixpoint splice (subject : text) (tpl : template) (from : nat)
    (ms : list rmatch) : text :=
  match ms with
  | [] => drop from subject
  | m :: ms' =>
      slice from (m_start m) subject ++ expand subject m tpl
        ++ splice subject tpl (m_end m) ms'
  end.

(** [re.subn(r, tpl, subject)]: the new text and the number of
    replacements. *)
Definition re_subn (r : regex) (tpl : template) (subject : text) : text * nat :=
  let ms := re_finditer r subject in
  (splice subject tpl 0 ms, length ms).

(** [re.sub(r, tpl, subject)] *)
Definition re_sub (r : regex) (tpl : template) (subject : text) : text :=
  fst (re_subn r tpl subject).

(** ** The project tree

    Paths are relative to the project root and given by their parts, a
    name being the bytes of its UTF-8 form (their order is the order of
    the code points).  A file is either text, held as
    [read_text(encoding='utf-8')] returns it (decoded, line ends
    translated), or bytes that are not valid UTF-8.  Directories are
    implicit: a directory exists when a file lies below it.  What the
    model leaves to the operating system: permissions, path length, and
    a regular file standing where the script needs a directory (a file
    named [backups], a file at a parent of a backup path or of a restore
    target). *)

Abbreviation path := (list string).

Inductive file : Type :=
  | Utf8 (t : text)
  | Raw (bytes : list N).

Abbreviation FS := (gmap path file).

Fixpoint strip_prefix (d p : path) : option path :=
  match d, p with
  | [], _ => Some p
  | a :: d', b :: p' => if String.eqb a b then strip_prefix d' p' else None
  | _ :: _, [] => None
  end.

(** [p] lies strictly below [d]. *)
Definition below (d p : path) : bool :=
  match strip_prefix d p with
  | Some (_ :: _) => true
  | _ => false
  end.

Definition is_file (fs : FS) (p : path) : bool :=
  match fs !! p with Some _ => true | None => false end.

Definition is_dir (fs : FS) (p : path) : bool :=
  negb (is_file fs p) && existsb (fun kv => below p kv.1) (map_to_list fs).

(** [Path.exists()] *)
Definition exists_ (fs : FS) (p : path) : bool := is_file fs p || is_dir fs p.

(** Every file access of a run, in order. *)
Inductive event : Type :=
  | EvCopy (src dst : path)        (* shutil.copy2(src, dst) *)
  | EvWrite (p : path) (t : text). (* p.write_text(t) *)

Record world : Type := mkWorld {
  w_fs : FS;
  w_trace : list event
}.

Inductive exc : Type :=
  | UnicodeDecodeError
  | IsADirectoryError
  | FileNotFoundError
  | NotADirectoryError
  | FileExistsError
  | SameFileError.

Inductive outcome (A : Type) : Type :=
  | Ok (a : A)
  | Raise (e : exc).
Arguments Ok {A} a.
Arguments Raise {A} e.

(** Code that reads and writes the tree and may raise. *)
Definition io (A : Type) : Type := world -> outcome A * world.

#[global] Instance io_ret : MRet io := fun A a w => (Ok a, w).
#[global] Instance io_bind : MBind io := fun A B f m w =>
  match m w with
  | (Ok a, w') => f a w'
  | (Raise e, w') => (Raise e, w')
  end.

(** [try: body except Exception as e: handler(e)] *)
Definition try_except {A : Type} (body : io A) (handler : exc -> io A) : io A :=
  fun w =>
    match body w with
    | (Ok a, w') => (Ok a, w')
    | (Raise e, w') => handler e w'
    end.

Definition path_exists (p : path) : io bool :=
  fun w => (Ok (exists_ (w_fs w) p), w).

(** [p.read_text(encoding='utf-8')] *)
Definition read_text (p : path) : io text :=
  fun w =>
    match w_fs w !! p with
    | Some (Utf8 t) => (Ok t, w)
    | Some (Raw _) => (Raise UnicodeDecodeError, w)
    | None =>
        (Raise (if is_dir (w_fs w) p then IsADirectoryError
                else FileNotFoundError), w)
    end.

(** [p.write_text(t, encoding='utf-8')] *)
Definition write_text (p : path) (t : text) : io unit :=
  fun w => (Ok tt, mkWorld (<[p := Utf8 t]> (w_fs w)) (w_trace w ++ [EvWrite p t])).

(** [shutil.copy2(src, dst)]; the parents of [dst] have been made. *)
Definition copy2 (src dst : path) : io unit :=
  fun w =>
    match w_fs w !! src with
    | Some f =>
        (Ok tt, mkWorld (<[dst := f]> (w_fs w)) (w_trace w ++ [EvCopy src dst]))
    | None =>
        (Raise (if is_dir (w_fs w) src then IsADirectoryError
                else FileNotFoundError), w)
    end.

(** The tree after the accesses of a trace. *)
Definition replay_event (fs : FS) (e : event) : FS :=
  match e with
  | EvCopy src dst =>
      match fs !! src with
      | Some f => <[dst := f]> fs
      | None => fs
      end
  | EvWrite p t => <[p := Utf8 t]> fs
  end.

Definition replay (fs : FS) (tr : list event) : FS :=
  fold_left replay_event tr fs.

(** ** Records of the script *)

Definition EXTERNAL_STORAGE_BASE : text := txt "/storage/emulated/0/smb1r.android".
Definition BACKUP_DIR : string := "backups".

Record Change : Type := mkChange {
  line_number : nat;
  description : string;
  old_value : text;
  new_value : text
}.

(** [Change(line, description)]: the two values keep their default. *)
Definition Change_ (line : nat) (desc : string) : Change :=
  mkChange line desc [] [].

Inductive error_msg : Type :=
  | NotFound             (* Archivo no encontrado *)
  | NotFoundOptional     (* Archivo no encontrado (opcional) *)
  | Exception (e : exc). (* str(e) *)

Record FileResult : Type := mkFileResult {
  filepath : path;
  success : bool;
  changes : list Change;
  error : option error_msg;
  backup_path : option path
}.

(** What a patcher object is built from: the dry-run flag and the time
    stamp of the run, which names its backup directory. *)
Record patcher : Type := mkPatcher {
  dry_run : bool;
  timestamp : string
}.

Definition backup_dir (self : patcher) : path := [BACKUP_DIR; timestamp self].

(** [line.strip().startswith('#')] *)
Definition is_comment_line (line : text) : bool :=
  startswith [hash] (strip line).

(** [filepath.with_suffix(filepath.suffix + '.backup')] *)
Fixpoint with_backup_suffix (p : path) : path :=
  match p with
  | [] => []
  | [name] => [(name ++ ".backup")%string]
  | d :: p' => d :: with_backup_suffix p'
  end.

Definition create_backup (self : patcher) (filepath : path) : io (option path) :=
  ex ← path_exists filepath;
  if negb ex then mret None
  else if dry_run self then mret (Some (with_backup_suffix filepath))
  else
    let backup_path := backup_dir self ++ filepath in
    _ ← copy2 filepath backup_path;
    mret (Some backup_path).

(** ** The rewrite rules *)

(** [base_lit "/saves/"] is the replacement literal: the external base
    followed by the given tail, between double quotes. *)
Definition base_lit (tail : string) : text :=
  quoted (EXTERNAL_STORAGE_BASE ++ txt tail).

(** [user_lit "saves/"] is the literal to look for: [user://] followed by
    the given tail, between double quotes. *)
Definition user_lit (tail : string) : regex :=
  lit (quoted (txt "user://" ++ txt tail)).

(** The same with the look-ahead [(?!/)] after the closing quote. *)
Definition user_lit_no_slash (tail : string) : regex :=
  RSeq (user_lit tail) (RNotAhead (lit [slash])).

(** The group [const \s+ NAME \s* := \s*] followed by a quoted
    [user://] literal. *)
Definition const_decl (name tail : string) : regex :=
  seqs [RGroup (seqs [lits "const"; ws_plus; lits name; ws_star; lits ":=";
                      ws_star]);
        user_lit tail].

(** [PREFIX \s* ( \s*], a quoted [user://] literal, [\s* )]: a call with
    one literal argument. *)
Definition call_of (prefix tail : string) : regex :=
  seqs [lits prefix; ws_star; lits "("; ws_star; user_lit tail; ws_star;
        lits ")"].

(** [^], the group [\s* KEY \s* = \s*], then [false \s* $]. *)
Definition permission_line (key : string) : regex :=
  seqs [RBol; RGroup (seqs [ws_star; lits key; ws_star; lits "="; ws_star]);
        lits "false"; ws_star; REol].

Definition export_presets_patterns : list (regex * string * string) :=
  [ (permission_line "permissions/manage_external_storage", "true",
     "manage_external_storage");
    (permission_line "permissions/read_external_storage", "true",
     "read_external_storage");
    (permission_line "permissions/write_external_storage", "true",
     "write_external_storage") ].

Definition global_gd_replacements : list (regex * template * string) :=
  [ (const_decl "ROM_POINTER_PATH" "rom_pointer.smb",
     [TGroup1; TText (base_lit "/rom_pointer.smb")], "ROM_POINTER_PATH");
    (const_decl "ROM_PATH" "baserom.nes",
     [TGroup1; TText (base_lit "/baserom.nes")], "ROM_PATH");
    (const_decl "ROM_ASSETS_PATH" "resource_packs/BaseAssets",
     [TGroup1; TText (base_lit "/resource_packs/BaseAssets")],
     "ROM_ASSETS_PATH") ].

Definition settings_manager_replacements : list (regex * template * string) :=
  [ (const_decl "SETTINGS_DIR" "settings.cfg",
     [TGroup1; TText (base_lit "/settings.cfg")], "SETTINGS_DIR");
    (call_of "DirAccess.make_dir_absolute" "resource_packs",
     [TText (txt "DirAccess.make_dir_recursive_absolute("
             ++ base_lit "/resource_packs" ++ txt ")")],
     "make_dir resource_packs") ].

Definition mod_loader_pattern : regex :=
  const_decl "MOD_CONFIG_DIR_PATH" "mod_configs".

Definition mod_loader_template : template :=
  [TGroup1; TText (base_lit "/mod_configs")].

(** The order matters: the more specific patterns come first. *)
Definition save_manager_replacements : list (regex * template * string) :=
  [ (const_decl "SAVE_DIR" "saves/CAMPAIGN.sav",
     [TGroup1; TText (base_lit "/saves/CAMPAIGN.sav")], "SAVE_DIR constante");
    (call_of "DirAccess.make_dir_recursive_absolute" "saves",
     [TText (txt "DirAccess.make_dir_recursive_absolute("
             ++ base_lit "/saves" ++ txt ")")],
     "make_dir saves");
    (user_lit "saves/", [TText (base_lit "/saves/")], "saves/");
    (user_lit_no_slash "saves", [TText (base_lit "/saves")], "saves");
    (user_lit "achievements.sav", [TText (base_lit "/achievements.sav")],
     "achievements.sav");
    (user_lit "marathon_recordings/",
     [TText (base_lit "/marathon_recordings/")], "marathon_recordings/");
    (user_lit_no_slash "marathon_recordings",
     [TText (base_lit "/marathon_recordings")], "marathon_recordings")
  ].

Definition resource_pack_replacements : list (regex * template * string) :=
  [ (user_lit "resource_packs/", [TText (base_lit "/resource_packs/")],
     "resource_packs/");
    (user_lit_no_slash "resource_packs", [TText (base_lit "/resource_packs")],
     "resource_packs") ].

(** The gate of [patch_tscn_files]: a quoted [user://] literal that starts
    with one of five names and runs to the next double quote. *)
Definition tscn_pattern : regex :=
  seqs [RSet (CChr dq); lits "user://";
        RGroup (alts [lits "saves"; lits "achievements";
                      lits "marathon_recordings"; lits "mod_configs";
                      lits "resource_packs"]);
        RStar (CNoneOf [dq]); RSet (CChr dq)].

Definition tscn_replacements : list (regex * template) :=
  [ (user_lit "saves/", [TText (base_lit "/saves/")]);
    (user_lit_no_slash "saves", [TText (base_lit "/saves")]);
    (user_lit "achievements.sav", [TText (base_lit "/achievements.sav")]);
    (user_lit "marathon_recordings/",
     [TText (base_lit "/marathon_recordings/")]);
    (user_lit_no_slash "marathon_recordings",
     [TText (base_lit "/marathon_recordings")]);
    (user_lit "mod_configs/", [TText (base_lit "/mod_configs/")]);
    (user_lit_no_slash "mod_configs", [TText (base_lit "/mod_configs")]);
    (user_lit "resource_packs/", [TText (base_lit "/resource_packs/")]);
    (user_lit_no_slash "resource_packs", [TText (base_lit "/resource_packs")])
  ].

(** The eight patterns of [verify_patches], joined with [|]. *)
Definition verify_patterns : list regex :=
  [ RSeq (lit (dq :: txt "user://saves")) (RSet (COneOf [dq; slash]));
    user_lit "achievements.sav";
    RSeq (lit (dq :: txt "user://marathon_recordings"))
         (RSet (COneOf [dq; slash]));
    RSeq (lit (dq :: txt "user://mod_configs")) (RSet (COneOf [dq; slash]));
    user_lit "settings.cfg";
    user_lit "baserom.nes";
    user_lit "rom_pointer.smb";
    RSeq (lit (dq :: txt "user://resource_packs")) (RSet (COneOf [dq; slash]))
  ].

Definition combined : regex := alts verify_patterns.

(** ** The rewriting loops, without the file access *)

Definition actualizado (desc : string) : string :=
  (desc ++ " actualizado")%string.

(** [patch_export_presets]: the inner loop over the patterns, for one
    line; the first pattern that matches wins. *)
Fixpoint export_presets_line (patterns : list (regex * string * string))
    (i : nat) (line : text) : text * list Change :=
  match patterns with
  | [] => (line, [])
  | (pattern, repl, name) :: rest =>
      match re_match pattern line with
      | Some m =>
          (group1 line m ++ txt repl,
           [Change_ i (name ++ " = " ++ repl)%string])
      | None => export_presets_line rest i line
      end
  end.

(** The outer loop, [for i, line in enumerate(lines, 1)]. *)
Fixpoint export_presets_lines (i : nat) (lines : list text)
    : list text * list Change :=
  match lines with
  | [] => ([], [])
  | line :: rest =>
      let '(new_line, cs) := export_presets_line export_presets_patterns i line in
      let '(new_lines, cs') := export_presets_lines (S i) rest in
      (new_line :: new_lines, cs ++ cs')
  end.

Definition export_presets_rewrite (content : text) : text * list Change :=
  let '(new_lines, changes) := export_presets_lines 1 (split_nl content) in
  (join_nl new_lines, changes).

(** [patch_global_gd] and [patch_settings_manager]: one [re.search] per
    rule, one [Change] if it finds something, and [re.sub] over the whole
    content. *)
Definition search_step (acc : text * list Change)
    (rule : regex * template * string) : text * list Change :=
  let '(new_content, changes) := acc in
  let '(pattern, repl, name) := rule in
  match re_search pattern new_content with
  | Some m =>
      (re_sub pattern repl new_content,
       changes ++ [Change_ (line_of new_content (m_start m)) (actualizado name)])
  | None => acc
  end.

Definition global_gd_rewrite (content : text) : text * list Change :=
  fold_left search_step global_gd_replacements (content, []).

Definition settings_manager_rewrite (content : text) : text * list Change :=
  fold_left search_step settings_manager_replacements (content, []).

(** [patch_save_manager]: one [Change] per match that does not start on a
    comment line; [re.sub] rewrites every match. *)
Definition save_manager_changes (content : text) (desc : string)
    (ms : list rmatch) : list Change :=
  omap (fun m =>
          if is_comment_line (line_content content (m_start m)) then None
          else Some (Change_ (line_of content (m_start m)) (actualizado desc)))
       ms.

Definition save_manager_step (acc : text * list Change)
    (rule : regex * template * string) : text * list Change :=
  let '(content, changes) := acc in
  let '(pattern, repl, desc) := rule in
  (re_sub pattern repl content,
   changes ++ save_manager_changes content desc (re_finditer pattern content)).

Definition save_manager_rewrite (content : text) : text * list Change :=
  fold_left save_manager_step save_manager_replacements (content, []).

(** [patch_resource_pack_loader]: one [Change] per match. *)
Definition finditer_changes (content : text) (desc : string)
    (ms : list rmatch) : list Change :=
  map (fun m => Change_ (line_of content (m_start m)) desc) ms.

Definition resource_pack_step (acc : text * list Change)
    (rule : regex * template * string) : text * list Change :=
  let '(content, changes) := acc in
  let '(pattern, repl, desc) := rule in
  (re_sub pattern repl content,
   changes ++ finditer_changes content (actualizado desc)
                (re_finditer pattern content)).

Definition resource_pack_rewrite (content : text) : text * list Change :=
  fold_left resource_pack_step resource_pack_replacements (content, []).

(** [patch_tscn_files], for the content of one file that passed the gate. *)
Definition tscn_step (acc : text * list Change) (rule : regex * template)
    : text * list Change :=
  let '(new_content, changes) := acc in
  let '(pat, repl) := rule in
  (re_sub pat repl new_content,
   changes ++ finditer_changes new_content "Referencia user:// actualizada"
                (re_finditer pat new_content)).

Definition tscn_rewrite (content : text) : text * list Change :=
  fold_left tscn_step tscn_replacements (content, []).

(** ** The patch methods *)

Definition export_presets_path : path := ["export_presets.cfg"].
Definition global_gd_path : path :=
  ["Scripts"; "Classes"; "Singletons"; "Global.gd"].
Definition settings_manager_path : path :=
  ["Scripts"; "Classes"; "Singletons"; "SettingsManager.gd"].
Definition mod_loader_path : path :=
  ["addons"; "mod_loader"; "internal"; "path.gd"].
Definition save_manager_path : path :=
  ["Scripts"; "Classes"; "Singletons"; "SaveManager.gd"].
Definition resource_pack_loader_path : path :=
  ["Scripts"; "Parts"; "ResourcePackLoader.gd"].

Definition nonempty {A : Type} (l : list A) : bool :=
  match l with [] => false | _ => true end.

Definition text_neq (a b : text) : bool := bool_decide (a ≠ b).

(** [if cond: filepath.write_text(new_content)] *)
Definition write_if (cond : bool) (filepath : path) (new_content : text)
    : io unit :=
  if cond then write_text filepath new_content else mret tt.

Definition not_found (filepath : path) : FileResult :=
  mkFileResult filepath false [] (Some NotFound) None.

Definition patch_export_presets (self : patcher) : io FileResult :=
  let filepath := export_presets_path in
  ex ← path_exists filepath;
  if negb ex then mret (not_found filepath)
  else
    bp ← create_backup self filepath;
    content ← read_text filepath;
    let '(new_content, changes) := export_presets_rewrite content in
    _ ← write_if (nonempty changes && negb (dry_run self)) filepath new_content;
    mret (mkFileResult filepath true changes None bp).

Definition patch_global_gd (self : patcher) : io FileResult :=
  let filepath := global_gd_path in
  ex ← path_exists filepath;
  if negb ex then mret (not_found filepath)
  else
    bp ← create_backup self filepath;
    content ← read_text filepath;
    let '(new_content, changes) := global_gd_rewrite content in
    _ ← write_if (nonempty changes && negb (dry_run self)) filepath new_content;
    mret (mkFileResult filepath true changes None bp).

Definition patch_settings_manager (self : patcher) : io FileResult :=
  let filepath := settings_manager_path in
  ex ← path_exists filepath;
  if negb ex then mret (not_found filepath)
  else
    bp ← create_backup self filepath;
    content ← read_text filepath;
    let '(new_content, changes) := settings_manager_rewrite content in
    _ ← write_if (nonempty changes && negb (dry_run self)) filepath new_content;
    mret (mkFileResult filepath true changes None bp).

Definition patch_mod_loader_path (self : patcher) : io FileResult :=
  let filepath := mod_loader_path in
  ex ← path_exists filepath;
  if negb ex then mret (not_found filepath)
  else
    bp ← create_backup self filepath;
    content ← read_text filepath;
    match re_search mod_loader_pattern content with
    | Some m =>
        let line_num := line_of content (m_start m) in
        let new_content := re_sub mod_loader_pattern mod_loader_template content in
        let changes := [Change_ line_num "MOD_CONFIG_DIR_PATH actualizado"] in
        _ ← write_if (negb (dry_run self)) filepath new_content;
        mret (mkFileResult filepath true changes None bp)
    | None => mret (mkFileResult filepath true [] None bp)
    end.

Definition patch_save_manager (self : patcher) : io FileResult :=
  let filepath := save_manager_path in
  ex ← path_exists filepath;
  if negb ex then mret (not_found filepath)
  else
    bp ← create_backup self filepath;
    original ← read_text filepath;
    let '(content, changes) := save_manager_rewrite original in
    _ ← write_if (text_neq content original && negb (dry_run self))
          filepath content;
    mret (mkFileResult filepath true changes None bp).

Definition patch_resource_pack_loader (self : patcher) : io FileResult :=
  let filepath := resource_pack_loader_path in
  ex ← path_exists filepath;
  if negb ex then
    (* not critical when it does not exist *)
    mret (mkFileResult filepath true [] (Some NotFoundOptional) None)
  else
    bp ← create_backup self filepath;
    original ← read_text filepath;
    let '(content, changes) := resource_pack_rewrite original in
    _ ← write_if (text_neq content original && negb (dry_run self))
          filepath content;
    mret (mkFileResult filepath true changes None bp).

(** The body of the loop of [patch_tscn_files] for one path that
    [rglob] yields: nothing for a file that does not pass the gate, one
    result otherwise, also when an exception is caught. *)
Definition patch_tscn_file (self : patcher) (tscn_file : path)
    : io (option FileResult) :=
  try_except
    (content ← read_text tscn_file;
     match re_search tscn_pattern content with
     | None => mret None
     | Some _ =>
         bp ← create_backup self tscn_file;
         let '(new_content, changes) := tscn_rewrite content in
         _ ← write_if (nonempty changes && negb (dry_run self))
               tscn_file new_content;
         mret (Some (mkFileResult tscn_file true changes None bp))
     end)
    (fun e => mret (Some (mkFileResult tscn_file false [] (Some (Exception e)) None))).

(** [patch_tscn_files].  [Path.rglob] is a generator: the directories
    are listed while the loop runs.  [yielded] is the sequence of paths
    it hands to the loop. *)
Fixpoint patch_tscn_files (self : patcher) (yielded : list path)
    : io (list FileResult) :=
  match yielded with
  | [] => mret []
  | tscn_file :: rest =>
      r ← patch_tscn_file self tscn_file;
      rs ← patch_tscn_files self rest;
      mret (match r with Some x => x :: rs | None => rs end)
  end.

(** ** Listing the tree *)

(** [name] ends with [suffix]: what the glob patterns [*.gd] and
    [*.tscn] ask of a name. *)
Definition ends_with (suffix name : string) : bool :=
  let n := String.length name in
  let k := String.length suffix in
  bool_decide (k <= n) && String.eqb (substring (n - k) k name) suffix.

Definition name_of (p : path) : string := List.last p ""%string.

(** The name of the entry of directory [d] on the way to [p]. *)
Definition child_name (d p : path) : option string :=
  match strip_prefix d p with
  | Some (n :: _) => Some n
  | _ => None
  end.

(** [os.scandir(d)]: the names of the entries of [d].  The order of a
    directory listing is up to the file system; the model lists by
    name. *)
Definition scandir (fs : FS) (d : path) : list string :=
  merge_sort String.le
    (remove_dups (omap (fun kv => child_name d kv.1) (map_to_list fs))).

(** [root.rglob(pattern)] taken all at once, for a loop that does not
    change the tree: every file whose name ends with [suffix].  (A
    directory with such a name is yielded too; reading it raises, and
    the loops that use this listing swallow the exception.) *)
Definition rglob_files (fs : FS) (suffix : string) : list path :=
  filter (fun p => ends_with suffix (name_of p)) (map fst (map_to_list fs)).

(** [d.rglob(pattern)] as CPython runs it, interleaved with the loop
    body: on reaching a directory it lists it and yields the entries
    that match, each followed by the body of the loop; then it lists the
    directory again and descends into the subdirectories.  The result
    is the sequence yielded and the world the bodies leave; [None] when
    [fuel] does not suffice. *)
Fixpoint rglob_walk (fuel : nat) (suffix : string)
    (body : path -> world -> world) (d : path) (w : world)
    : option (list path * world) :=
  match fuel with
  | 0 => None
  | S fuel' =>
      let hits :=
        map (fun n => d ++ [n])
            (filter (fun n => ends_with suffix n) (scandir (w_fs w) d)) in
      let w1 := fold_left (fun w p => body p w) hits w in
      let subdirs :=
        filter (fun p => is_dir (w_fs w1) p)
               (map (fun n => d ++ [n]) (scandir (w_fs w1) d)) in
      fold_left
        (fun acc sub =>
           match acc with
           | Some (ys, w2) =>
               match rglob_walk fuel' suffix body sub w2 with
               | Some (ys', w3) => Some (ys ++ ys', w3)
               | None => None
               end
           | None => None
           end)
        subdirs (Some (hits, w1))
  end.

(** ** Verification *)

(** An entry of [remaining]: [rel:line] for a script, [rel] for a scene. *)
Inductive residual : Type :=
  | InScript (rel : path) (line : nat)
  | InScene (rel : path).

Definition found (r : regex) (t : text) : bool :=
  match re_search r t with Some _ => true | None => false end.

(** [for i, line in enumerate(lines, i)] of [verify_patches]. *)
Fixpoint script_residuals (rel : path) (i : nat) (lines : list text)
    : list residual :=
  match lines with
  | [] => []
  | line :: rest =>
      (if negb (is_comment_line line) && found combined line
       then [InScript rel i] else [])
      ++ script_residuals rel (S i) rest
  end.

Definition verify_script (fs : FS) (gd_file : path) : list residual :=
  match fs !! gd_file with
  | Some (Utf8 content) => script_residuals gd_file 1 (split_nl content)
  | _ => []                      (* except Exception: pass *)
  end.

Definition verify_scene (fs : FS) (tscn_file : path) : list residual :=
  match fs !! tscn_file with
  | Some (Utf8 content) =>
      if found combined content then [InScene tscn_file] else []
  | _ => []                      (* except Exception: pass *)
  end.

Definition verify_patches (fs : FS) : bool * list residual :=
  let remaining :=
    concat (map (verify_script fs) (rglob_files fs ".gd"))
    ++ concat (map (verify_scene fs) (rglob_files fs ".tscn")) in
  (negb (nonempty remaining), remaining).

(** ** The run *)

Definition validate_project (fs : FS) : bool := exists_ fs ["project.godot"].

(** The six fixed patches, with the name [run] reports them under. *)
Definition patches (self : patcher) : list (string * io FileResult) :=
  [ ("export_presets.cfg", patch_export_presets self);
    ("Global.gd", patch_global_gd self);
    ("SettingsManager.gd", patch_settings_manager self);
    ("ModLoader path.gd", patch_mod_loader_path self);
    ("SaveManager.gd", patch_save_manager self);
    ("ResourcePackLoader.gd", patch_resource_pack_loader self) ].

(** [try: result = patch_func() except Exception as e: ...] *)
Definition guarded (name : string) (patch_func : io FileResult) : io FileResult :=
  try_except patch_func
    (fun e => mret (mkFileResult [name] false [] (Some (Exception e)) None)).

Fixpoint run_patches (ps : list (string * io FileResult)) : io (list FileResult) :=
  match ps with
  | [] => mret []
  | (name, patch_func) :: rest =>
      r ← guarded name patch_func;
      rs ← run_patches rest;
      mret (r :: rs)
  end.

Record run_report : Type := mkReport {
  run_ok : bool;                                  (* what [run] returns *)
  results : list FileResult;                      (* [self.results] *)
  verification : option (bool * list residual)    (* apply mode only *)
}.

Definition all_success (rs : list FileResult) : bool := forallb success rs.

(** The end of [run]: verify unless this is a dry run, and return
    whether every result is a success. *)
Definition report (self : patcher) (results : list FileResult) : io run_report :=
  fun w =>
    let verification :=
      if dry_run self then None else Some (verify_patches (w_fs w)) in
    (Ok (mkReport (all_success results) results verification), w).

(** [AndroidStoragePatcher.run] from its start to the verification;
    the call of [save_log] that ends the method is added by
    [run_and_save_log] below.  [yielded] is what [rglob] yields to
    [patch_tscn_files]. *)
Definition run (self : patcher) (yielded : list path) : io run_report :=
  fun w =>
    if negb (validate_project (w_fs w)) then (Ok (mkReport false [] None), w)
    else
      (fixed ← run_patches (patches self);
       tscn_results ← patch_tscn_files self yielded;
       report self (fixed ++ tscn_results)) w.

(** The run with the walk of [rglob] computed: the fixed patches first,
    then the walk for [*.tscn] from the project root with the loop body
    of [patch_tscn_files]. *)
Definition tscn_walk (fuel : nat) (self : patcher) (w : world)
    : option (list path) :=
  let w1 := snd (run_patches (patches self) w) in
  match rglob_walk fuel ".tscn"
          (fun p w => snd (patch_tscn_file self p w)) [] w1 with
  | Some (ys, _) => Some ys
  | None => None
  end.

Definition run_walk (fuel : nat) (self : patcher) (w : world)
    : option (outcome run_report * world) :=
  match tscn_walk fuel self w with
  | Some ys => Some (run self ys w)
  | None => None
  end.

(** ** The log file *)

Definition LOG_PREFIX : string := "patch_log".

(** The log file of a run, in the project root. *)
Definition log_path (self : patcher) : path :=
  [(LOG_PREFIX ++ "_" ++ timestamp self
    ++ (if dry_run self then "_dryrun" else "") ++ ".txt")%string].

(** [open(p, 'w')] followed by the writes of [t]; opening a directory
    raises. *)
Definition open_write (p : path) (t : text) : io unit :=
  fun w =>
    if is_dir (w_fs w) p then (Raise IsADirectoryError, w)
    else write_text p t w.

(** The two lines that head the log; [now] is
    [datetime.now().isoformat()]. *)
Definition log_header (now : text) : text :=
  txt "Patch Android Storage Log - " ++ now ++ [nl]
  ++ repeat 61%N 60 ++ [nl; nl].

(** [save_log]; [log_lines] is [self.log_lines]. *)
Definition save_log (self : patcher) (log_lines : list text) (now : text)
    : io unit :=
  open_write (log_path self) (log_header now ++ join_nl log_lines).

(** [AndroidStoragePatcher.run] in full: with its last step,
    [save_log], which a run reaches unless [project.godot] is missing,
    and whose exception nothing catches.  What the run has logged is not
    computed: [log_lines] is an argument, as [yielded] is. *)
Definition run_and_save_log (self : patcher) (yielded : list path)
    (log_lines : list text) (now : text) : io run_report :=
  fun w =>
    if negb (validate_project (w_fs w)) then (Ok (mkReport false [] None), w)
    else
      (rep ← run self yielded;
       _ ← save_log self log_lines now;
       mret rep) w.

(** ** Rollback *)

Definition backup_base : path := [BACKUP_DIR].

(** [RollbackManager.list_backups]: the directories in [backups], the
    greatest name first. *)
Definition list_backups (fs : FS) : list path :=
  if negb (exists_ fs backup_base) then []
  else
    map (fun n => backup_base ++ [n])
        (merge_sort (flip String.le)
           (filter (fun n => is_dir fs (backup_base ++ [n]))
                   (scandir fs backup_base))).

(** [list_backups] as it runs: [iterdir] raises when [backups] is a
    regular file. *)
Definition list_backups_io : io (list path) :=
  fun w =>
    if is_file (w_fs w) backup_base then (Raise NotADirectoryError, w)
    else (Ok (list_backups (w_fs w)), w).

(** [p.parent] *)
Definition parent (p : path) : path := removelast p.

(** [d.mkdir(parents=True, exist_ok=True)].  The directories of the
    model are those that hold a file, so making one leaves the tree as it
    is; the call raises when [d] or a directory above it, the project
    root apart, is a regular file. *)
Definition mkdir_parents (d : path) : io unit :=
  fun w =>
    if existsb (fun k => is_file (w_fs w) (take k d)) (seq 1 (length d))
    then (Raise (if is_file (w_fs w) d then FileExistsError
                 else NotADirectoryError), w)
    else (Ok tt, w).

(** [shutil.copy2(src, dst)] in full: a [dst] that is a directory
    stands for the entry of that directory with the name of [src];
    copying a file onto itself raises, and so does a destination that is
    a directory. *)
Definition shutil_copy2 (src dst : path) : io unit :=
  fun w =>
    let dst := if is_dir (w_fs w) dst then dst ++ [name_of src] else dst in
    if bool_decide (dst = src) && is_file (w_fs w) src
    then (Raise SameFileError, w)
    else
      match w_fs w !! src with
      | None =>
          (Raise (if is_dir (w_fs w) src then IsADirectoryError
                  else FileNotFoundError), w)
      | Some f =>
          if is_dir (w_fs w) dst then (Raise IsADirectoryError, w)
          else
            (Ok tt, mkWorld (<[dst := f]> (w_fs w))
                            (w_trace w ++ [EvCopy src dst]))
      end.

(** The body of the loop of [rollback] for the entry [backup_dir / rel]
    that [rglob] has yielded: a regular file is copied back, after the
    directories of its target have been made; a failure is printed and
    the loop goes on.  The value tells whether [restored] was
    incremented. *)
Definition restore_file (backup_dir rel : path) : io bool :=
  fun w =>
    if is_file (w_fs w) (backup_dir ++ rel) then
      try_except
        (_ ← mkdir_parents (parent rel);
         _ ← shutil_copy2 (backup_dir ++ rel) rel;
         mret true)
        (fun _ => mret false) w
    else (Ok false, w).

Fixpoint restore_files (backup_dir : path) (yielded : list path) : io nat :=
  match yielded with
  | [] => mret 0
  | rel :: rest =>
      ok ← restore_file backup_dir rel;
      n ← restore_files backup_dir rest;
      mret (Nat.b2n ok + n)
  end.

(** [RollbackManager.rollback(backup_dir)]: the value returned and the
    number of files restored.  [yielded] is the sequence of entries that
    [backup_dir.rglob] hands to the loop while the loop copies, each
    taken relative to the backup directory. *)
Definition rollback (backup_dir : option path) (yielded : list path)
    : io (bool * nat) :=
  backups ← list_backups_io;
  match backups with
  | [] => mret (false, 0)
  | newest :: _ =>
      let backup_dir := match backup_dir with
                        | None => newest
                        | Some d => d
                        end in
      ex ← path_exists backup_dir;
      if negb ex then mret (false, 0)
      else
        restored ← restore_files backup_dir yielded;
        mret (true, restored)
  end.

(** The sequence that the walk of [rglob] yields to the loop of
    [rollback], computed: the walk from the backup directory, every
    entry matching, with the loop body run at each entry. *)
Definition rollback_walk (fuel : nat) (backup_dir : option path) (w : world)
    : option (list path) :=
  match list_backups (w_fs w) with
  | [] => Some []
  | newest :: _ =>
      let backup_dir := match backup_dir with
                        | None => newest
                        | Some d => d
                        end in
      match rglob_walk fuel ""
              (fun p w => match strip_prefix backup_dir p with
                          | Some rel => snd (restore_file backup_dir rel w)
                          | None => w
                          end) backup_dir w with
      | Some (ys, _) => Some (omap (strip_prefix backup_dir) ys)
      | None => None
      end
  end.

(** ** The command line *)

Inductive mode : Type :=
  | ListBackups                  (* --list-backups *)
  | Rollback                     (* --rollback *)
  | Verify                       (* --verify *)
  | Patch (dry : bool).          (* nothing, or --dry-run *)

Definition exit_status (ok : bool) : nat := if ok then 0 else 1.

(** [main], from the point where the project root is known; the value
    is the status passed to [sys.exit], or 1 when an exception ends the
    process.  [yielded] is what [rglob] yields to the one loop the mode
    runs: the scenes of [patch_tscn_files], or the entries of the backup
    for [rollback]. *)
Definition main (m : mode) (timestamp : string) (yielded : list path)
    (log_lines : list text) (now : text) : world -> nat * world :=
  fun w =>
    match m with
    | ListBackups =>
        match list_backups_io w with
        | (Ok _, w') => (0, w')
        | (Raise _, w') => (1, w')
        end
    | Rollback =>
        match rollback None yielded w with
        | (Ok (ok, _), w') => (exit_status ok, w')
        | (Raise _, w') => (1, w')
        end
    | Verify => (exit_status (fst (verify_patches (w_fs w))), w)
    | Patch dry =>
        match run_and_save_log (mkPatcher dry timestamp) yielded
                log_lines now w with
        | (Ok rep, w') => (exit_status (run_ok rep), w')
        | (Raise _, w') => (1, w')
        end
    end.

(** ** Definitions used by the statements and the proofs *)

(** A [Change] as every loop of the script builds it: a line number
    counted from 1, and the two value fields left at their default. *)
Definition plain_change (c : Change) : Prop :=
  1 <= line_number c /\ old_value c = [] /\ new_value c = [].

(** The shape the six fixed patch methods share: test that the file is
    there, back it up, read it, rewrite the text, write it when the
    method's own test says so. *)
Definition patch_file (self : patcher) (filepath : path) (missing : FileResult)
    (rewrite : text -> text * list Change)
    (changed : text -> text -> list Change -> bool) : io FileResult :=
  ex ← path_exists filepath;
  if negb ex then mret missing
  else
    bp ← create_backup self filepath;
    content ← read_text filepath;
    let '(new_content, changes) := rewrite content in
    _ ← write_if (changed content new_content changes && negb (dry_run self))
          filepath new_content;
    mret (mkFileResult filepath true changes None bp).

(** The rewriting of [patch_mod_loader_path], which has one rule. *)
Definition mod_loader_rewrite (content : text) : text * list Change :=
  match re_search mod_loader_pattern content with
  | Some m =>
      (re_sub mod_loader_pattern mod_loader_template content,
       [Change_ (line_of content (m_start m)) "MOD_CONFIG_DIR_PATH actualizado"])
  | None => (content, [])
  end.

Definition when_changes (_ _ : text) (changes : list Change) : bool :=
  nonempty changes.

Definition when_differs (original content : text) (_ : list Change) : bool :=
  text_neq content original.


(** No pattern of [pats] matches anywhere in [t]. *)
Definition match_free (pats : list regex) (t : text) : bool :=
  forallb (fun p => negb (found p t)) pats.

(** The world after [shutil.copy2] of [p], which holds [f], into the
    backup directory, and after [write_text]. *)
Definition backed (self : patcher) (p : path) (f : file) (w : world) : world :=
  mkWorld (<[backup_dir self ++ p := f]> (w_fs w))
          (w_trace w ++ [EvCopy p (backup_dir self ++ p)]).

Definition written (p : path) (t : text) (w : world) : world :=
  mkWorld (<[p := Utf8 t]> (w_fs w)) (w_trace w ++ [EvWrite p t]).

Definition absent_exc (fs : FS) (p : path) : exc :=
  if is_dir fs p then IsADirectoryError else FileNotFoundError.

(** What [create_backup] returns for a file that exists. *)
Definition backup_of (self : patcher) (p : path) : path :=
  if dry_run self then with_backup_suffix p else backup_dir self ++ p.

(** [patch_file] in closed form. *)
Definition patch_file_sem (self : patcher) (p : path) (missing : FileResult)
    (rewrite : text -> text * list Change)
    (changed : text -> text -> list Change -> bool) (w : world)
    : outcome FileResult * world :=
  if negb (exists_ (w_fs w) p) then (Ok missing, w)
  else
    match w_fs w !! p with
    | None => (Raise (absent_exc (w_fs w) p), w)
    | Some f =>
        let w1 := if dry_run self then w else backed self p f w in
        match f with
        | Raw _ => (Raise UnicodeDecodeError, w1)
        | Utf8 t =>
            (Ok (mkFileResult p true (snd (rewrite t)) None
                   (Some (backup_of self p))),
             if changed t (fst (rewrite t)) (snd (rewrite t))
                && negb (dry_run self)
             then written p (fst (rewrite t)) w1 else w1)
        end
    end.

(** [patch_tscn_file] in closed form. *)
Definition patch_tscn_file_sem (self : patcher) (p : path) (w : world)
    : outcome (option FileResult) * world :=
  match w_fs w !! p with
  | None =>
      (Ok (Some (mkFileResult p false []
                   (Some (Exception (absent_exc (w_fs w) p))) None)), w)
  | Some (Raw b) =>
      (Ok (Some (mkFileResult p false []
                   (Some (Exception UnicodeDecodeError)) None)), w)
  | Some (Utf8 t) =>
      if found tscn_pattern t then
        let w1 := if dry_run self then w else backed self p (Utf8 t) w in
        (Ok (Some (mkFileResult p true (snd (tscn_rewrite t)) None
                     (Some (backup_of self p)))),
         if nonempty (snd (tscn_rewrite t)) && negb (dry_run self)
         then written p (fst (tscn_rewrite t)) w1 else w1)
      else (Ok None, w)
  end.

(** The six fixed targets, and the five that must exist. *)
Definition required_targets : list path :=
  [export_presets_path; global_gd_path; settings_manager_path;
   mod_loader_path; save_manager_path].

Definition fixed_targets : list path :=
  required_targets ++ [resource_pack_loader_path].

(** How patching the file at [p] may change the world, with the
    accesses it adds to the trace. *)
Inductive world_step (self : patcher) (p : path) (w : world)
    : world -> list event -> Prop :=
  | ws_same : world_step self p w w []
  | ws_backed f :
      dry_run self = false -> w_fs w !! p = Some f ->
      world_step self p w (backed self p f w)
        [EvCopy p (backup_dir self ++ p)]
  | ws_written f t :
      dry_run self = false -> w_fs w !! p = Some f ->
      world_step self p w (written p t (backed self p f w))
        [EvCopy p (backup_dir self ++ p); EvWrite p t].

(** The world [w'] is [w] after the accesses [tr]. *)
Definition extends_by (w w' : world) (tr : list event) : Prop :=
  w_fs w' = replay (w_fs w) tr /\ w_trace w' = w_trace w ++ tr.

(** Outside the directory [backups] the two trees hold the same paths. *)
Definition same_paths_outside_backups (fs fs' : FS) : Prop :=
  forall k, head k ≠ Some BACKUP_DIR -> is_Some (fs' !! k) <-> is_Some (fs !! k).

(** The result [run] records for a patch method that raised. *)
Definition raised (name : string) (e : exc) : FileResult :=
  mkFileResult [name] false [] (Some (Exception e)) None.






(** The changes a run reports: for each result that has some, the file
    and the line numbers. *)
Definition reported_changes (rep : run_report) : list (path * list nat) :=
  map (fun r => (filepath r, map line_number (changes r)))
      (filter (fun r => nonempty (changes r)) (results rep)).

(** The report of a run whose walk is computed, if the fuel suffices and
    nothing is raised. *)
Definition report_of (fuel : nat) (self : patcher) (w : world)
    : option (run_report * world) :=
  match run_walk fuel self w with
  | Some (Ok rep, w') => Some (rep, w')
  | _ => None
  end.

(** What a dry run and an apply run can be compared on: everything in a
    result but the path of the backup. *)
Definition summary (r : FileResult)
    : path * bool * list Change * option error_msg :=
  (filepath r, success r, changes r, error r).

(** A path of the project proper: not the root, and not in [backups]. *)
Definition outside_backups (p : path) : Prop :=
  p ≠ [] /\ head p ≠ Some BACKUP_DIR.

(** The tree [fs'] of an apply run against the tree [fs] it started
    from, when the files at [done] have been patched: the same paths
    outside [backups], and the same file at every path of the project
    proper that is not in [done]. *)
Definition agree_but (done : list path) (fs fs' : FS) : Prop :=
  same_paths_outside_backups fs fs' /\
  forall p, p ∉ done -> outside_backups p -> fs' !! p = fs !! p.

(** What a match of [r] at offset [pos] looks like: the text [w] it
    covers, the [rest] of the subject after it, and the span of group 1
    before and after.  A necessary condition: the look-ahead is left
    unconstrained. *)
Fixpoint may_match (r : regex) (pos : nat) (w rest : text)
    (g g' : option (nat * nat)) : Prop :=
  match r with
  | REps => w = [] /\ g' = g
  | RSet c => (exists x, w = [x] /\ cset_mem c x = true) /\ g' = g
  | RStar c => forallb (cset_mem c) w = true /\ g' = g
  | RSeq a b =>
      exists w1 w2 g1,
        w = w1 ++ w2 /\ may_match a pos w1 (w2 ++ rest) g g1 /\
        may_match b (pos + length w1) w2 rest g1 g'
  | RAlt a b => may_match a pos w rest g g' \/ may_match b pos w rest g g'
  | RGroup a =>
      (exists g0, may_match a pos w rest g g0) /\
      g' = Some (pos, pos + length w)
  | RNotAhead a => w = [] /\ g' = g
  | RBol => w = [] /\ pos = 0 /\ g' = g
  | REol => w = [] /\ (rest = [] \/ rest = [nl]) /\ g' = g
  end.

(** [needle] occurs in [t]. *)
Fixpoint occurs (needle t : text) : bool :=
  startswith needle t ||
  match t with
  | [] => false
  | _ :: t' => occurs needle t'
  end.

(** A pattern made of literal code points only, and the text it is. *)
Fixpoint literal (r : regex) : bool :=
  match r with
  | REps => true
  | RSet (CChr _) => true
  | RSeq a b => literal a && literal b
  | _ => false
  end.

(** The literal text every match of [r] starts with. *)
Fixpoint lit_prefix (r : regex) : text :=
  match r with
  | RSet (CChr c) => [c]
  | RSeq a b => if literal a then lit_prefix a ++ lit_prefix b else lit_prefix a
  | RGroup a => lit_prefix a
  | _ => []
  end.

(** A syntactic test that every match of [r] holds [needle]. *)
Fixpoint needs (needle : text) (r : regex) : bool :=
  occurs needle (lit_prefix r) ||
  match r with
  | RSeq a b => needs needle a || needs needle b
  | RAlt a b => needs needle a && needs needle b
  | RGroup a => needs needle a
  | _ => false
  end.

(** The opening of the literals that every rule but those of
    [export_presets.cfg] looks for: a double quote and [user://]. *)
Definition user_open : text := dq :: txt "user://".

(** A run of white space. *)
Definition spaces (ws : text) : Prop := forallb is_space ws = true.

(** The keys of the three permission lines, with the names they are
    logged under. *)
Definition permission_keys : list (string * string) :=
  [ ("permissions/manage_external_storage", "manage_external_storage");
    ("permissions/read_external_storage", "read_external_storage");
    ("permissions/write_external_storage", "write_external_storage") ].

(** [line] sets the permission [key] to [false]: white space, the key,
    white space, an equals sign, white space (up to here, [lead]), then
    [false] and white space. *)
Definition permission_false (key : string) (lead line : text) : Prop :=
  exists ws1 ws2 ws3 ws4,
    spaces ws1 /\ spaces ws2 /\ spaces ws3 /\ spaces ws4 /\
    lead = ws1 ++ txt key ++ ws2 ++ txt "=" ++ ws3 /\
    line = lead ++ txt "false" ++ ws4.

(** The six patches by the name [run] gives them, with their targets. *)
Definition patch_targets : list (string * path) :=
  [ ("export_presets.cfg", export_presets_path);
    ("Global.gd", global_gd_path);
    ("SettingsManager.gd", settings_manager_path);
    ("ModLoader path.gd", mod_loader_path);
    ("SaveManager.gd", save_manager_path);
    ("ResourcePackLoader.gd", resource_pack_loader_path) ]%string.

(** The tree [fs'] of an apply run whose backups go to [bd], against the
    tree [fs] it started from, when the files at [done] have been
    patched, none of them below [bd]: the other paths outside [bd] are
    as they were, every file below [bd] is the copy of a file of [done]
    as it was, and a file of [done] is as it was or has such a copy. *)
Definition restorable (bd : path) (fs : FS) (done : list path) (fs' : FS)
    : Prop :=
  (forall p, p ∈ done -> strip_prefix bd p = None) /\
  (forall k, strip_prefix bd k = None -> k ∉ done -> fs' !! k = fs !! k) /\
  (forall r f, fs' !! (bd ++ r) = Some f -> r ∈ done /\ fs !! r = Some f) /\
  (forall p, p ∈ done ->
     fs' !! p = fs !! p \/
     exists f, fs !! p = Some f /\ fs' !! (bd ++ p) = Some f).

(** The counts of [_print_summary]: the results, the successes, and the
    changes of the successes. *)
Definition summary_counts (results : list FileResult) : nat * nat * nat :=
  (length results,
   length (filter (fun r => success r = true) results),
   sum_list (map (fun r => length (changes r))
               (filter (fun r => success r = true) results))).

(** The results listed under the heading of the files with errors. *)
Definition failed (results : list FileResult) : list FileResult :=
  filter (fun r => success r = false) results.

(** The shapes a result of the script has: a success with no error, the
    optional target reported missing, or a failure, which carries an
    error and neither changes nor a backup. *)
Definition well_formed (r : FileResult) : Prop :=
  (success r = true /\ error r = None /\ is_Some (backup_path r))
  \/ r = mkFileResult resource_pack_loader_path true []
           (Some NotFoundOptional) None
  \/ (success r = false /\ changes r = [] /\ backup_path r = None /\
      is_Some (error r)).











(** ** Concrete inputs *)

(** The declaration of a variable [p] whose value is the literal
    [user://saves/]. *)
Definition one_literal : text := txt "var p = " ++ quoted (txt "user://saves/").

(** The constant [ROM_PATH] declared on two lines. *)
Definition two_rom_paths : text :=
  txt "const ROM_PATH := " ++ quoted (txt "user://baserom.nes") ++ [nl]
  ++ txt "const ROM_PATH := " ++ quoted (txt "user://baserom.nes").

(** A literal on a comment line and one on the next line. *)
Definition commented_literal : text :=
  txt "# old: " ++ quoted (txt "user://saves/") ++ [nl]
  ++ txt "var a = " ++ quoted (txt "user://saves/").

(** A call of [DirAccess.make_dir_recursive_absolute] written over three
    lines, with the literal [user://saves] alone on the second, and on
    the fourth line a variable whose value is the literal
    [user://achievements.sav]. *)
Definition multiline_call : text :=
  txt "DirAccess.make_dir_recursive_absolute(" ++ [nl]
  ++ txt "    " ++ quoted (txt "user://saves") ++ [nl]
  ++ txt ")" ++ [nl]
  ++ txt "var a = " ++ quoted (txt "user://achievements.sav").


(** A project with one scene, whose only line is a comment that holds a
    forbidden literal; and the same text as a script. *)
Definition commented_line : text := txt "# " ++ quoted (txt "user://saves/").

Definition scene_with_comment : FS := {[ ["a.tscn"] := Utf8 commented_line ]}.

Definition script_with_comment : FS := {[ ["a.gd"] := Utf8 commented_line ]}.


(** A project with [project.godot] and nothing else. *)
Definition bare_project : FS := {[ ["project.godot"] := Utf8 [] ]}.

(** A project whose [SaveManager.gd] is [one_literal]. *)
Definition save_project : FS :=
  list_to_map
    [ (["project.godot"], Utf8 []);
      (save_manager_path, Utf8 one_literal) ].



(** A project where the regular file [a] stands in the way of the
    backup of [a/b.gd]. *)
Definition blocked_project : FS :=
  list_to_map
    [ (["project.godot"], Utf8 []);
      (["a"], Utf8 (txt "file"));
      ([BACKUP_DIR; "T"; "a"; "b.gd"], Utf8 (txt "kept")) ]%string.

(** A project with [export_presets.cfg] and one scene, [Scenes/x.tscn],
    that holds one literal to rewrite. *)
Definition scene_text : text := txt "path = " ++ quoted (txt "user://saves/").

Definition scene_project : FS :=
  list_to_map
    [ (["project.godot"], Utf8 []);
      (export_presets_path, Utf8 []);
      (["Scenes"; "x.tscn"], Utf8 scene_text) ].

(** * Properties *)

(** ** The matcher *)

Lemma search_from_scan r pos s : search_from r pos s = head (scan r pos s 0).
Proof.
  revert pos. induction s as [|c s IH]; intros pos; simpl.
  - destruct (match_here r pos []); reflexivity.
  - destruct (match_here r pos (c :: s)); [reflexivity | apply IH].
Qed.

(** [re.search] finds the first match of [re.finditer]. *)
Lemma re_search_finditer r s : re_search r s = head (re_finditer r s).
Proof. apply search_from_scan. Qed.

Lemma found_false_finditer r s : found r s = false -> re_finditer r s = [].
Proof.
  unfold found. rewrite re_search_finditer.
  destruct (re_finditer r s); simpl; [reflexivity | discriminate].
Qed.

Lemma re_sub_no_match r tpl s : found r s = false -> re_sub r tpl s = s.
Proof.
  intros H. unfold re_sub, re_subn. rewrite (found_false_finditer _ _ H).
  simpl. apply drop_0.
Qed.

(** ** The changes the loops record *)

Lemma plain_Change_ content pos desc :
  plain_change (Change_ (line_of content pos) desc).
Proof. unfold plain_change, line_of; simpl. split; [lia | auto]. Qed.

Create HintDb changes.
#[local] Hint Resolve plain_Change_ : changes.

Lemma export_presets_line_plain pats i line :
  1 <= i -> Forall plain_change (snd (export_presets_line pats i line)).
Proof.
  intros Hi. induction pats as [|[[pat repl] name] pats IH]; simpl.
  - constructor.
  - destruct (re_match pat line); [|exact IH].
    simpl. constructor; [|constructor].
    unfold plain_change; simpl; auto.
Qed.

Lemma export_presets_lines_plain i lines :
  1 <= i -> Forall plain_change (snd (export_presets_lines i lines)).
Proof.
  revert i. induction lines as [|line lines IH]; intros i Hi;
    cbn [export_presets_lines].
  - constructor.
  - pose proof (export_presets_line_plain export_presets_patterns i line Hi) as H1.
    destruct (export_presets_line export_presets_patterns i line) as [nl1 cs1].
    specialize (IH (S i) ltac:(lia)).
    destruct (export_presets_lines (S i) lines) as [nls cs2]. cbn [snd] in *.
    apply Forall_app; auto.
Qed.

Lemma export_presets_rewrite_plain content :
  Forall plain_change (snd (export_presets_rewrite content)).
Proof.
  unfold export_presets_rewrite.
  pose proof (export_presets_lines_plain 1 (split_nl content) ltac:(lia)) as H.
  destruct (export_presets_lines 1 (split_nl content)); exact H.
Qed.

(** A loop over rules keeps what each of its steps keeps. *)
Lemma fold_left_changes {R : Type} (P : list Change -> Prop)
    (step : text * list Change -> R -> text * list Change) rules :
  (forall content cs rule, P cs -> P (snd (step (content, cs) rule))) ->
  forall content cs, P cs -> P (snd (fold_left step rules (content, cs))).
Proof.
  intros Hstep. induction rules as [|rule rules IH]; intros content cs Hcs; simpl.
  - exact Hcs.
  - specialize (Hstep content cs rule Hcs).
    destruct (step (content, cs) rule) as [content' cs']. apply IH, Hstep.
Qed.

Lemma search_step_plain content cs rule :
  Forall plain_change cs -> Forall plain_change (snd (search_step (content, cs) rule)).
Proof.
  intros H. destruct rule as [[pat repl] name]. simpl.
  destruct (re_search pat content); simpl; [|exact H].
  apply Forall_app; split; [exact H|].
  constructor; [apply plain_Change_ | constructor].
Qed.

Lemma save_manager_changes_plain content desc ms :
  Forall plain_change (save_manager_changes content desc ms).
Proof.
  induction ms as [|m ms IH]; simpl; [constructor|].
  destruct (is_comment_line _); simpl; [exact IH|].
  constructor; auto with changes.
Qed.

Lemma finditer_changes_plain content desc ms :
  Forall plain_change (finditer_changes content desc ms).
Proof.
  induction ms as [|m ms IH]; simpl; constructor; auto with changes.
Qed.

Lemma save_manager_step_plain content cs rule :
  Forall plain_change cs ->
  Forall plain_change (snd (save_manager_step (content, cs) rule)).
Proof.
  intros H. destruct rule as [[pat repl] desc]. simpl.
  apply Forall_app; split; [exact H | apply save_manager_changes_plain].
Qed.

Lemma resource_pack_step_plain content cs rule :
  Forall plain_change cs ->
  Forall plain_change (snd (resource_pack_step (content, cs) rule)).
Proof.
  intros H. destruct rule as [[pat repl] desc]. simpl.
  apply Forall_app; split; [exact H | apply finditer_changes_plain].
Qed.

Lemma tscn_step_plain content cs rule :
  Forall plain_change cs -> Forall plain_change (snd (tscn_step (content, cs) rule)).
Proof.
  intros H. destruct rule as [pat repl]. simpl.
  apply Forall_app; split; [exact H | apply finditer_changes_plain].
Qed.

Lemma global_gd_rewrite_plain content :
  Forall plain_change (snd (global_gd_rewrite content)).
Proof. apply (fold_left_changes (Forall plain_change)); [apply search_step_plain | constructor]. Qed.

Lemma settings_manager_rewrite_plain content :
  Forall plain_change (snd (settings_manager_rewrite content)).
Proof. apply (fold_left_changes (Forall plain_change)); [apply search_step_plain | constructor]. Qed.

Lemma mod_loader_rewrite_plain content :
  Forall plain_change (snd (mod_loader_rewrite content)).
Proof.
  unfold mod_loader_rewrite. destruct (re_search _ _); simpl; [|constructor].
  constructor; [apply plain_Change_ | constructor].
Qed.

Lemma save_manager_rewrite_plain content :
  Forall plain_change (snd (save_manager_rewrite content)).
Proof. apply (fold_left_changes (Forall plain_change)); [apply save_manager_step_plain | constructor]. Qed.

Lemma resource_pack_rewrite_plain content :
  Forall plain_change (snd (resource_pack_rewrite content)).
Proof. apply (fold_left_changes (Forall plain_change)); [apply resource_pack_step_plain | constructor]. Qed.

Lemma tscn_rewrite_plain content :
  Forall plain_change (snd (tscn_rewrite content)).
Proof. apply (fold_left_changes (Forall plain_change)); [apply tscn_step_plain | constructor]. Qed.

(** ** The patch methods in closed form *)

Lemma backup_path_ne (self : patcher) (p : path) : backup_dir self ++ p ≠ p.
Proof.
  intros H. apply (f_equal length) in H. rewrite length_app in H.
  simpl in H. lia.
Qed.

Lemma exists_file fs p f : fs !! p = Some f -> exists_ fs p = true.
Proof. intros H. unfold exists_, is_file. rewrite H. reflexivity. Qed.

Lemma patch_file_closed self p missing rw ch w :
  patch_file self p missing rw ch w = patch_file_sem self p missing rw ch w.
Proof.
  unfold patch_file, patch_file_sem, create_backup.
  unfold mbind, io_bind, mret, io_ret, path_exists, read_text,
    copy2, write_if, write_text, backed, written, backup_of, absent_exc.
  destruct (exists_ (w_fs w) p) eqn:Hex; simpl; [|reflexivity].
  rewrite ?Hex; simpl.
  destruct (dry_run self) eqn:Hdry; simpl.
  - destruct (w_fs w !! p) as [[t|b]|] eqn:Hp; simpl; try reflexivity.
    destruct (rw t) as [t' cs]; simpl. rewrite andb_false_r. reflexivity.
  - destruct (w_fs w !! p) as [f|] eqn:Hp; simpl; [|reflexivity].
    rewrite lookup_insert_ne by apply backup_path_ne. rewrite Hp.
    destruct f as [t|b]; simpl; [|reflexivity].
    destruct (rw t) as [t' cs]; simpl. rewrite andb_true_r.
    destruct (ch t t' cs); reflexivity.
Qed.

Lemma patch_export_presets_closed self w :
  patch_export_presets self w =
  patch_file_sem self export_presets_path (not_found export_presets_path)
    export_presets_rewrite when_changes w.
Proof. rewrite <- patch_file_closed. reflexivity. Qed.

Lemma patch_global_gd_closed self w :
  patch_global_gd self w =
  patch_file_sem self global_gd_path (not_found global_gd_path)
    global_gd_rewrite when_changes w.
Proof. rewrite <- patch_file_closed. reflexivity. Qed.

Lemma patch_settings_manager_closed self w :
  patch_settings_manager self w =
  patch_file_sem self settings_manager_path (not_found settings_manager_path)
    settings_manager_rewrite when_changes w.
Proof. rewrite <- patch_file_closed. reflexivity. Qed.

Lemma patch_save_manager_closed self w :
  patch_save_manager self w =
  patch_file_sem self save_manager_path (not_found save_manager_path)
    save_manager_rewrite when_differs w.
Proof. rewrite <- patch_file_closed. reflexivity. Qed.

Lemma patch_resource_pack_loader_closed self w :
  patch_resource_pack_loader self w =
  patch_file_sem self resource_pack_loader_path
    (mkFileResult resource_pack_loader_path true [] (Some NotFoundOptional) None)
    resource_pack_rewrite when_differs w.
Proof. rewrite <- patch_file_closed. reflexivity. Qed.

Lemma patch_mod_loader_path_closed self w :
  patch_mod_loader_path self w =
  patch_file_sem self mod_loader_path (not_found mod_loader_path)
    mod_loader_rewrite when_changes w.
Proof.
  rewrite <- patch_file_closed.
  unfold patch_mod_loader_path, patch_file, mod_loader_rewrite.
  unfold mbind, io_bind, mret, io_ret.
  destruct (path_exists mod_loader_path w) as [[ex|e] w1]; [|reflexivity].
  destruct (negb ex); [reflexivity|].
  destruct (create_backup self mod_loader_path w1) as [[bp|e] w2]; [|reflexivity].
  destruct (read_text mod_loader_path w2) as [[content|e] w3]; [|reflexivity].
  destruct (re_search mod_loader_pattern content); reflexivity.
Qed.

Lemma patch_tscn_file_closed self p w :
  patch_tscn_file self p w = patch_tscn_file_sem self p w.
Proof.
  unfold patch_tscn_file, patch_tscn_file_sem, try_except, create_backup.
  unfold mbind, io_bind, mret, io_ret, path_exists, read_text,
    copy2, write_if, write_text, backed, written, backup_of, absent_exc, found.
  destruct (w_fs w !! p) as [[t|b]|] eqn:Hp; try reflexivity.
  destruct (tscn_rewrite t) as [t' cs].
  destruct (re_search tscn_pattern t); [|reflexivity].
  rewrite (exists_file _ _ _ Hp).
  destruct (dry_run self) eqn:Hdry; cbn -[tscn_pattern].
  - rewrite ?Hp, andb_false_r. reflexivity.
  - rewrite ?Hp, andb_true_r. cbn.
    destruct (nonempty cs); reflexivity.
Qed.

(** ** How a patch changes the world *)

Lemma replay_app fs tr1 tr2 : replay fs (tr1 ++ tr2) = replay (replay fs tr1) tr2.
Proof. apply fold_left_app. Qed.

Lemma patch_file_sem_step self p missing rw ch w :
  exists tr, world_step self p w (snd (patch_file_sem self p missing rw ch w)) tr.
Proof.
  unfold patch_file_sem.
  destruct (negb (exists_ (w_fs w) p)); [eexists; constructor|].
  destruct (w_fs w !! p) as [f|] eqn:Hp; [|eexists; constructor].
  destruct (dry_run self) eqn:Hdry.
  - destruct f; rewrite ?andb_false_r; eexists; constructor.
  - destruct f as [t|b]; simpl.
    + rewrite andb_true_r. destruct (ch t _ _); eexists; econstructor; eauto.
    + eexists; econstructor; eauto.
Qed.

Lemma patch_tscn_file_sem_step self p w :
  exists tr, world_step self p w (snd (patch_tscn_file_sem self p w)) tr.
Proof.
  unfold patch_tscn_file_sem.
  destruct (w_fs w !! p) as [[t|b]|] eqn:Hp; try (eexists; constructor).
  destruct (found tscn_pattern t); [|eexists; constructor].
  destruct (dry_run self) eqn:Hdry.
  - rewrite andb_false_r. eexists; constructor.
  - rewrite andb_true_r. simpl.
    destruct (nonempty _); eexists; econstructor; eauto.
Qed.

Lemma world_step_dry self p w w' tr :
  dry_run self = true -> world_step self p w w' tr -> w' = w /\ tr = [].
Proof. intros Hdry H. destruct H; auto; congruence. Qed.


Lemma world_step_paths self p w w' tr :
  world_step self p w w' tr -> same_paths_outside_backups (w_fs w) (w_fs w').
Proof.
  intros H k Hk.
  assert (Hne : backup_dir self ++ p ≠ k).
  { intros <-. apply Hk. reflexivity. }
  destruct H as [|f Hdry Hp|f t Hdry Hp]; simpl.
  - reflexivity.
  - rewrite lookup_insert_ne by exact Hne. reflexivity.
  - destruct (decide (p = k)) as [->|Hpk].
    + rewrite lookup_insert_eq. split; [intros _; exists f; exact Hp | eauto].
    + rewrite lookup_insert_ne by exact Hpk.
      rewrite lookup_insert_ne by exact Hne. reflexivity.
Qed.

Lemma extends_by_refl w : extends_by w w [].
Proof. split; [reflexivity | symmetry; apply app_nil_r]. Qed.

Lemma extends_by_trans w1 w2 w3 tr1 tr2 :
  extends_by w1 w2 tr1 -> extends_by w2 w3 tr2 -> extends_by w1 w3 (tr1 ++ tr2).
Proof.
  intros [Hf1 Ht1] [Hf2 Ht2]. split.
  - rewrite replay_app, <- Hf1. exact Hf2.
  - rewrite Ht2, Ht1, app_assoc. reflexivity.
Qed.

Lemma same_paths_refl fs : same_paths_outside_backups fs fs.
Proof. intros k _. reflexivity. Qed.

Lemma same_paths_trans fs1 fs2 fs3 :
  same_paths_outside_backups fs1 fs2 -> same_paths_outside_backups fs2 fs3 ->
  same_paths_outside_backups fs1 fs3.
Proof. intros H1 H2 k Hk. rewrite (H2 k Hk). apply H1, Hk. Qed.

(** ** The run, step by step *)

Lemma guarded_ok name f w :
  guarded name f w =
  match f w with
  | (Ok r, w') => (Ok r, w')
  | (Raise e, w') => (Ok (raised name e), w')
  end.
Proof. unfold guarded, try_except. destruct (f w) as [[r|e] w']; reflexivity. Qed.

(** A loop invariant for the six fixed patches: [I] holds of the world
    all along and [P] of each result, in the order of the patches. *)
Lemma run_patches_inv (I : world -> Prop)
    (P : string * io FileResult -> FileResult -> Prop) ps w :
  I w ->
  (forall name f w, (name, f) ∈ ps -> I w ->
     I (snd (f w)) /\
     match fst (f w) with
     | Ok r => P (name, f) r
     | Raise e => P (name, f) (raised name e)
     end) ->
  exists rs w', run_patches ps w = (Ok rs, w') /\ I w' /\ Forall2 P ps rs.
Proof.
  revert w. induction ps as [|[name f] ps IH]; intros w Hw Hstep.
  - exists [], w. repeat split; [exact Hw | constructor].
  - destruct (Hstep name f w ltac:(left) Hw) as [Hw1 Hr].
    cbn [run_patches]. unfold mbind, io_bind. rewrite guarded_ok.
    destruct (f w) as [[r|e] w1]; simpl in Hw1, Hr.
    + destruct (IH w1 Hw1) as (rs & w' & -> & Hw' & Hrs).
      { intros n g w2 Hin. apply Hstep. right. exact Hin. }
      exists (r :: rs), w'. repeat split; [exact Hw' | constructor; assumption].
    + destruct (IH w1 Hw1) as (rs & w' & -> & Hw' & Hrs).
      { intros n g w2 Hin. apply Hstep. right. exact Hin. }
      exists (raised name e :: rs), w'.
      repeat split; [exact Hw' | constructor; assumption].
Qed.

(** The same for the loop over the scene files. *)
Lemma patch_tscn_files_inv (I : world -> Prop) (P : FileResult -> Prop)
    self ys w :
  I w ->
  (forall p w, p ∈ ys -> I w ->
     I (snd (patch_tscn_file_sem self p w)) /\
     match fst (patch_tscn_file_sem self p w) with
     | Ok (Some r) => P r
     | Ok None => True
     | Raise _ => False
     end) ->
  exists rs w', patch_tscn_files self ys w = (Ok rs, w') /\ I w' /\ Forall P rs.
Proof.
  revert w. induction ys as [|p ys IH]; intros w Hw Hstep.
  - exists [], w. repeat split; [exact Hw | constructor].
  - destruct (Hstep p w ltac:(left) Hw) as [Hw1 Hr].
    cbn [patch_tscn_files]. unfold mbind, io_bind.
    rewrite patch_tscn_file_closed.
    destruct (patch_tscn_file_sem self p w) as [[o|e] w1]; simpl in Hw1, Hr;
      [|contradiction].
    destruct (IH w1 Hw1) as (rs & w' & -> & Hw' & Hrs).
    { intros q w2 Hin. apply Hstep. right. exact Hin. }
    destruct o as [r|].
    + exists (r :: rs), w'. repeat split; [exact Hw' | constructor; assumption].
    + exists rs, w'. repeat split; assumption.
Qed.

Lemma patch_tscn_file_sem_ok self p w :
  match fst (patch_tscn_file_sem self p w) with
  | Ok (Some r) => Forall plain_change (changes r)
  | Ok None => True
  | Raise _ => False
  end.
Proof.
  unfold patch_tscn_file_sem.
  destruct (w_fs w !! p) as [[t|b]|]; simpl; try constructor.
  destruct (found tscn_pattern t); simpl; [apply tscn_rewrite_plain | exact I].
Qed.

(** [run] once the two loops have run. *)
Lemma run_unfold self ys w fixed w1 tscn w2 :
  validate_project (w_fs w) = true ->
  run_patches (patches self) w = (Ok fixed, w1) ->
  patch_tscn_files self ys w1 = (Ok tscn, w2) ->
  run self ys w =
  (Ok (mkReport (all_success (fixed ++ tscn)) (fixed ++ tscn)
         (if dry_run self then None else Some (verify_patches (w_fs w2)))),
   w2).
Proof.
  intros Hv H1 H2. unfold run. rewrite Hv. cbn [negb].
  unfold mbind, io_bind. rewrite H1, H2. reflexivity.
Qed.

Lemma run_invalid self ys w :
  validate_project (w_fs w) = false ->
  run self ys w = (Ok (mkReport false [] None), w).
Proof. intros Hv. unfold run. rewrite Hv. reflexivity. Qed.

(** What the six patches are, in closed form. *)
Lemma patches_closed self name f :
  (name, f) ∈ patches self ->
  exists p missing rw ch,
    (forall w, f w = patch_file_sem self p missing rw ch w) /\
    p ∈ fixed_targets /\
    (missing = not_found p /\ p ∈ required_targets \/
     missing = mkFileResult p true [] (Some NotFoundOptional) None /\
     p = resource_pack_loader_path) /\
    (forall t, Forall plain_change (snd (rw t))).
Proof.
  unfold patches. intros Hin.
  repeat (apply elem_of_cons in Hin as [Hin|Hin]);
    try (apply elem_of_nil in Hin; contradiction);
    injection Hin as -> ->.
  - eexists _, _, _, _. split; [apply patch_export_presets_closed|].
    split; [set_solver|]. split; [left; split; [reflexivity | set_solver]|].
    apply export_presets_rewrite_plain.
  - eexists _, _, _, _. split; [apply patch_global_gd_closed|].
    split; [set_solver|]. split; [left; split; [reflexivity | set_solver]|].
    apply global_gd_rewrite_plain.
  - eexists _, _, _, _. split; [apply patch_settings_manager_closed|].
    split; [set_solver|]. split; [left; split; [reflexivity | set_solver]|].
    apply settings_manager_rewrite_plain.
  - eexists _, _, _, _. split; [apply patch_mod_loader_path_closed|].
    split; [set_solver|]. split; [left; split; [reflexivity | set_solver]|].
    apply mod_loader_rewrite_plain.
  - eexists _, _, _, _. split; [apply patch_save_manager_closed|].
    split; [set_solver|]. split; [left; split; [reflexivity | set_solver]|].
    apply save_manager_rewrite_plain.
  - eexists _, _, _, _. split; [apply patch_resource_pack_loader_closed|].
    split; [set_solver|]. split; [right; split; reflexivity|].
    apply resource_pack_rewrite_plain.
Qed.

(** ** One change per match *)

Lemma length_finditer_changes content desc ms :
  length (finditer_changes content desc ms) = length ms.
Proof. apply length_map. Qed.

Lemma length_save_manager_changes content desc ms :
  length (save_manager_changes content desc ms) =
  length (filter (fun m => negb (is_comment_line (line_content content (m_start m)))) ms).
Proof.
  induction ms as [|m ms IH]; [reflexivity|].
  unfold save_manager_changes in *. cbn [omap list_omap].
  destruct (is_comment_line (line_content content (m_start m))) eqn:E.
  - rewrite filter_cons_False by (rewrite E; simpl; auto). exact IH.
  - rewrite filter_cons_True by (rewrite E; exact I). simpl. f_equal. exact IH.
Qed.

(** ** Rules that find nothing change nothing *)

Lemma search_step_no_match s cs rule :
  found rule.1.1 s = false -> search_step (s, cs) rule = (s, cs).
Proof.
  destruct rule as [[pat repl] name]. unfold found, search_step. simpl.
  destruct (re_search pat s); [discriminate | reflexivity].
Qed.

Lemma save_manager_step_no_match s cs rule :
  found rule.1.1 s = false -> save_manager_step (s, cs) rule = (s, cs).
Proof.
  destruct rule as [[pat repl] name]. simpl. intros H. unfold save_manager_step.
  rewrite (re_sub_no_match _ _ _ H), (found_false_finditer _ _ H). simpl.
  rewrite app_nil_r. reflexivity.
Qed.

Lemma resource_pack_step_no_match s cs rule :
  found rule.1.1 s = false -> resource_pack_step (s, cs) rule = (s, cs).
Proof.
  destruct rule as [[pat repl] name]. simpl. intros H. unfold resource_pack_step.
  rewrite (re_sub_no_match _ _ _ H), (found_false_finditer _ _ H). simpl.
  rewrite app_nil_r. reflexivity.
Qed.


(** A loop whose rules all find nothing returns what it was given. *)
Lemma fold_left_no_match {R : Type} (pat_of : R -> regex)
    (step : text * list Change -> R -> text * list Change) rules s cs :
  (forall s cs rule, found (pat_of rule) s = false -> step (s, cs) rule = (s, cs)) ->
  match_free (map pat_of rules) s = true ->
  fold_left step rules (s, cs) = (s, cs).
Proof.
  intros Hstep. induction rules as [|rule rules IH]; simpl; [reflexivity|].
  intros H. apply andb_true_iff in H as [H1 H2].
  apply negb_true_iff in H1. rewrite (Hstep _ _ _ H1). apply IH, H2.
Qed.

(** ** The descriptions of the changes *)
























(** ** C2: what a change carries *)



(** ** C3: one change per match *)

(** C3, as it fails: in [two_rom_paths] the pattern of [ROM_PATH]
    matches twice and [re.sub] rewrites both, but [patch_global_gd]
    records one change. *)
Lemma global_gd_one_change_for_two_matches :
  length (re_finditer (const_decl "ROM_PATH" "baserom.nes") two_rom_paths) = 2
  /\ snd (re_subn (const_decl "ROM_PATH" "baserom.nes")
            [TGroup1; TText (base_lit "/baserom.nes")] two_rom_paths) = 2
  /\ snd (global_gd_rewrite two_rom_paths) = [mkChange 1 "ROM_PATH actualizado" [] []]
  /\ fst (global_gd_rewrite two_rom_paths)
     = txt "const ROM_PATH := " ++ base_lit "/baserom.nes" ++ [nl]
       ++ txt "const ROM_PATH := " ++ base_lit "/baserom.nes".
Proof. repeat split; vm_compute; reflexivity. Qed.

(** C3, amended.  For each rule, with [n] the number of matches of its
    pattern in the content as the rule finds it, [re.sub] rewrites [n]
    occurrences, and
    - [patch_resource_pack_loader] and [patch_tscn_files] append [n]
      changes;
    - [patch_save_manager] appends one change per match that does not
      start on a comment line;
    - [patch_global_gd], [patch_settings_manager] and
      [patch_mod_loader_path] append one change when [n] is not zero;
    - [patch_export_presets] appends at most one change per line. *)
Theorem changes_per_match content cs pattern repl desc :
  (fst (resource_pack_step (content, cs) (pattern, repl, desc))
     = fst (re_subn pattern repl content)
   /\ snd (re_subn pattern repl content) = length (re_finditer pattern content)
   /\ length (snd (resource_pack_step (content, cs) (pattern, repl, desc)))
     = length cs + length (re_finditer pattern content))
  /\ (fst (tscn_step (content, cs) (pattern, repl))
        = fst (re_subn pattern repl content)
      /\ length (snd (tscn_step (content, cs) (pattern, repl)))
        = length cs + length (re_finditer pattern content))
  /\ (fst (save_manager_step (content, cs) (pattern, repl, desc))
        = fst (re_subn pattern repl content)
      /\ length (snd (save_manager_step (content, cs) (pattern, repl, desc)))
        = length cs
          + length (filter (fun m => negb (is_comment_line
                                             (line_content content (m_start m))))
                           (re_finditer pattern content)))
  /\ (length (snd (search_step (content, cs) (pattern, repl, desc)))
        = length cs + Nat.min 1 (length (re_finditer pattern content))
      /\ fst (search_step (content, cs) (pattern, repl, desc))
        = if found pattern content then fst (re_subn pattern repl content)
          else content)
  /\ length (snd (mod_loader_rewrite content))
       = Nat.min 1 (length (re_finditer mod_loader_pattern content))
  /\ (forall i, length (snd (export_presets_line export_presets_patterns i content)) <= 1).
Proof.
  split.
  { split; [reflexivity|]. split; [reflexivity|].
    simpl. rewrite length_app, length_finditer_changes. reflexivity. }
  split.
  { split; [reflexivity|].
    simpl. rewrite length_app, length_finditer_changes. reflexivity. }
  split.
  { split; [reflexivity|].
    simpl. rewrite length_app, length_save_manager_changes. reflexivity. }
  split.
  { unfold search_step, found. rewrite re_search_finditer.
    destruct (re_finditer pattern content) as [|m ms]; simpl.
    - split; [lia | reflexivity].
    - rewrite length_app. simpl. split; [lia | reflexivity]. }
  split.
  { unfold mod_loader_rewrite. rewrite re_search_finditer.
    destruct (re_finditer mod_loader_pattern content); reflexivity. }
  intros i. generalize export_presets_patterns.
  intros pats. induction pats as [|[[pat r] name] pats IH]; simpl; [lia|].
  destruct (re_match pat content); simpl; [lia | exact IH].
Qed.


(** In [commented_literal] the rule for [saves/] matches on both lines;
    both are rewritten and the one that is not a comment is logged. *)
Example save_manager_skips_comment_line :
  length (re_finditer (user_lit "saves/") commented_literal) = 2
  /\ snd (save_manager_rewrite commented_literal)
     = [mkChange 2 "saves/ actualizado" [] []]
  /\ fst (save_manager_rewrite commented_literal)
     = txt "# old: " ++ base_lit "/saves/" ++ [nl]
       ++ txt "var a = " ++ base_lit "/saves/".
Proof. repeat split; vm_compute; reflexivity. Qed.

(** ** C7: line numbers *)

(** C7, where the code departs from it.  In [multiline_call] the call
    spans lines 1 to 3 and the literal [user://achievements.sav] is on
    line 4.  The second rule of [patch_save_manager] rewrites the call
    onto one line, so the fifth rule finds the literal on line 2 of the
    content as rewritten so far, and that is the number it logs. *)
Theorem save_manager_line_numbers_drift :
  map (fun c => (line_number c, description c))
      (snd (save_manager_rewrite multiline_call))
    = [(1, "make_dir saves actualizado"%string);
       (2, "achievements.sav actualizado"%string)]
  /\ map (fun m => line_of multiline_call (m_start m))
         (re_finditer (user_lit "achievements.sav") multiline_call)
    = [4]
  /\ count_nl multiline_call = 3
  /\ count_nl (fst (save_manager_rewrite multiline_call)) = 1.
Proof. repeat split; vm_compute; reflexivity. Qed.

(** ** C9: a second pass *)




(** ** C6: verification and comment lines *)

Lemma rglob_files_spec fs suffix p :
  p ∈ rglob_files fs suffix <->
  ends_with suffix (name_of p) = true /\ is_Some (fs !! p).
Proof.
  unfold rglob_files. rewrite list_elem_of_filter, list_elem_of_fmap.
  split.
  - intros [He [[k v] [-> Hin]]]. apply elem_of_map_to_list in Hin.
    split; [destruct (ends_with _ _); [reflexivity | contradiction] | eauto].
  - intros [He [v Hv]]. split; [rewrite He; exact I|].
    exists (p, v). split; [reflexivity | apply elem_of_map_to_list, Hv].
Qed.

Lemma script_residuals_script rel rel' i k lines :
  InScript rel i ∈ script_residuals rel' k lines <->
  rel = rel' /\
  exists j line, i = k + j /\ lines !! j = Some line /\
    is_comment_line line = false /\ found combined line = true.
Proof.
  revert k. induction lines as [|line lines IH]; intros k; simpl.
  - split; [intros H; inversion H | intros [_ (j & l & _ & H & _)]; discriminate].
  - rewrite elem_of_app, IH. split.
    + intros [H|[-> (j & l & -> & Hj & Hc & Hf)]].
      * destruct (is_comment_line line) eqn:Hc; simpl in H; [inversion H|].
        destruct (found combined line) eqn:Hf; simpl in H; [|inversion H].
        apply list_elem_of_singleton in H. injection H as -> ->.
        split; [reflexivity|]. exists 0, line. rewrite Nat.add_0_r. auto.
      * split; [reflexivity|]. exists (S j), l. simpl.
        split; [lia | auto].
    + intros [-> (j & l & -> & Hj & Hc & Hf)]. destruct j as [|j]; simpl in Hj.
      * left. injection Hj as ->. rewrite Hc, Hf, Nat.add_0_r. simpl. left.
      * right. split; [reflexivity|]. exists j, l. split; [lia | auto].
Qed.

Lemma script_residuals_scene rel rel' k lines :
  InScene rel ∉ script_residuals rel' k lines.
Proof.
  revert k. induction lines as [|line lines IH]; intros k; simpl.
  - intros H; inversion H.
  - rewrite elem_of_app. intros [H|H]; [|exact (IH _ H)].
    destruct (negb _ && _); simpl in H.
    + apply list_elem_of_singleton in H. discriminate.
    + inversion H.
Qed.

Lemma elem_of_concat_map {A B : Type} (f : A -> list B) (l : list A) (y : B) :
  y ∈ concat (map f l) <-> exists x, x ∈ l /\ y ∈ f x.
Proof.
  induction l as [|a l IH]; simpl.
  - split; [intros H; inversion H | intros (x & H & _); inversion H].
  - rewrite elem_of_app, IH. split.
    + intros [H|(x & Hx & Hy)]; [exists a; split; [left | exact H]|].
      exists x. split; [right; exact Hx | exact Hy].
    + intros (x & Hx & Hy). apply elem_of_cons in Hx as [->|Hx]; eauto.
Qed.

(** C6, as it fails: the only line of the scene [a.tscn] is a comment
    line, and the scene is reported all the same; the same text in the
    script [a.gd] is not. *)
Lemma verify_reports_scene_comment :
  forallb is_comment_line (split_nl commented_line) = true
  /\ verify_patches scene_with_comment = (false, [InScene ["a.tscn"%string]])
  /\ verify_patches script_with_comment = (true, []).
Proof. repeat split; vm_compute; reflexivity. Qed.

(** C6, amended: in a script ([*.gd]) the lines reported are exactly the
    lines that hold a forbidden pattern and are not comment lines, so a
    comment line is never reported; a scene ([*.tscn]) is searched as a
    whole, comment lines included, and reported by its path. *)
Theorem verify_skips_script_comments fs rel i :
  (InScript rel i ∈ snd (verify_patches fs) <->
   ends_with ".gd" (name_of rel) = true /\
   exists content j line,
     fs !! rel = Some (Utf8 content) /\ i = S j /\
     split_nl content !! j = Some line /\
     is_comment_line line = false /\ found combined line = true)
  /\ (InScene rel ∈ snd (verify_patches fs) <->
      ends_with ".tscn" (name_of rel) = true /\
      exists content, fs !! rel = Some (Utf8 content) /\
                      found combined content = true).
Proof.
  unfold verify_patches. cbn [snd]. split.
  - rewrite elem_of_app, !elem_of_concat_map. split.
    + intros [(p & Hp & Hin)|(p & Hp & Hin)].
      * apply rglob_files_spec in Hp as [He _]. unfold verify_script in Hin.
        destruct (fs !! p) as [[content|b]|] eqn:Hfs; try (inversion Hin; fail).
        apply script_residuals_script in Hin as [-> (j & l & -> & Hj & Hc & Hf)].
        split; [exact He|]. exists content, j, l. auto.
      * unfold verify_scene in Hin.
        destruct (fs !! p) as [[content|b]|]; try (inversion Hin; fail).
        destruct (found combined content); [|inversion Hin].
        apply list_elem_of_singleton in Hin. discriminate.
    + intros [He (content & j & l & Hfs & -> & Hj & Hc & Hf)].
      left. exists rel. split; [apply rglob_files_spec; eauto|].
      unfold verify_script. rewrite Hfs. apply script_residuals_script.
      split; [reflexivity|]. exists j, l. auto.
  - rewrite elem_of_app, !elem_of_concat_map. split.
    + intros [(p & Hp & Hin)|(p & Hp & Hin)].
      * unfold verify_script in Hin.
        destruct (fs !! p) as [[content|b]|]; try (inversion Hin; fail).
        exfalso. exact (script_residuals_scene _ _ _ _ Hin).
      * apply rglob_files_spec in Hp as [He _]. unfold verify_scene in Hin.
        destruct (fs !! p) as [[content|b]|] eqn:Hfs; try (inversion Hin; fail).
        destruct (found combined content) eqn:Hf; [|inversion Hin].
        apply list_elem_of_singleton in Hin. injection Hin as ->.
        split; [exact He|]. exists content. auto.
    + intros [He (content & Hfs & Hf)].
      right. exists rel. split; [apply rglob_files_spec; eauto|].
      unfold verify_scene. rewrite Hfs, Hf. left.
Qed.

(** ** Paths *)

Lemma strip_prefix_Some d p r : strip_prefix d p = Some r <-> p = d ++ r.
Proof.
  revert p. induction d as [|a d IH]; intros p; simpl.
  - split; [intros [= ->]; reflexivity | intros ->; reflexivity].
  - destruct p as [|b p]; [split; discriminate|].
    destruct (String.eqb a b) eqn:Hab.
    + apply String.eqb_eq in Hab as ->. rewrite IH.
      split; [intros ->; reflexivity | intros [= ->]; reflexivity].
    + apply String.eqb_neq in Hab.
      split; [discriminate | intros [= -> _]; contradiction].
Qed.

Lemma strip_prefix_app d r : strip_prefix d (d ++ r) = Some r.
Proof. apply strip_prefix_Some. reflexivity. Qed.

Lemma below_spec d p : below d p = true <-> exists n r, p = d ++ n :: r.
Proof.
  unfold below. destruct (strip_prefix d p) as [[|n r]|] eqn:H.
  - apply strip_prefix_Some in H. split; [discriminate|].
    intros (n & r & Hp). rewrite Hp in H.
    apply (f_equal length) in H. rewrite !length_app in H. simpl in H. lia.
  - apply strip_prefix_Some in H. split; eauto.
  - split; [discriminate|]. intros (n & r & Hp).
    apply strip_prefix_Some in Hp. congruence.
Qed.

(** A path exists when it is a file or a file lies below it. *)
Lemma exists_spec fs p :
  exists_ fs p = true <-> exists r, is_Some (fs !! (p ++ r)).
Proof.
  unfold exists_, is_dir, is_file. split.
  - destruct (fs !! p) as [f|] eqn:Hp; simpl.
    + intros _. exists []. rewrite app_nil_r. exists f. exact Hp.
    + intros H. apply existsb_exists in H as [[k v] [Hin Hb]].
      apply list_elem_of_In, elem_of_map_to_list in Hin.
      simpl in Hb. apply below_spec in Hb as (n & r & Hk). subst k.
      exists (n :: r). eauto.
  - intros [r [v Hv]]. destruct (fs !! p) as [f|] eqn:Hp; simpl; [reflexivity|].
    apply existsb_exists. exists (p ++ r, v).
    split; [apply list_elem_of_In, elem_of_map_to_list, Hv|].
    simpl. apply below_spec. destruct r as [|n r]; [|eauto].
    rewrite app_nil_r in Hv. exfalso.
    assert (Some v = None) as Habs by (rewrite <- Hv; exact Hp). discriminate.
Qed.

Lemma exists_same_paths fs fs' p :
  same_paths_outside_backups fs fs' ->
  p ≠ [] -> head p ≠ Some BACKUP_DIR ->
  exists_ fs' p = exists_ fs p.
Proof.
  intros Hsame Hnil Hhd.
  assert (Hk : forall r, head (p ++ r) ≠ Some BACKUP_DIR).
  { intros r. destruct p; [contradiction | exact Hhd]. }
  apply eq_true_iff_eq. rewrite !exists_spec.
  split; intros [r Hr]; exists r; apply (Hsame _ (Hk r)); exact Hr.
Qed.

Lemma fixed_target_outside p :
  p ∈ fixed_targets -> p ≠ [] /\ head p ≠ Some BACKUP_DIR.
Proof.
  unfold fixed_targets, required_targets. intros H.
  repeat (apply elem_of_cons in H as [->|H]); try (split; discriminate).
  inversion H.
Qed.

(** ** The shape of a run *)

Lemma patch_file_sem_result self p missing rw ch w :
  exists_ (w_fs w) p = false ->
  patch_file_sem self p missing rw ch w = (Ok missing, w).
Proof. intros H. unfold patch_file_sem. rewrite H. reflexivity. Qed.

Lemma run_cases self ys w :
  (validate_project (w_fs w) = false /\
   run self ys w = (Ok (mkReport false [] None), w))
  \/
  (validate_project (w_fs w) = true /\
   exists fixed w1 tscn w2,
     run_patches (patches self) w = (Ok fixed, w1) /\
     patch_tscn_files self ys w1 = (Ok tscn, w2) /\
     run self ys w =
     (Ok (mkReport (all_success (fixed ++ tscn)) (fixed ++ tscn)
            (if dry_run self then None else Some (verify_patches (w_fs w2)))),
      w2)).
Proof.
  destruct (validate_project (w_fs w)) eqn:Hv.
  2:{ left. split; [reflexivity | apply run_invalid, Hv]. }
  right. split; [reflexivity|].
  destruct (run_patches_inv (fun _ => True) (fun _ _ => True) (patches self) w I)
    as (fixed & w1 & H1 & _ & _).
  { intros name f w0 _ _. split; [exact I|]. destruct (fst (f w0)); exact I. }
  destruct (patch_tscn_files_inv (fun _ => True) (fun _ => True) self ys w1 I)
    as (tscn & w2 & H2 & _ & _).
  { intros p w0 _ _. split; [exact I|].
    pose proof (patch_tscn_file_sem_ok self p w0) as H.
    destruct (fst (patch_tscn_file_sem self p w0)) as [[r|]|e]; auto. }
  exists fixed, w1, tscn, w2.
  split; [exact H1|]. split; [exact H2|].
  apply (run_unfold self ys w fixed w1 tscn w2 Hv H1 H2).
Qed.

Lemma all_success_Exists rs :
  all_success rs = false <-> Exists (fun r => success r = false) rs.
Proof.
  unfold all_success. induction rs as [|r rs IH]; simpl.
  - split; [discriminate | intros H; inversion H].
  - rewrite Exists_cons, <- IH. destruct (success r); simpl.
    + split; [auto | intros [H|H]; [discriminate | exact H]].
    + split; auto.
Qed.

(** The exit status of a patch run of a valid project: that of the
    value of [run], unless [save_log] raises. *)
Lemma main_patch self ys lines now w rep w1 :
  validate_project (w_fs w) = true ->
  run self ys w = (Ok rep, w1) ->
  run_and_save_log self ys lines now w
  = (if is_dir (w_fs w1) (log_path self)
     then (Raise IsADirectoryError, w1)
     else (Ok rep, snd (save_log self lines now w1))) /\
  fst (main (Patch (dry_run self)) (timestamp self) ys lines now w)
  = if is_dir (w_fs w1) (log_path self) then 1 else exit_status (run_ok rep).
Proof.
  intros Hv Hrun.
  assert (Hr : run_and_save_log self ys lines now w
               = (if is_dir (w_fs w1) (log_path self)
                  then (Raise IsADirectoryError, w1)
                  else (Ok rep, snd (save_log self lines now w1)))).
  { unfold run_and_save_log. rewrite Hv. cbn [negb].
    unfold mbind, io_bind. rewrite Hrun.
    unfold save_log, open_write.
    destruct (is_dir (w_fs w1) (log_path self)); reflexivity. }
  split; [exact Hr|].
  unfold main. destruct self as [dry ts]. cbn [dry_run timestamp] in *.
  rewrite Hr. destruct (is_dir (w_fs w1) _); reflexivity.
Qed.

(** ** C10: the optional target *)

(** While the fixed patches run, the tree keeps its paths outside
    [backups], and a patch whose target is missing at the start of the
    run returns the result it has for a missing file. *)
Lemma run_patches_missing self w0 :
  exists fixed w1,
    run_patches (patches self) w0 = (Ok fixed, w1) /\
    same_paths_outside_backups (w_fs w0) (w_fs w1) /\
    Forall2 (fun nf r =>
               forall p missing rw ch,
                 p ∈ fixed_targets ->
                 (forall w, nf.2 w = patch_file_sem self p missing rw ch w) ->
                 exists_ (w_fs w0) p = false -> r = missing)
            (patches self) fixed.
Proof.
  apply (run_patches_inv
           (fun w => same_paths_outside_backups (w_fs w0) (w_fs w))).
  - apply same_paths_refl.
  - intros name f w Hin Hw. split.
    + destruct (patches_closed self name f Hin)
        as (p & missing & rw & ch & Hf & _).
      rewrite Hf.
      destruct (patch_file_sem_step self p missing rw ch w) as [tr Hstep].
      eapply same_paths_trans; [exact Hw | eapply world_step_paths, Hstep].
    + assert (Hres : forall p missing rw ch,
                 p ∈ fixed_targets ->
                 (forall w, f w = patch_file_sem self p missing rw ch w) ->
                 exists_ (w_fs w0) p = false -> fst (f w) = Ok missing).
      { intros p missing rw ch Hp Hf Hex. rewrite Hf.
        destruct (fixed_target_outside p Hp) as [Hnil Hhd].
        rewrite patch_file_sem_result; [reflexivity|].
        rewrite (exists_same_paths _ _ _ Hw Hnil Hhd). exact Hex. }
      destruct (fst (f w)) as [r|e] eqn:Hfw; simpl;
        intros p missing rw ch Hp Hf Hex;
        specialize (Hres p missing rw ch Hp Hf Hex); congruence.
Qed.

(** C10: in a valid project, a missing [ResourcePackLoader.gd] gives a
    result that is a success with the message for an optional file, and
    the value [run] returns is that of the other results; a missing file
    among the five other fixed targets gives a result that is a failure,
    [run] returns false and the exit status is 1. *)
Theorem only_resource_pack_loader_is_optional self ys lines now w :
  validate_project (w_fs w) = true ->
  (exists_ (w_fs w) resource_pack_loader_path = false ->
   exists rep w' before after,
     run self ys w = (Ok rep, w') /\
     results rep
     = before
       ++ mkFileResult resource_pack_loader_path true []
            (Some NotFoundOptional) None :: after /\
     length before = 5 /\
     run_ok rep = all_success (before ++ after))
  /\ (forall p, p ∈ required_targets -> exists_ (w_fs w) p = false ->
      exists rep w',
        run self ys w = (Ok rep, w') /\
        not_found p ∈ results rep /\
        success (not_found p) = false /\
        error (not_found p) = Some NotFound /\
        run_ok rep = false /\
        fst (main (Patch (dry_run self)) (timestamp self) ys lines now w) = 1).
Proof.
  intros Hv.
  destruct (run_patches_missing self w) as (fixed & w1 & H1 & _ & HP).
  destruct (run_cases self ys w)
    as [[Hv' _]|[_ (fixed' & w1' & tscn & w2 & H1' & H2 & Hrun)]];
    [congruence|].
  rewrite H1 in H1'. injection H1' as <- <-.
  unfold patches in HP.
  apply Forall2_cons_inv_l in HP as (r1 & rs1 & P1 & HP & ->).
  apply Forall2_cons_inv_l in HP as (r2 & rs2 & P2 & HP & ->).
  apply Forall2_cons_inv_l in HP as (r3 & rs3 & P3 & HP & ->).
  apply Forall2_cons_inv_l in HP as (r4 & rs4 & P4 & HP & ->).
  apply Forall2_cons_inv_l in HP as (r5 & rs5 & P5 & HP & ->).
  apply Forall2_cons_inv_l in HP as (r6 & rs6 & P6 & HP & ->).
  apply Forall2_nil_inv_l in HP as ->.
  cbn [snd] in P1, P2, P3, P4, P5, P6.
  split.
  - intros Hex.
    assert (r6 = mkFileResult resource_pack_loader_path true []
                   (Some NotFoundOptional) None) as ->.
    { eapply P6; [| intros w0; apply patch_resource_pack_loader_closed | exact Hex].
      unfold fixed_targets, required_targets. cbn [app].
      do 5 apply list_elem_of_further. apply list_elem_of_here. }
    eexists; exists w2, [r1; r2; r3; r4; r5], tscn.
    split; [exact Hrun|]. split; [reflexivity|]. split; [reflexivity|].
    cbn [run_ok]. unfold all_success. simpl. rewrite !andb_assoc. reflexivity.
  - intros p Hp Hex.
    assert (Hin : not_found p ∈ [r1; r2; r3; r4; r5; r6]).
    { assert (Hfix : p ∈ fixed_targets)
        by (unfold fixed_targets; apply elem_of_app; left; exact Hp).
      unfold required_targets in Hp.
      repeat (apply elem_of_cons in Hp as [->|Hp]); [| | | | |inversion Hp].
      + rewrite <- (P1 _ _ _ _ Hfix (fun w0 => patch_export_presets_closed self w0) Hex).
        repeat first [apply list_elem_of_here | apply list_elem_of_further].
      + rewrite <- (P2 _ _ _ _ Hfix (fun w0 => patch_global_gd_closed self w0) Hex).
        repeat first [apply list_elem_of_here | apply list_elem_of_further].
      + rewrite <- (P3 _ _ _ _ Hfix (fun w0 => patch_settings_manager_closed self w0) Hex).
        repeat first [apply list_elem_of_here | apply list_elem_of_further].
      + rewrite <- (P4 _ _ _ _ Hfix (fun w0 => patch_mod_loader_path_closed self w0) Hex).
        repeat first [apply list_elem_of_here | apply list_elem_of_further].
      + rewrite <- (P5 _ _ _ _ Hfix (fun w0 => patch_save_manager_closed self w0) Hex).
        repeat first [apply list_elem_of_here | apply list_elem_of_further]. }
    assert (Hok : all_success ([r1; r2; r3; r4; r5; r6] ++ tscn) = false).
    { apply all_success_Exists, Exists_exists. exists (not_found p).
      split; [apply elem_of_app; left; exact Hin | reflexivity]. }
    eexists; exists w2. split; [exact Hrun|].
    split; [cbn [results]; apply elem_of_app; left; exact Hin|].
    split; [reflexivity|]. split; [reflexivity|].
    split; [cbn [run_ok]; exact Hok|].
    rewrite (proj2 (main_patch self ys lines now w _ w2 Hv Hrun)).
    cbn [run_ok]. rewrite Hok. destruct (is_dir _ _); reflexivity.
Qed.

(** C10 at [bare_project], in apply mode: every fixed target is missing;
    the result for [ResourcePackLoader.gd] is a success, the five others
    are failures and the exit status is 1. *)
Lemma only_resource_pack_loader_is_optional_witness :
  (exists rep w' before after,
     run (mkPatcher false "T") [] (mkWorld bare_project []) = (Ok rep, w') /\
     results rep
     = before
       ++ mkFileResult resource_pack_loader_path true []
            (Some NotFoundOptional) None :: after /\
     length before = 5 /\
     run_ok rep = all_success (before ++ after))
  /\ fst (main (Patch false) "T" [] [] [] (mkWorld bare_project [])) = 1.
Proof.
  destruct (only_resource_pack_loader_is_optional (mkPatcher false "T") []
              [] [] (mkWorld bare_project []) ltac:(vm_compute; reflexivity))
    as [Hopt Hreq].
  split; [apply Hopt; vm_compute; reflexivity|].
  destruct (Hreq save_manager_path) as (rep & w' & _ & _ & _ & _ & _ & Hmain).
  - unfold required_targets.
    do 4 apply list_elem_of_further. apply list_elem_of_here.
  - vm_compute; reflexivity.
  - exact Hmain.
Defined.

(** ** C5: the backup comes first *)





(** ** Directory listings *)


Lemma is_dir_spec fs p :
  is_dir fs p = true <-> fs !! p = None /\ exists n r, is_Some (fs !! (p ++ n :: r)).
Proof.
  unfold is_dir, is_file. destruct (fs !! p) as [f|] eqn:Hp; simpl.
  - split; [discriminate | intros [H _]; discriminate].
  - rewrite existsb_exists. split.
    + intros [[k v] [Hin Hb]]. split; [reflexivity|].
      apply list_elem_of_In, elem_of_map_to_list in Hin. simpl in Hb.
      apply below_spec in Hb as (n & r & Hk). subst k. eauto.
    + intros [_ (n & r & v & Hv)]. exists (p ++ n :: r, v).
      split; [apply list_elem_of_In, elem_of_map_to_list, Hv|].
      simpl. apply below_spec. eauto.
Qed.

#[local] Instance flip_le_total : Total (flip String.le).
Proof. intros x y. unfold flip. destruct (total String.le x y); auto. Qed.

#[local] Instance flip_le_trans : Transitive (flip String.le).
Proof. intros x y z Hxy Hyz. unfold flip in *. etransitivity; eassumption. Qed.



(** ** Restoring *)














(** ** C8: rollback *)

(** C8, as it fails: in [blocked_project] the one backup holds
    [a/b.gd], and [a] is a regular file of the project.  The walk yields
    [a] and [a/b.gd]; making the directory [a] raises, the loop prints
    the error, [rollback] returns true with no file restored, and the
    project still has no [a/b.gd]. *)
Lemma rollback_skips_blocked_file :
  rollback_walk 10 None (mkWorld blocked_project [])
  = Some [["a"]; ["a"; "b.gd"]]%string
  /\ rollback None [["a"]; ["a"; "b.gd"]]%string (mkWorld blocked_project [])
     = (Ok (true, 0), mkWorld blocked_project [])
  /\ blocked_project !! ([BACKUP_DIR; "T"; "a"; "b.gd"]%string)
     = Some (Utf8 (txt "kept"))
  /\ blocked_project !! (["a"; "b.gd"]%string) = None.
Proof. repeat split; vm_compute; reflexivity. Qed.



(** ** C4: dry run and apply run *)

(** A dry run leaves the world as it is. *)
Lemma dry_run_leaves_world ts ys w :
  snd (run (mkPatcher true ts) ys w) = w.
Proof.
  set (self := mkPatcher true ts).
  destruct (run_cases self ys w)
    as [[_ ->]|[Hv (fixed & w1 & tscn & w2 & H1 & H2 & ->)]]; [reflexivity|].
  cbn [snd].
  destruct (run_patches_inv (fun w' => w' = w) (fun _ _ => True)
              (patches self) w eq_refl) as (fixed' & w1' & H1' & -> & _).
  { intros name f w0 Hin ->. split; [|destruct (fst (f w)); exact I].
    destruct (patches_closed self name f Hin)
      as (p & missing & rw & ch & Hf & _).
    rewrite Hf.
    destruct (patch_file_sem_step self p missing rw ch w) as [tr Hstep].
    exact (proj1 (world_step_dry self _ _ _ _ eq_refl Hstep)). }
  rewrite H1 in H1'. injection H1' as _ ->.
  destruct (patch_tscn_files_inv (fun w' => w' = w) (fun _ => True)
              self ys w eq_refl) as (tscn' & w2' & H2' & -> & _).
  { intros p w0 _ ->. split.
    - destruct (patch_tscn_file_sem_step self p w) as [tr Hstep].
      exact (proj1 (world_step_dry self _ _ _ _ eq_refl Hstep)).
    - pose proof (patch_tscn_file_sem_ok self p w) as H.
      destruct (fst (patch_tscn_file_sem self p w)) as [[r|]|e]; auto. }
  rewrite H2 in H2'. injection H2' as _ ->. reflexivity.
Qed.

(** *** When the two runs agree *)

Lemma is_dir_exists fs p : is_dir fs p = exists_ fs p && negb (is_file fs p).
Proof.
  unfold exists_, is_dir. destruct (is_file fs p); simpl;
    [reflexivity | rewrite andb_true_r; reflexivity].
Qed.

Lemma agree_but_refl fs : agree_but [] fs fs.
Proof. split; [apply same_paths_refl | reflexivity]. Qed.

Lemma agree_but_lookup done fs fs' p :
  agree_but done fs fs' -> p ∉ done -> outside_backups p ->
  fs' !! p = fs !! p /\ exists_ fs' p = exists_ fs p /\ is_dir fs' p = is_dir fs p.
Proof.
  intros [Hsame Hag] Hp [Hnil Hhd].
  assert (Hl : fs' !! p = fs !! p) by (apply Hag; [exact Hp | split; assumption]).
  assert (He : exists_ fs' p = exists_ fs p)
    by (apply exists_same_paths; assumption).
  split; [exact Hl|]. split; [exact He|].
  rewrite !is_dir_exists, He. unfold is_file. rewrite Hl. reflexivity.
Qed.

Lemma agree_but_step self done fs p w w' tr :
  outside_backups p ->
  agree_but done fs (w_fs w) -> world_step self p w w' tr ->
  agree_but (p :: done) fs (w_fs w').
Proof.
  intros Hout [Hsame Hag] Hstep. split.
  - eapply same_paths_trans; [exact Hsame | eapply world_step_paths, Hstep].
  - intros q Hq [Hnil Hhd]. apply not_elem_of_cons in Hq as [Hqp Hq].
    rewrite <- (Hag q Hq (conj Hnil Hhd)).
    assert (Hne : backup_dir self ++ p ≠ q).
    { intros <-. apply Hhd. reflexivity. }
    destruct Hstep as [|f Hdry Hp|f t Hdry Hp]; simpl.
    + reflexivity.
    + apply lookup_insert_ne. exact Hne.
    + rewrite lookup_insert_ne by congruence.
      apply lookup_insert_ne. exact Hne.
Qed.

(** One fixed patch, in the dry run from [w] and in the apply run from
    a world that agrees with [w] at the target. *)
Lemma patch_file_sem_agree ts done p missing rw ch name w wa :
  outside_backups p -> p ∉ done ->
  agree_but done (w_fs w) (w_fs wa) ->
  exists rd ra wa',
    guarded name (patch_file_sem (mkPatcher true ts) p missing rw ch) w
      = (Ok rd, w) /\
    guarded name (patch_file_sem (mkPatcher false ts) p missing rw ch) wa
      = (Ok ra, wa') /\
    summary rd = summary ra /\
    agree_but (p :: done) (w_fs w) (w_fs wa').
Proof.
  intros Hout Hp Hag.
  destruct (agree_but_lookup _ _ _ _ Hag Hp Hout) as (Hl & He & Hd).
  destruct (patch_file_sem_step (mkPatcher false ts) p missing rw ch wa)
    as [tr Hstep].
  pose proof (agree_but_step _ _ _ _ _ _ _ Hout Hag Hstep) as Hag'.
  rewrite !guarded_ok. revert Hag'.
  unfold patch_file_sem, absent_exc. rewrite He, Hl, Hd. cbn [dry_run].
  destruct (negb (exists_ (w_fs w) p)).
  { intros Hag'. eexists _, _, _. split; [reflexivity|]. split; [reflexivity|].
    split; [reflexivity | exact Hag']. }
  destruct (w_fs w !! p) as [[t|b]|]; cbn [negb andb snd];
    rewrite ?andb_false_r; intros Hag';
    eexists _, _, _; (split; [reflexivity|]); (split; [reflexivity|]);
    (split; [reflexivity | exact Hag']).
Qed.

(** The same for one scene file. *)
Lemma patch_tscn_file_agree ts done p w wa :
  outside_backups p -> p ∉ done ->
  agree_but done (w_fs w) (w_fs wa) ->
  exists od oa wa',
    patch_tscn_file (mkPatcher true ts) p w = (Ok od, w) /\
    patch_tscn_file (mkPatcher false ts) p wa = (Ok oa, wa') /\
    option_map summary od = option_map summary oa /\
    agree_but (p :: done) (w_fs w) (w_fs wa').
Proof.
  intros Hout Hp Hag.
  destruct (agree_but_lookup _ _ _ _ Hag Hp Hout) as (Hl & He & Hd).
  destruct (patch_tscn_file_sem_step (mkPatcher false ts) p wa) as [tr Hstep].
  pose proof (agree_but_step _ _ _ _ _ _ _ Hout Hag Hstep) as Hag'.
  rewrite !patch_tscn_file_closed. revert Hag'.
  unfold patch_tscn_file_sem, absent_exc. rewrite Hl, Hd. cbn [dry_run].
  destruct (w_fs w !! p) as [[t|b]|]; cbn [negb andb snd];
    try (intros Hag'; eexists _, _, _; (split; [reflexivity|]);
         (split; [reflexivity|]); (split; [reflexivity | exact Hag'])).
  destruct (found tscn_pattern t); rewrite ?andb_false_r; intros Hag';
    eexists _, _, _; (split; [reflexivity|]); (split; [reflexivity|]);
    (split; [reflexivity | exact Hag']).
Qed.

Lemma guarded_ext name f g w :
  (forall w, f w = g w) -> guarded name f w = guarded name g w.
Proof. intros H. rewrite !guarded_ok, H. reflexivity. Qed.

(** The head of the list of patches, in both runs, and then the rest. *)
Lemma run_patches_cons_agree ts name fd fa p missing rw ch psd psa
    done final w wa :
  (forall w, fd w = patch_file_sem (mkPatcher true ts) p missing rw ch w) ->
  (forall w, fa w = patch_file_sem (mkPatcher false ts) p missing rw ch w) ->
  outside_backups p -> p ∉ done ->
  agree_but done (w_fs w) (w_fs wa) ->
  (forall wa', agree_but (p :: done) (w_fs w) (w_fs wa') ->
     exists rsd rsa wa'',
       run_patches psd w = (Ok rsd, w) /\
       run_patches psa wa' = (Ok rsa, wa'') /\
       map summary rsd = map summary rsa /\
       agree_but final (w_fs w) (w_fs wa'')) ->
  exists rsd rsa wa'',
    run_patches ((name, fd) :: psd) w = (Ok rsd, w) /\
    run_patches ((name, fa) :: psa) wa = (Ok rsa, wa'') /\
    map summary rsd = map summary rsa /\
    agree_but final (w_fs w) (w_fs wa'').
Proof.
  intros Hfd Hfa Hout Hp Hag Hrest.
  destruct (patch_file_sem_agree ts done p missing rw ch name w wa Hout Hp Hag)
    as (rd & ra & wa' & Hd & Ha & Hs & Hag').
  destruct (Hrest wa' Hag') as (rsd & rsa & wa'' & Hrd & Hra & Hrs & Hfin).
  exists (rd :: rsd), (ra :: rsa), wa''.
  cbn [run_patches]. unfold mbind, io_bind.
  rewrite (guarded_ext name fd _ w Hfd), Hd, Hrd.
  rewrite (guarded_ext name fa _ wa Hfa), Ha, Hra.
  split; [reflexivity|]. split; [reflexivity|].
  split; [cbn [map]; rewrite Hs, Hrs; reflexivity | exact Hfin].
Qed.

Lemma patch_tscn_files_agree ts ys w :
  forall done wa,
    NoDup ys ->
    Forall (fun p => outside_backups p /\ p ∉ done) ys ->
    agree_but done (w_fs w) (w_fs wa) ->
    exists rsd rsa wa',
      patch_tscn_files (mkPatcher true ts) ys w = (Ok rsd, w) /\
      patch_tscn_files (mkPatcher false ts) ys wa = (Ok rsa, wa') /\
      map summary rsd = map summary rsa.
Proof.
  induction ys as [|p ys IH]; intros done wa Hnd Hall Hag.
  - exists [], [], wa. repeat split.
  - apply NoDup_cons in Hnd as [Hpys Hnd].
    apply Forall_cons in Hall as [[Hout Hp] Hall].
    destruct (patch_tscn_file_agree ts done p w wa Hout Hp Hag)
      as (od & oa & wa' & Hd & Ha & Hs & Hag').
    destruct (IH (p :: done) wa' Hnd) as (rsd & rsa & wa'' & Hrd & Hra & Hrs).
    { apply Forall_forall. intros q Hq.
      rewrite Forall_forall in Hall. destruct (Hall q Hq) as [Hqo Hqd].
      split; [exact Hqo|]. apply not_elem_of_cons. split; [|exact Hqd].
      intros ->. contradiction. }
    { exact Hag'. }
    cbn [patch_tscn_files]. unfold mbind, io_bind.
    rewrite Hd, Hrd, Ha, Hra. cbn [mret io_ret].
    destruct od as [rd|], oa as [ra|]; try discriminate.
    + cbn [option_map] in Hs. apply (inj Some) in Hs. eexists _, _, _.
      split; [reflexivity|]. split; [reflexivity|].
      cbn [map]. rewrite Hs, Hrs. reflexivity.
    + eexists _, _, _. split; [reflexivity|]. split; [reflexivity | exact Hrs].
Qed.

Lemma all_success_summary rs rs' :
  map summary rs = map summary rs' -> all_success rs = all_success rs'.
Proof.
  revert rs'. induction rs as [|r rs IH]; intros [|r' rs'] H; try discriminate.
  - reflexivity.
  - cbn [map] in H. apply (inj2 cons) in H as [Hr Hrs].
    simpl. rewrite (IH _ Hrs).
    unfold summary in Hr. injection Hr as _ -> _ _. reflexivity.
Qed.

(** A dry run and an apply run from the same tree report the same files,
    successes, changes and errors, provided [rglob] hands both the same
    scenes, each once, all of them in the project proper (none in
    [backups]). *)
Lemma dry_apply_same_changes ts ys w :
  NoDup ys ->
  Forall (fun p => outside_backups p /\ p ∉ fixed_targets) ys ->
  exists repd repa wa,
    run (mkPatcher true ts) ys w = (Ok repd, w) /\
    run (mkPatcher false ts) ys w = (Ok repa, wa) /\
    map summary (results repd) = map summary (results repa) /\
    run_ok repd = run_ok repa.
Proof.
  intros Hnd Hall.
  destruct (validate_project (w_fs w)) eqn:Hv.
  2:{ eexists _, _, w. rewrite !run_invalid by exact Hv. repeat split. }
  assert (Hfixed : exists rsd rsa wa',
             run_patches (patches (mkPatcher true ts)) w = (Ok rsd, w) /\
             run_patches (patches (mkPatcher false ts)) w = (Ok rsa, wa') /\
             map summary rsd = map summary rsa /\
             agree_but (reverse fixed_targets) (w_fs w) (w_fs wa')).
  { unfold patches.
    eapply run_patches_cons_agree;
      [apply patch_export_presets_closed | apply patch_export_presets_closed
      | split; discriminate | apply not_elem_of_nil | apply agree_but_refl |].
    intros wa1 H1.
    eapply run_patches_cons_agree;
      [apply patch_global_gd_closed | apply patch_global_gd_closed
      | split; discriminate | | exact H1 |].
    { intros H. repeat (apply elem_of_cons in H as [H|H]; [discriminate|]).
      inversion H. }
    intros wa2 H2.
    eapply run_patches_cons_agree;
      [apply patch_settings_manager_closed | apply patch_settings_manager_closed
      | split; discriminate | | exact H2 |].
    { intros H. repeat (apply elem_of_cons in H as [H|H]; [discriminate|]).
      inversion H. }
    intros wa3 H3.
    eapply run_patches_cons_agree;
      [apply patch_mod_loader_path_closed | apply patch_mod_loader_path_closed
      | split; discriminate | | exact H3 |].
    { intros H. repeat (apply elem_of_cons in H as [H|H]; [discriminate|]).
      inversion H. }
    intros wa4 H4.
    eapply run_patches_cons_agree;
      [apply patch_save_manager_closed | apply patch_save_manager_closed
      | split; discriminate | | exact H4 |].
    { intros H. repeat (apply elem_of_cons in H as [H|H]; [discriminate|]).
      inversion H. }
    intros wa5 H5.
    eapply run_patches_cons_agree;
      [apply patch_resource_pack_loader_closed
      | apply patch_resource_pack_loader_closed
      | split; discriminate | | exact H5 |].
    { intros H. repeat (apply elem_of_cons in H as [H|H]; [discriminate|]).
      inversion H. }
    intros wa6 H6. exists [], [], wa6.
    split; [reflexivity|]. split; [reflexivity|].
    split; [reflexivity | exact H6]. }
  destruct Hfixed as (rsd & rsa & wa1 & Hd & Ha & Hs & Hag).
  destruct (patch_tscn_files_agree ts ys w (reverse fixed_targets) wa1 Hnd)
    as (tsd & tsa & wa2 & Htd & Hta & Hts); [|exact Hag|].
  { eapply Forall_impl; [exact Hall|]. intros p [Hout Hp].
    split; [exact Hout|]. rewrite elem_of_reverse. exact Hp. }
  eexists _, _, wa2.
  rewrite (run_unfold _ ys w rsd w tsd w Hv Hd Htd).
  rewrite (run_unfold _ ys w rsa wa1 tsa wa2 Hv Ha Hta).
  split; [reflexivity|]. split; [reflexivity|].
  cbn [results run_ok].
  assert (Hall' : map summary (rsd ++ tsd) = map summary (rsa ++ tsa))
    by (rewrite !map_app, Hs, Hts; reflexivity).
  split; [exact Hall' | apply all_success_summary, Hall'].
Qed.

(** C4, where the code departs from it.  In [scene_project] the dry run
    reports one change, on line 1 of [Scenes/x.tscn], and leaves the
    tree as it is.  The apply run backs the scene up under [backups/T]
    and rewrites it; the walk of [rglob] then reaches [backups/T], finds
    the copy, and the loop rewrites the copy too: the apply run reports
    a second change, for a file the dry run never saw, and the backup no
    longer holds the original text. *)
Theorem apply_patches_its_own_backup :
  tscn_walk 10 (mkPatcher true "T") (mkWorld scene_project [])
    = Some [["Scenes"; "x.tscn"]]%string
  /\ tscn_walk 10 (mkPatcher false "T") (mkWorld scene_project [])
    = Some [["Scenes"; "x.tscn"]; ["backups"; "T"; "Scenes"; "x.tscn"]]%string
  /\ option_map (fun x => reported_changes (fst x))
       (report_of 10 (mkPatcher true "T") (mkWorld scene_project []))
    = Some [(["Scenes"; "x.tscn"]%string, [1])]
  /\ option_map (fun x => reported_changes (fst x))
       (report_of 10 (mkPatcher false "T") (mkWorld scene_project []))
    = Some [(["Scenes"; "x.tscn"]%string, [1]);
            (["backups"; "T"; "Scenes"; "x.tscn"]%string, [1])]
  /\ option_map (fun x => w_fs (snd x))
       (report_of 10 (mkPatcher true "T") (mkWorld scene_project []))
    = Some scene_project
  /\ option_map (fun x => w_fs (snd x) !! ["backups"; "T"; "Scenes"; "x.tscn"]%string)
       (report_of 10 (mkPatcher false "T") (mkWorld scene_project []))
    = Some (Some (Utf8 (txt "path = " ++ base_lit "/saves/")))
  /\ scene_project !! ["Scenes"; "x.tscn"]%string = Some (Utf8 scene_text).
Proof. repeat split; vm_compute; reflexivity. Qed.

(** ** Lines *)

Lemma split_nl_nonempty t : split_nl t <> [].
Proof.
  destruct t as [|c t]; simpl; [discriminate|].
  destruct (c =? nl)%N; [discriminate|].
  destruct (split_nl t); discriminate.
Qed.

Lemma split_nl_cons c t :
  split_nl (c :: t) =
  if (c =? nl)%N then [] :: split_nl t
  else match split_nl t with
       | l :: ls => (c :: l) :: ls
       | [] => [[c]]
       end.
Proof. reflexivity. Qed.

Lemma join_split_nl t : join_nl (split_nl t) = t.
Proof.
  induction t as [|c t IH]; [reflexivity|].
  rewrite split_nl_cons.
  destruct (c =? nl)%N eqn:Hc.
  - apply N.eqb_eq in Hc. subst c.
    pose proof (split_nl_nonempty t) as Hne.
    destruct (split_nl t) as [|l ls]; [contradiction|].
    cbn [join_nl app]. cbn [join_nl] in IH. rewrite IH. reflexivity.
  - pose proof (split_nl_nonempty t) as Hne.
    destruct (split_nl t) as [|l ls]; [contradiction|].
    destruct ls as [|l' ls]; cbn [join_nl] in *.
    + rewrite IH. reflexivity.
    + rewrite <- IH. reflexivity.
Qed.

Lemma split_nl_length t : length (split_nl t) = S (count_nl t).
Proof.
  induction t as [|c t IH]; [reflexivity|].
  rewrite split_nl_cons. cbn [count_nl].
  destruct (c =? nl)%N; simpl; [rewrite IH; reflexivity|].
  pose proof (split_nl_nonempty t) as Hne.
  destruct (split_nl t) as [|l ls]; [contradiction|]. exact IH.
Qed.

Lemma split_nl_no_nl t : Forall (fun l => count_nl l = 0) (split_nl t).
Proof.
  induction t as [|c t IH]; [repeat constructor|].
  rewrite split_nl_cons.
  destruct (c =? nl)%N eqn:Hc; [constructor; [reflexivity | exact IH]|].
  destruct (split_nl t) as [|l ls]; [repeat constructor; simpl; rewrite Hc; reflexivity|].
  apply Forall_cons in IH as [Hl Hls].
  constructor; [|exact Hls]. simpl. rewrite Hc. exact Hl.
Qed.

Lemma split_nl_one l : count_nl l = 0 -> split_nl l = [l].
Proof.
  induction l as [|c l IH]; [reflexivity|].
  cbn [count_nl]. rewrite split_nl_cons.
  destruct (c =? nl)%N; [discriminate|]. simpl. intros H.
  rewrite (IH H). reflexivity.
Qed.

Lemma split_nl_app_nl l t :
  count_nl l = 0 -> split_nl (l ++ nl :: t) = l :: split_nl t.
Proof.
  induction l as [|c l IH]; [reflexivity|].
  cbn [count_nl]. rewrite <- app_comm_cons, split_nl_cons.
  destruct (c =? nl)%N; [discriminate|]. simpl. intros H.
  rewrite (IH H). reflexivity.
Qed.

Lemma split_join_nl ls :
  ls <> [] -> Forall (fun l => count_nl l = 0) ls -> split_nl (join_nl ls) = ls.
Proof.
  induction ls as [|l ls IH]; [contradiction|].
  intros _ Hall. apply Forall_cons in Hall as [Hl Hls].
  destruct ls as [|l' ls].
  - cbn [join_nl]. apply split_nl_one, Hl.
  - change (join_nl (l :: l' :: ls)) with (l ++ nl :: join_nl (l' :: ls)).
    rewrite (split_nl_app_nl _ _ Hl), IH; [reflexivity | discriminate | exact Hls].
Qed.

Lemma count_nl_app a b : count_nl (a ++ b) = count_nl a + count_nl b.
Proof. induction a as [|c a IH]; simpl; [reflexivity | rewrite IH; lia]. Qed.

Lemma count_nl_take pos t : count_nl (take pos t) <= count_nl t.
Proof.
  rewrite <- (take_drop pos t) at 2. rewrite count_nl_app. lia.
Qed.

Lemma line_of_bounds content pos :
  1 <= line_of content pos <= length (split_nl content).
Proof.
  unfold line_of. rewrite split_nl_length.
  pose proof (count_nl_take pos content). lia.
Qed.

(** The line that holds an offset, by recursion on the text. *)
Lemma line_start_from_ge t pos i last :
  last <= i -> last <= line_start_from t pos i last <= i + length t.
Proof.
  revert pos i last. induction t as [|c t IH]; intros pos i last Hle.
  - destruct pos; simpl; lia.
  - destruct pos as [|pos]; simpl; [lia|].
    destruct (c =? nl)%N.
    + specialize (IH pos (S i) (S i) ltac:(lia)). lia.
    + specialize (IH pos (S i) last ltac:(lia)). lia.
Qed.

Lemma find_nl_from_spec t i :
  exists l, find_nl_from t i = i + length l /\ count_nl l = 0 /\
            (t = l \/ exists t', t = l ++ nl :: t').
Proof.
  revert i. induction t as [|c t IH]; intros i.
  - exists []. simpl. split; [lia|]. split; [reflexivity | left; reflexivity].
  - simpl. destruct (c =? nl)%N eqn:Hc.
    + exists []. simpl. split; [lia|]. split; [reflexivity|]. right.
      apply N.eqb_eq in Hc. subst c. exists t. reflexivity.
    + destruct (IH (S i)) as (l & Hl & Hn & Ht). exists (c :: l).
      simpl. rewrite Hc. split; [lia|]. split; [exact Hn|].
      destruct Ht as [->|[t' ->]]; [left; reflexivity | right; exists t'; reflexivity].
Qed.

Lemma line_start_from_shift t pos i last :
  line_start_from t pos (S i) (S last) = S (line_start_from t pos i last).
Proof.
  revert pos i last. induction t as [|c t IH]; intros pos i last.
  - destruct pos; reflexivity.
  - destruct pos as [|pos]; simpl; [reflexivity|].
    destruct (c =? nl)%N; apply IH.
Qed.

Lemma line_start_from_zero t pos i :
  line_start_from t pos i 0 = 0 <-> count_nl (take pos t) = 0.
Proof.
  revert pos i. induction t as [|c t IH]; intros pos i.
  - destruct pos; simpl; tauto.
  - destruct pos as [|pos]; simpl; [tauto|].
    destruct (c =? nl)%N.
    + pose proof (line_start_from_ge t pos (S i) (S i) ltac:(lia)).
      split; intros; lia.
    + simpl. apply IH.
Qed.

Lemma line_start_from_bump t pos i :
  line_start_from t pos (S i) 0 =
  match line_start_from t pos i 0 with 0 => 0 | S r => S (S r) end.
Proof.
  revert pos i. induction t as [|c t IH]; intros pos i.
  - destruct pos; reflexivity.
  - destruct pos as [|pos]; simpl; [reflexivity|].
    destruct (c =? nl)%N; [|apply IH].
    rewrite line_start_from_shift.
    pose proof (line_start_from_ge t pos (S i) (S i) ltac:(lia)).
    destruct (line_start_from t pos (S i) (S i)); [lia | reflexivity].
Qed.

Lemma find_nl_from_shift t i : find_nl_from t (S i) = S (find_nl_from t i).
Proof.
  revert i. induction t as [|c t IH]; intros i; simpl; [reflexivity|].
  destruct (c =? nl)%N; [reflexivity | apply IH].
Qed.

Lemma line_end_cons c t pos : line_end (c :: t) (S pos) = S (line_end t pos).
Proof.
  unfold line_end. cbn [length drop].
  destruct (decide (pos <= length t)), (decide (S pos <= S (length t)));
    try lia. apply find_nl_from_shift.
Qed.

Lemma split_nl_first t :
  split_nl t !! 0 = Some (take (find_nl_from t 0) t).
Proof.
  induction t as [|c t IH]; [reflexivity|].
  rewrite split_nl_cons. cbn [find_nl_from].
  destruct (c =? nl)%N; [reflexivity|].
  rewrite find_nl_from_shift. cbn [take].
  destruct (split_nl t) as [|l ls]; [discriminate|].
  injection IH as ->. reflexivity.
Qed.

Lemma line_content_is_line content pos :
  split_nl content !! (line_of content pos - 1) = Some (line_content content pos).
Proof.
  revert pos. induction content as [|c t IH]; intros pos.
  { destruct pos; reflexivity. }
  destruct pos as [|pos].
  { unfold line_of, line_content, line_start, line_end, slice.
    rewrite decide_True by (simpl; lia).
    cbn [take count_nl line_start_from drop]. rewrite Nat.sub_0_r.
    apply split_nl_first. }
  specialize (IH pos).
  unfold line_content, line_start in *. rewrite line_end_cons.
  unfold line_of in *. cbn [take count_nl line_start_from].
  rewrite split_nl_cons.
  destruct (c =? nl)%N eqn:Hc.
  - rewrite line_start_from_shift. unfold slice in *. cbn [drop Nat.sub].
    replace (1 + count_nl (take pos t) + 1 - 1) with (S (count_nl (take pos t) + 1 - 1)) by lia.
    exact IH.
  - rewrite line_start_from_bump.
    pose proof (line_start_from_zero t pos 0) as Hz.
    pose proof (split_nl_nonempty t) as Hne.
    destruct (split_nl t) as [|l ls]; [contradiction|].
    destruct (line_start_from t pos 0 0) as [|r] eqn:Hs.
    + rewrite (proj1 Hz eq_refl) in *. simpl in IH. simpl.
      injection IH as ->. unfold slice. simpl. rewrite !Nat.sub_0_r. reflexivity.
    + assert (count_nl (take pos t) <> 0) by (intros H; apply Hz in H; discriminate).
      replace (0 + count_nl (take pos t) + 1 - 1) with (S (count_nl (take pos t) - 1)) by lia.
      replace (count_nl (take pos t) + 1 - 1) with (S (count_nl (take pos t) - 1)) in IH by lia.
      simpl in IH. simpl. rewrite IH. unfold slice. reflexivity.
Qed.

(** ** Comment lines *)

Lemma lstrip_spec t :
  exists ws, t = ws ++ lstrip t /\ forallb is_space ws = true.
Proof.
  induction t as [|c t (ws & Ht & Hws)].
  - exists []. split; reflexivity.
  - simpl. destruct (is_space c) eqn:Hc.
    + exists (c :: ws). simpl. rewrite Hc, Hws. split; [congruence | reflexivity].
    + exists []. split; reflexivity.
Qed.

Lemma lstrip_spaces ws t : forallb is_space ws = true -> lstrip (ws ++ t) = lstrip t.
Proof.
  induction ws as [|c ws IH]; simpl; [reflexivity|].
  destruct (is_space c); [exact IH | discriminate].
Qed.

Lemma lstrip_keeps_last a c :
  is_space c = false -> exists pre, lstrip (a ++ [c]) = pre ++ [c].
Proof.
  intros Hc. induction a as [|x a IH]; simpl.
  - rewrite Hc. exists []. reflexivity.
  - destruct (is_space x); [exact IH|]. exists (x :: a). reflexivity.
Qed.

Lemma strip_head l : head (strip l) = head (lstrip l).
Proof.
  unfold strip, rstrip.
  destruct (lstrip_spec l) as (ws & _ & _).
  destruct (lstrip l) as [|c t] eqn:Hl; [reflexivity|].
  assert (Hc : is_space c = false).
  { clear ws. induction l as [|x l IH]; [discriminate|].
    simpl in Hl. destruct (is_space x) eqn:Hx; [exact (IH Hl)|].
    injection Hl as -> _. exact Hx. }
  simpl. destruct (lstrip_keeps_last (rev t) c Hc) as [pre ->].
  rewrite rev_app_distr. reflexivity.
Qed.

Lemma is_comment_line_head l :
  is_comment_line l = match head (lstrip l) with
                      | Some c => (hash =? c)%N
                      | None => false
                      end.
Proof.
  unfold is_comment_line. rewrite <- strip_head.
  destruct (strip l) as [|c t]; simpl; [reflexivity|].
  apply andb_true_r.
Qed.

(** X5: [is_comment_line] holds exactly of the lines whose first code
    point after the leading white space is [#]; what follows it, and
    white space at the end of the line, play no part. *)
Theorem comment_line_is_hash_after_blanks (line : text) :
  is_comment_line line = true <->
  exists ws rest, spaces ws /\ line = ws ++ hash :: rest.
Proof.
  rewrite is_comment_line_head. split.
  - destruct (lstrip_spec line) as (ws & Hl & Hws).
    destruct (lstrip line) as [|c rest]; cbn [head]; [discriminate|].
    intros Hc. apply N.eqb_eq in Hc. subst c. exists ws, rest. auto.
  - intros (ws & rest & Hws & ->). rewrite (lstrip_spaces _ _ Hws).
    vm_compute. reflexivity.
Qed.

(** X6: the line that [patch_save_manager] cuts out around an offset,
    between the newline before it and the newline after it, is the line
    of the text whose number it logs for that offset; the number lies
    between 1 and the number of lines. *)
Theorem logged_line_is_the_line_tested (content : text) (pos : nat) :
  split_nl content !! (line_of content pos - 1)
  = Some (line_content content pos)
  /\ 1 <= line_of content pos <= length (split_nl content).
Proof. split; [apply line_content_is_line | apply line_of_bounds]. Qed.

(** ** What a match looks like *)

Lemma star_k_sound {A : Type} c pos s g (k : @kont A) a :
  star_k c pos s g k = Some a ->
  exists w rest, s = w ++ rest /\ forallb (cset_mem c) w = true /\
                 k (pos + length w) rest g = Some a.
Proof.
  revert pos. induction s as [|x s IH]; intros pos; simpl.
  - intros H. exists [], []. rewrite Nat.add_0_r. auto.
  - destruct (cset_mem c x) eqn:Hx.
    + destruct (star_k c (S pos) s g k) as [r|] eqn:Hs.
      * intros [= ->]. destruct (IH _ Hs) as (w & rest & -> & Hw & Hk).
        exists (x :: w), rest. simpl. rewrite Hx, Hw.
        replace (pos + S (length w)) with (S pos + length w) by lia. auto.
      * intros H. exists [], (x :: s). rewrite Nat.add_0_r. auto.
    + intros H. exists [], (x :: s). rewrite Nat.add_0_r. auto.
Qed.

Lemma match_k_sound r {A : Type} pos s g (k : @kont A) a :
  match_k r pos s g k = Some a ->
  exists w rest g',
    s = w ++ rest /\ may_match r pos w rest g g' /\
    k (pos + length w) rest g' = Some a.
Proof.
  revert A pos s g k a.
  induction r as [|c|c|r1 IH1 r2 IH2|r1 IH1 r2 IH2|r IH|r IH| |];
    intros A pos s g k a; cbn [match_k may_match].
  - intros H. exists [], s, g. rewrite Nat.add_0_r. auto.
  - destruct s as [|x s]; [discriminate|].
    destruct (cset_mem c x) eqn:Hx; [|discriminate].
    intros H. exists [x], s, g. simpl.
    replace (pos + 1) with (S pos) by lia. eauto 6.
  - intros H. destruct (star_k_sound _ _ _ _ _ _ H) as (w & rest & -> & Hw & Hk).
    exists w, rest, g. auto.
  - intros H. apply IH1 in H as (w1 & rest1 & g1 & -> & H1 & H).
    apply IH2 in H as (w2 & rest & g' & -> & H2 & H).
    exists (w1 ++ w2), rest, g'. rewrite <- app_assoc, length_app.
    split; [reflexivity|]. split; [|rewrite Nat.add_assoc; exact H].
    exists w1, w2, g1. auto.
  - destruct (match_k r1 pos s g k) as [x|] eqn:H1.
    + intros [= ->]. apply IH1 in H1 as (w & rest & g' & -> & H1 & H).
      exists w, rest, g'. auto.
    + intros H2. apply IH2 in H2 as (w & rest & g' & -> & H2 & H).
      exists w, rest, g'. auto.
  - intros H. apply IH in H as (w & rest & g0 & -> & H1 & H).
    exists w, rest, (Some (pos, pos + length w)). eauto 6.
  - destruct (match_k r pos s g (fun _ _ _ => Some tt)); [discriminate|].
    intros H. exists [], s, g. rewrite Nat.add_0_r. auto.
  - destruct (decide (pos = 0)); [|discriminate].
    intros H. exists [], s, g. rewrite Nat.add_0_r. auto.
  - destruct s as [|c [|c' s]].
    + intros H. exists [], [], g. rewrite Nat.add_0_r.
      split; [reflexivity|]. split; [repeat split; auto | exact H].
    + destruct (c =? nl)%N eqn:Hc; [|discriminate].
      apply N.eqb_eq in Hc. subst c.
      intros H. exists [], [nl], g. rewrite Nat.add_0_r.
      split; [reflexivity|]. split; [repeat split; auto | exact H].
    + discriminate.
Qed.

Lemma match_here_sound r pos s m :
  match_here r pos s = Some m ->
  exists w rest,
    s = w ++ rest /\ may_match r pos w rest None (m_group m) /\
    m_start m = pos /\ m_end m = pos + length w.
Proof.
  unfold match_here. intros H.
  apply match_k_sound in H as (w & rest & g' & -> & Hm & [= <-]).
  exists w, rest. auto.
Qed.

Lemma search_from_sound r pos s m :
  search_from r pos s = Some m ->
  exists pre w rest,
    s = pre ++ w ++ rest /\ may_match r (m_start m) w rest None (m_group m) /\
    m_start m = pos + length pre /\ m_end m = m_start m + length w.
Proof.
  revert pos. induction s as [|c s IH]; intros pos; cbn [search_from].
  - destruct (match_here r pos []) as [m'|] eqn:Hm; [|discriminate].
    intros [= ->]. apply match_here_sound in Hm as (w & rest & Hs & Hw & Hst & He).
    exists [], w, rest. rewrite Hst, Nat.add_0_r. auto.
  - destruct (match_here r pos (c :: s)) as [m'|] eqn:Hm.
    + intros [= ->]. apply match_here_sound in Hm as (w & rest & Hs & Hw & Hst & He).
      exists [], w, rest. rewrite Hst, Nat.add_0_r. auto.
    + intros H. apply IH in H as (pre & w & rest & -> & Hw & Hst & He).
      exists (c :: pre), w, rest. simpl.
      replace (pos + S (length pre)) with (S pos + length pre) by lia. auto.
Qed.

Lemma re_search_sound r s m :
  re_search r s = Some m ->
  exists pre w rest,
    s = pre ++ w ++ rest /\ may_match r (length pre) w rest None (m_group m) /\
    m_start m = length pre /\ m_end m = length pre + length w.
Proof.
  intros H. apply search_from_sound in H as (pre & w & rest & -> & Hw & Hst & He).
  simpl in Hst. rewrite Hst in *. eauto 8.
Qed.

(** ** Literals *)

Lemma startswith_spec p t : startswith p t = true <-> exists t', t = p ++ t'.
Proof.
  revert t. induction p as [|a p IH]; intros t; simpl.
  - split; eauto.
  - destruct t as [|b t]; simpl.
    + split; [discriminate | intros [t' H]; discriminate].
    + rewrite andb_true_iff, N.eqb_eq, IH. split.
      * intros [-> [t' ->]]. eauto.
      * intros [t' [= -> ->]]. eauto.
Qed.

Lemma occurs_spec p t :
  occurs p t = true <-> exists pre post, t = pre ++ p ++ post.
Proof.
  induction t as [|c t IH]; simpl.
  - rewrite orb_false_r, startswith_spec. split.
    + intros [t' H]. exists [], t'. exact H.
    + intros (pre & post & H). destruct pre; [eauto|discriminate].
  - rewrite orb_true_iff, startswith_spec, IH. split.
    + intros [[t' H]|(pre & post & ->)].
      * exists [], t'. exact H.
      * exists (c :: pre), post. reflexivity.
    + intros ([|x pre] & post & H).
      * left. exists post. exact H.
      * right. injection H as -> ->. eauto.
Qed.

Lemma occurs_app_l p a b : occurs p a = true -> occurs p (a ++ b) = true.
Proof.
  rewrite !occurs_spec. intros (pre & post & ->).
  exists pre, (post ++ b). rewrite <- !app_assoc. reflexivity.
Qed.

Lemma occurs_app_r p a b : occurs p b = true -> occurs p (a ++ b) = true.
Proof.
  rewrite !occurs_spec. intros (pre & post & ->).
  exists (a ++ pre), post. rewrite <- !app_assoc. reflexivity.
Qed.

Lemma literal_match r pos w rest g g' :
  literal r = true -> may_match r pos w rest g g' -> w = lit_prefix r.
Proof.
  revert pos w rest g g'.
  induction r as [|c|c|r1 IH1 r2 IH2|r1 IH1 r2 IH2|r IH|r IH| |];
    intros pos w rest g g'; cbn [literal may_match lit_prefix]; try discriminate.
  - intros _ [-> _]. reflexivity.
  - destruct c as [c| | |]; try discriminate.
    intros _ [(x & -> & Hx) _]. simpl in Hx. apply N.eqb_eq in Hx. congruence.
  - intros H (w1 & w2 & g1 & -> & H1 & H2).
    apply andb_true_iff in H as [Ha Hb]. rewrite Ha.
    rewrite (IH1 _ _ _ _ _ Ha H1), (IH2 _ _ _ _ _ Hb H2). reflexivity.
Qed.

Lemma lit_prefix_match r pos w rest g g' :
  may_match r pos w rest g g' -> exists w', w = lit_prefix r ++ w'.
Proof.
  revert pos w rest g g'.
  induction r as [|c|c|r1 IH1 r2 IH2|r1 IH1 r2 IH2|r IH|r IH| |];
    intros pos w rest g g'; cbn [may_match lit_prefix]; eauto.
  - destruct c as [c| | |]; eauto.
    intros [(x & -> & Hx) _]. simpl in Hx. apply N.eqb_eq in Hx. subst x.
    exists []. reflexivity.
  - intros (w1 & w2 & g1 & -> & H1 & H2).
    destruct (literal r1) eqn:Hl.
    + rewrite (literal_match _ _ _ _ _ _ Hl H1).
      destruct (IH2 _ _ _ _ _ H2) as [w' ->].
      exists w'. rewrite <- app_assoc. reflexivity.
    + destruct (IH1 _ _ _ _ _ H1) as [w' ->].
      exists (w' ++ w2). rewrite <- app_assoc. reflexivity.
  - intros [[g0 H] _]. eauto.
Qed.

Lemma needs_match needle r pos w rest g g' :
  needs needle r = true -> may_match r pos w rest g g' -> occurs needle w = true.
Proof.
  revert pos w rest g g'.
  induction r as [|c|c|r1 IH1 r2 IH2|r1 IH1 r2 IH2|r IH|r IH| |];
    intros pos w rest g g' Hn Hm; cbn [needs] in Hn;
    apply orb_true_iff in Hn as [Hn|Hn]; try discriminate;
    try (destruct (lit_prefix_match _ _ _ _ _ _ Hm) as [w' ->];
         apply occurs_app_l; exact Hn).
  - cbn [may_match] in Hm. destruct Hm as (w1 & w2 & g1 & -> & H1 & H2).
    apply orb_true_iff in Hn as [Hn|Hn].
    + apply occurs_app_l. eauto.
    + apply occurs_app_r. eauto.
  - cbn [may_match] in Hm. apply andb_true_iff in Hn as [Ha Hb].
    destruct Hm; eauto.
  - cbn [may_match] in Hm. destruct Hm as [[g0 H] _]. eauto.
Qed.

(** A pattern that needs [needle] finds nothing in a text without it. *)
Lemma needs_not_found needle r s :
  needs needle r = true -> occurs needle s = false -> found r s = false.
Proof.
  intros Hn Ho. unfold found.
  destruct (re_search r s) as [m|] eqn:Hs; [|reflexivity].
  apply re_search_sound in Hs as (pre & w & rest & -> & Hm & _).
  rewrite occurs_app_r in Ho; [discriminate|].
  apply occurs_app_l. eapply needs_match; eauto.
Qed.

Lemma match_free_without needle pats s :
  forallb (needs needle) pats = true -> occurs needle s = false ->
  match_free pats s = true.
Proof.
  intros Hn Ho. unfold match_free. induction pats as [|r pats IH]; [reflexivity|].
  simpl in *. apply andb_true_iff in Hn as [Hr Hn].
  rewrite (needs_not_found _ _ _ Hr Ho). simpl. apply IH, Hn.
Qed.

(** ** Texts without a literal to rewrite *)

(** X4: a text in which a double quote followed by [user://] occurs
    nowhere is returned as it is, with no change logged, by the
    rewriting of [Global.gd], [SettingsManager.gd], the mod loader's
    [path.gd], [SaveManager.gd] and [ResourcePackLoader.gd]; it does not
    pass the gate of [patch_tscn_files], and [verify_patches] finds
    nothing in it. *)
Theorem rewrites_need_user_literal (content : text) :
  occurs user_open content = false ->
  global_gd_rewrite content = (content, [])
  /\ settings_manager_rewrite content = (content, [])
  /\ mod_loader_rewrite content = (content, [])
  /\ save_manager_rewrite content = (content, [])
  /\ resource_pack_rewrite content = (content, [])
  /\ found tscn_pattern content = false
  /\ found combined content = false.
Proof.
  intros Ho.
  split; [apply (fold_left_no_match (fun r => r.1.1));
          [apply search_step_no_match
          |apply (match_free_without user_open); [vm_compute; reflexivity | exact Ho]]|].
  split; [apply (fold_left_no_match (fun r => r.1.1));
          [apply search_step_no_match
          |apply (match_free_without user_open); [vm_compute; reflexivity | exact Ho]]|].
  split.
  { unfold mod_loader_rewrite.
    pose proof (needs_not_found user_open mod_loader_pattern content
                  ltac:(vm_compute; reflexivity) Ho) as H.
    unfold found in H. destruct (re_search mod_loader_pattern content);
      [discriminate | reflexivity]. }
  split; [apply (fold_left_no_match (fun r => r.1.1));
          [apply save_manager_step_no_match
          |apply (match_free_without user_open); [vm_compute; reflexivity | exact Ho]]|].
  split; [apply (fold_left_no_match (fun r => r.1.1));
          [apply resource_pack_step_no_match
          |apply (match_free_without user_open); [vm_compute; reflexivity | exact Ho]]|].
  split; apply (needs_not_found user_open); try exact Ho; vm_compute; reflexivity.
Qed.

Lemma rewrites_need_user_literal_witness :
  save_manager_rewrite (txt "var lives = 3") = (txt "var lives = 3", [])
  /\ found tscn_pattern (txt "var lives = 3") = false.
Proof.
  destruct (rewrites_need_user_literal (txt "var lives = 3"))
    as (_ & _ & _ & Hsave & _ & Hgate & _); [vm_compute; reflexivity|].
  split; [exact Hsave | exact Hgate].
Defined.

(** ** Matching a literal, and a run of a class *)

Lemma literal_lit t : literal (lit t) = true /\ lit_prefix (lit t) = t.
Proof.
  induction t as [|c t [IH1 IH2]]; [split; reflexivity|].
  destruct t as [|c' t]; [split; reflexivity|].
  change (lit (c :: c' :: t)) with (RSeq (RSet (CChr c)) (lit (c' :: t))).
  cbn [literal lit_prefix]. rewrite IH1, IH2. split; reflexivity.
Qed.

Lemma may_match_lit t pos w rest g g' :
  may_match (lit t) pos w rest g g' -> w = t /\ g' = g.
Proof.
  intros H. split.
  - rewrite <- (proj2 (literal_lit t)).
    exact (literal_match _ _ _ _ _ _ (proj1 (literal_lit t)) H).
  - revert pos w g H. induction t as [|c t IH]; intros pos w g H.
    + destruct H as [_ H]. exact H.
    + destruct t as [|c' t].
      * destruct H as [_ H]. exact H.
      * change (lit (c :: c' :: t)) with (RSeq (RSet (CChr c)) (lit (c' :: t))) in H.
        destruct H as (w1 & w2 & g1 & _ & [_ ->] & H2). eauto.
Qed.

Lemma match_k_lit t {A : Type} pos s g (k : @kont A) :
  match_k (lit t) pos (t ++ s) g k = k (pos + length t) s g.
Proof.
  revert pos. induction t as [|c t IH]; intros pos.
  - simpl. rewrite Nat.add_0_r. reflexivity.
  - destruct t as [|c' t].
    + simpl. rewrite N.eqb_refl. replace (pos + 1) with (S pos) by lia. reflexivity.
    + change (lit (c :: c' :: t)) with (RSeq (RSet (CChr c)) (lit (c' :: t))).
      cbn [match_k app cset_mem]. rewrite N.eqb_refl.
      change (c' :: t ++ s) with ((c' :: t) ++ s). rewrite IH.
      cbn [length]. replace (S pos + S (length t)) with (pos + S (S (length t))) by lia.
      reflexivity.
Qed.

Lemma star_k_greedy {A : Type} c pos ws s g (k : @kont A) a :
  forallb (cset_mem c) ws = true ->
  match s with x :: _ => cset_mem c x = false | [] => True end ->
  k (pos + length ws) s g = Some a ->
  star_k c pos (ws ++ s) g k = Some a.
Proof.
  revert pos. induction ws as [|y ws IH]; intros pos Hws Hs Hk.
  - simpl in *. rewrite Nat.add_0_r in Hk.
    destruct s as [|x s]; simpl; [exact Hk|]. rewrite Hs. exact Hk.
  - simpl in Hws. apply andb_true_iff in Hws as [Hy Hws].
    simpl. rewrite Hy. rewrite (IH (S pos) Hws Hs); [reflexivity|].
    simpl in Hk. replace (S pos + length ws) with (pos + S (length ws)) by lia.
    exact Hk.
Qed.

(** ** Permission lines *)

Lemma spaces_app a b : spaces (a ++ b) <-> spaces a /\ spaces b.
Proof. unfold spaces. rewrite forallb_app, andb_true_iff. reflexivity. Qed.

Lemma permission_shape K E F pos w rest g g' :
  may_match
    (seqs [RBol; RGroup (seqs [ws_star; lit K; ws_star; lit E; ws_star]);
           lit F; ws_star; REol]) pos w rest g g' ->
  exists ws1 ws2 ws3 ws4,
    spaces ws1 /\ spaces ws2 /\ spaces ws3 /\ spaces ws4 /\
    w = (ws1 ++ K ++ ws2 ++ E ++ ws3) ++ F ++ ws4 /\
    pos = 0 /\
    g' = Some (0, length (ws1 ++ K ++ ws2 ++ E ++ ws3)) /\
    (rest = [] \/ rest = [nl]).
Proof.
  cbn [seqs may_match ws_star].
  intros (w1 & w2 & g1 & -> & (-> & -> & ->) & w3 & w4 & g2 & -> &
          ((g0 & ws1 & x1 & h1 & -> & [Hws1 ->] & k & x2 & h2 & -> & HK &
            ws2 & x3 & h3 & -> & [Hws2 ->] & e & ws3 & h4 & -> & HE & [Hws3 ->])
           & ->) &
          f & x4 & h5 & -> & HF & ws4 & x5 & h6 & -> & [Hws4 ->] & -> & Hrest & ->).
  apply may_match_lit in HK as [-> ->], HE as [-> ->], HF as [-> ->].
  exists ws1, ws2, ws3, ws4. rewrite app_nil_r. simpl.
  repeat split; auto.
Qed.

Lemma is_space_nl : is_space nl = true.
Proof. reflexivity. Qed.

(** A match of a permission pattern: the line sets the key to [false],
    and group 1 is the line up to [false]. *)
Lemma permission_line_sound key line m :
  re_match (permission_line key) line = Some m ->
  exists lead, permission_false key lead line /\ group1 line m = lead.
Proof.
  intros H. apply match_here_sound in H as (w & rest & -> & Hm & _ & _).
  apply permission_shape in Hm
    as (ws1 & ws2 & ws3 & ws4 & H1 & H2 & H3 & H4 & -> & _ & Hg & Hrest).
  exists (ws1 ++ txt key ++ ws2 ++ txt "=" ++ ws3). split.
  - exists ws1, ws2, ws3, (ws4 ++ rest).
    split; [exact H1|]. split; [exact H2|]. split; [exact H3|].
    split; [apply spaces_app; split; [exact H4|];
            destruct Hrest as [->| ->]; reflexivity|].
    split; [reflexivity|]. rewrite <- !app_assoc. reflexivity.
  - unfold group1. rewrite Hg. unfold slice. rewrite Nat.sub_0_r, drop_0.
    rewrite <- !app_assoc.
    rewrite !app_assoc. rewrite <- !app_assoc.
    set (lead := ws1 ++ txt key ++ ws2 ++ txt "=" ++ ws3).
    replace (ws1 ++ txt key ++ ws2 ++ txt "=" ++ ws3 ++ txt "false" ++ ws4 ++ rest)
      with (lead ++ txt "false" ++ ws4 ++ rest)
      by (subst lead; rewrite <- !app_assoc; reflexivity).
    apply take_app_length.
Qed.

Lemma permission_line_complete key lead line :
  match txt key with c :: _ => is_space c = false | [] => False end ->
  permission_false key lead line ->
  exists m, re_match (permission_line key) line = Some m /\ group1 line m = lead.
Proof.
  intros Hkey (ws1 & ws2 & ws3 & ws4 & H1 & H2 & H3 & H4 & -> & ->).
  unfold re_match, match_here, permission_line, lits.
  rewrite <- !app_assoc. rewrite <- (app_nil_r ws4).
  set (K := txt key) in *. set (E := txt "="). set (F := txt "false").
  eexists. split.
  - cbn [seqs match_k ws_star]. destruct (decide (0 = 0)) as [_|]; [|contradiction].
    eapply star_k_greedy; [exact H1 | destruct K; [contradiction | exact Hkey] |].
    cbn [match_k]. rewrite match_k_lit.
    eapply star_k_greedy; [exact H2 | reflexivity |].
    cbn [match_k]. rewrite match_k_lit.
    eapply star_k_greedy; [exact H3 | reflexivity |].
    cbn [match_k]. rewrite match_k_lit.
    eapply star_k_greedy; [exact H4 | exact I |].
    cbn [match_k]. reflexivity.
  - unfold group1. cbn [m_group]. unfold slice. rewrite Nat.sub_0_r, drop_0.
    rewrite !app_assoc. rewrite <- !app_assoc.
    replace (ws1 ++ K ++ ws2 ++ E ++ ws3 ++ F ++ ws4 ++ [])
      with ((ws1 ++ K ++ ws2 ++ E ++ ws3) ++ F ++ ws4 ++ [])
      by (rewrite <- !app_assoc; reflexivity).
    apply take_app_length'. rewrite !length_app. lia.
Qed.

Lemma lstrip_not_space c t : is_space c = false -> lstrip (c :: t) = c :: t.
Proof. intros H. simpl. rewrite H. reflexivity. Qed.

Lemma permission_key_head key name :
  (key, name) ∈ permission_keys ->
  match txt key with c :: _ => is_space c = false | [] => False end.
Proof.
  unfold permission_keys. intros H.
  repeat (apply elem_of_cons in H as [H|H]);
    try (apply elem_of_nil in H; contradiction);
    injection H as -> ->; reflexivity.
Qed.

Lemma lstrip_key key name r :
  (key, name) ∈ permission_keys -> lstrip (txt key ++ r) = txt key ++ r.
Proof.
  intros H. apply permission_key_head in H.
  destruct (txt key) as [|c K]; [contradiction|].
  simpl. rewrite H. reflexivity.
Qed.

(** A line sets at most one of the three keys. *)
Lemma permission_key_unique k1 n1 k2 n2 l1 l2 line :
  (k1, n1) ∈ permission_keys -> (k2, n2) ∈ permission_keys ->
  permission_false k1 l1 line -> permission_false k2 l2 line ->
  k1 = k2 /\ n1 = n2.
Proof.
  intros Hk1 Hk2 (a1 & a2 & a3 & a4 & Ha1 & _ & _ & _ & -> & ->)
    (b1 & b2 & b3 & b4 & Hb1 & _ & _ & _ & -> & Heq).
  apply (f_equal lstrip) in Heq. rewrite <- !app_assoc in Heq.
  rewrite (lstrip_spaces a1), (lstrip_spaces b1) in Heq by assumption.
  rewrite (lstrip_key _ _ _ Hk1), (lstrip_key _ _ _ Hk2) in Heq.
  apply (f_equal (fun l => nth 12 l 0%N)) in Heq.
  unfold permission_keys in Hk1, Hk2.
  repeat (apply elem_of_cons in Hk1 as [Hk1|Hk1]);
    try (apply elem_of_nil in Hk1; contradiction);
    repeat (apply elem_of_cons in Hk2 as [Hk2|Hk2]);
    try (apply elem_of_nil in Hk2; contradiction);
    injection Hk1 as -> ->; injection Hk2 as -> ->;
    try (split; reflexivity);
    exfalso; vm_compute in Heq; discriminate.
Qed.

Lemma export_presets_patterns_keys :
  export_presets_patterns
  = map (fun kn => (permission_line kn.1, "true"%string, kn.2)) permission_keys.
Proof. reflexivity. Qed.

(** What the loop over the patterns does with a line, in terms of the
    keys. *)
Lemma export_presets_line_keys keys i line :
  (forall key name, (key, name) ∈ keys -> (key, name) ∈ permission_keys) ->
  (exists key name lead,
     (key, name) ∈ keys /\ permission_false key lead line /\
     export_presets_line
       (map (fun kn => (permission_line kn.1, "true"%string, kn.2)) keys) i line
     = (lead ++ txt "true", [Change_ i (name ++ " = true")]))
  \/ ((forall key name lead, (key, name) ∈ keys -> ~ permission_false key lead line) /\
      export_presets_line
        (map (fun kn => (permission_line kn.1, "true"%string, kn.2)) keys) i line
      = (line, [])).
Proof.
  induction keys as [|[key name] keys IH]; intros Hsub.
  - right. split; [|reflexivity]. intros key name lead H. inversion H.
  - cbn [map export_presets_line fst snd].
    destruct (re_match (permission_line key) line) as [m|] eqn:Hm.
    + left. apply permission_line_sound in Hm as (lead & Hpf & ->).
      exists key, name, lead. split; [left|]. split; [exact Hpf | reflexivity].
    + destruct IH as [(k & n & lead & Hin & Hpf & Heq)|[Hno Heq]].
      { intros k n Hin. apply Hsub. right. exact Hin. }
      * left. exists k, n, lead. split; [right; exact Hin|]. auto.
      * right. split; [|exact Heq].
        intros k n lead Hin Hpf. apply elem_of_cons in Hin as [[= -> ->]|Hin].
        -- destruct (permission_line_complete key lead line) as (m & Hm' & _);
             [eapply permission_key_head, Hsub; left | exact Hpf | congruence].
        -- exact (Hno k n lead Hin Hpf).
Qed.

Lemma export_presets_line_cases i line :
  (exists key name lead,
     (key, name) ∈ permission_keys /\ permission_false key lead line /\
     export_presets_line export_presets_patterns i line
     = (lead ++ txt "true", [Change_ i (name ++ " = true")]))
  \/ ((forall key name lead,
         (key, name) ∈ permission_keys -> ~ permission_false key lead line) /\
      export_presets_line export_presets_patterns i line = (line, [])).
Proof. rewrite export_presets_patterns_keys. apply export_presets_line_keys. auto. Qed.

(** The line written for a permission line is not a permission line. *)
Lemma permission_true_no_match key lead line key' lead' :
  permission_false key lead line ->
  ~ permission_false key' lead' (lead ++ txt "true").
Proof.
  intros _ (ws1 & ws2 & ws3 & ws4 & _ & _ & _ & H4 & _ & Heq).
  apply (f_equal (@rev _)) in Heq.
  rewrite !rev_app_distr in Heq.
  destruct (rev ws4) as [|c r] eqn:Hr.
  - apply (f_equal (fun l => nth 1 l 0%N)) in Heq.
    vm_compute in Heq. discriminate.
  - apply (f_equal head) in Heq. vm_compute in Heq. injection Heq as <-.
    assert (Hw : ws4 = rev r ++ [101%N])
      by (rewrite <- (rev_involutive ws4), Hr; reflexivity).
    rewrite Hw in H4. apply spaces_app in H4 as [_ H4].
    vm_compute in H4. discriminate.
Qed.

Lemma permission_true_differs key lead line :
  permission_false key lead line -> lead ++ txt "true" <> line.
Proof.
  intros (ws1 & ws2 & ws3 & ws4 & _ & _ & _ & _ & _ & ->) H.
  apply app_inv_head in H. discriminate.
Qed.

Lemma permission_true_no_nl key lead line :
  permission_false key lead line -> count_nl line = 0 ->
  count_nl (lead ++ txt "true") = 0.
Proof.
  intros (ws1 & ws2 & ws3 & ws4 & _ & _ & _ & _ & _ & ->).
  rewrite !count_nl_app.
  change (count_nl (txt "true")) with 0. change (count_nl (txt "false")) with 0. lia.
Qed.

(** What happens to one line: it is kept, or it is replaced by a line
    that differs, that no pattern matches, and one change is logged. *)
Lemma export_presets_line_summary i line :
  (export_presets_line export_presets_patterns i line = (line, []) /\
   forall j, export_presets_line export_presets_patterns j line = (line, []))
  \/ (exists name new_line,
        export_presets_line export_presets_patterns i line
        = (new_line, [Change_ i name]) /\
        new_line <> line /\
        (count_nl line = 0 -> count_nl new_line = 0) /\
        forall j, export_presets_line export_presets_patterns j new_line
                  = (new_line, [])).
Proof.
  destruct (export_presets_line_cases i line)
    as [(key & name & lead & Hin & Hpf & Heq)|[Hno Heq]].
  - right. exists (name ++ " = true")%string, (lead ++ txt "true").
    split; [exact Heq|].
    split; [exact (permission_true_differs _ _ _ Hpf)|].
    split; [exact (permission_true_no_nl _ _ _ Hpf)|].
    intros j.
    destruct (export_presets_line_cases j (lead ++ txt "true"))
      as [(k & n & l & _ & Hpf' & _)|[_ H]]; [|exact H].
    exfalso. exact (permission_true_no_match _ _ _ _ _ Hpf Hpf').
  - left. split; [exact Heq|]. intros j.
    destruct (export_presets_line_cases j line)
      as [(k & n & l & Hin & Hpf' & _)|[_ H]]; [|exact H].
    exfalso. exact (Hno _ _ _ Hin Hpf').
Qed.

Lemma export_presets_lines_cons i line rest :
  export_presets_lines i (line :: rest)
  = (fst (export_presets_line export_presets_patterns i line)
       :: fst (export_presets_lines (S i) rest),
     snd (export_presets_line export_presets_patterns i line)
       ++ snd (export_presets_lines (S i) rest)).
Proof.
  cbn [export_presets_lines].
  destruct (export_presets_line export_presets_patterns i line) as [l cs].
  destruct (export_presets_lines (S i) rest) as [ls cs']. reflexivity.
Qed.

Lemma export_presets_lines_length i lines :
  length (fst (export_presets_lines i lines)) = length lines.
Proof.
  revert i. induction lines as [|line rest IH]; intros i; [reflexivity|].
  rewrite export_presets_lines_cons. simpl. rewrite IH. reflexivity.
Qed.

Lemma export_presets_lines_no_nl i lines :
  Forall (fun l => count_nl l = 0) lines ->
  Forall (fun l => count_nl l = 0) (fst (export_presets_lines i lines)).
Proof.
  revert i. induction lines as [|line rest IH]; intros i H; [constructor|].
  apply Forall_cons in H as [Hl Hrest].
  rewrite export_presets_lines_cons. cbn [fst]. constructor; [|apply IH, Hrest].
  destruct (export_presets_line_summary i line)
    as [[-> _]|(name & new_line & -> & _ & Hnl & _)]; [exact Hl | exact (Hnl Hl)].
Qed.

Lemma export_presets_lines_unchanged i lines :
  snd (export_presets_lines i lines) = [] <->
  fst (export_presets_lines i lines) = lines.
Proof.
  revert i. induction lines as [|line rest IH]; intros i; [split; reflexivity|].
  rewrite export_presets_lines_cons. cbn [fst snd].
  destruct (export_presets_line_summary i line)
    as [[-> _]|(name & new_line & -> & Hne & _ & _)]; cbn [fst snd app].
  - rewrite IH. split; [intros ->; reflexivity | intros [= H]; exact H].
  - split; [discriminate | intros [= H _]; contradiction].
Qed.

Lemma export_presets_lines_again i j lines :
  export_presets_lines j (fst (export_presets_lines i lines))
  = (fst (export_presets_lines i lines), []).
Proof.
  revert i j. induction lines as [|line rest IH]; intros i j; [reflexivity|].
  rewrite export_presets_lines_cons. cbn [fst].
  rewrite export_presets_lines_cons, IH. cbn [fst snd].
  destruct (export_presets_line_summary i line)
    as [[-> H]|(name & new_line & -> & _ & _ & H)]; cbn [fst];
    rewrite H; reflexivity.
Qed.

(** The lines logged are the lines that change, and they are logged in
    increasing order. *)
Lemma export_presets_lines_logged i lines n :
  n ∈ map line_number (snd (export_presets_lines i lines)) <->
  exists j, n = i + j /\ j < length lines /\
            fst (export_presets_lines i lines) !! j <> lines !! j.
Proof.
  revert i. induction lines as [|line rest IH]; intros i.
  - simpl. split; [intros H; inversion H | intros (j & _ & H & _); lia].
  - rewrite export_presets_lines_cons. cbn [fst snd].
    rewrite map_app, elem_of_app, IH.
    destruct (export_presets_line_summary i line)
      as [[-> _]|(name & new_line & -> & Hne & _ & _)]; cbn [fst snd map].
    + split.
      * intros [H|(j & -> & Hj & Hd)]; [inversion H|].
        exists (S j). simpl. split; [lia|]. split; [lia | exact Hd].
      * intros ([|j] & -> & Hj & Hd); [contradiction|].
        right. exists j. simpl in *. split; [lia|]. split; [lia | exact Hd].
    + split.
      * intros [H|(j & -> & Hj & Hd)].
        -- apply list_elem_of_singleton in H. subst n. exists 0. simpl.
           split; [lia|]. split; [lia | congruence].
        -- exists (S j). simpl. split; [lia|]. split; [lia | exact Hd].
      * intros ([|j] & -> & Hj & Hd).
        -- left. rewrite Nat.add_0_r. left.
        -- right. exists j. simpl in *. split; [lia|]. split; [lia | exact Hd].
Qed.

Lemma export_presets_lines_sorted i lines :
  StronglySorted lt (map line_number (snd (export_presets_lines i lines))).
Proof.
  revert i. induction lines as [|line rest IH]; intros i; [constructor|].
  rewrite export_presets_lines_cons. cbn [snd].
  destruct (export_presets_line_summary i line)
    as [[-> _]|(name & new_line & -> & _ & _ & _)]; cbn [snd app map];
    [apply IH|].
  constructor; [apply IH|].
  apply Forall_forall. intros n Hn.
  apply export_presets_lines_logged in Hn as (j & -> & _). simpl. lia.
Qed.

Lemma export_presets_rewrite_eq content :
  export_presets_rewrite content
  = (join_nl (fst (export_presets_lines 1 (split_nl content))),
     snd (export_presets_lines 1 (split_nl content))).
Proof.
  unfold export_presets_rewrite.
  destruct (export_presets_lines 1 (split_nl content)); reflexivity.
Qed.

Lemma export_presets_split content :
  split_nl (fst (export_presets_rewrite content))
  = fst (export_presets_lines 1 (split_nl content)).
Proof.
  rewrite export_presets_rewrite_eq. cbn [fst]. apply split_join_nl.
  - intros H. apply (f_equal length) in H.
    rewrite export_presets_lines_length, split_nl_length in H. discriminate.
  - apply export_presets_lines_no_nl, split_nl_no_nl.
Qed.

Lemma permission_lead_unique key name lead lead' line :
  (key, name) ∈ permission_keys ->
  permission_false key lead line -> permission_false key lead' line ->
  lead = lead'.
Proof.
  intros Hin H1 H2.
  destruct (permission_line_complete key lead line) as (m & Hm & <-);
    [eapply permission_key_head, Hin | exact H1 |].
  destruct (permission_line_complete key lead' line) as (m' & Hm' & <-);
    [eapply permission_key_head, Hin | exact H2 |].
  congruence.
Qed.

(** X1: a line that sets one of the three permissions to [false] is
    replaced by the same line up to [false], followed by [true]: the
    indentation and the spacing around the equals sign are kept, the
    white space after [false] is dropped, and one change is logged under
    the name of the key.  Every other line is kept as it is and logs
    nothing. *)
Theorem permission_lines_set_to_true (i : nat) (line : text) :
  (forall key name lead,
     (key, name) ∈ permission_keys -> permission_false key lead line ->
     export_presets_line export_presets_patterns i line
     = (lead ++ txt "true", [Change_ i (name ++ " = true")]))
  /\ ((forall key name lead,
         (key, name) ∈ permission_keys -> ~ permission_false key lead line) ->
      export_presets_line export_presets_patterns i line = (line, [])).
Proof.
  split.
  - intros key name lead Hin Hpf.
    destruct (export_presets_line_cases i line)
      as [(k & n & l & Hin' & Hpf' & Heq)|[Hno _]].
    + destruct (permission_key_unique _ _ _ _ _ _ _ Hin Hin' Hpf Hpf') as [<- <-].
      rewrite (permission_lead_unique _ _ _ _ _ Hin Hpf Hpf'). exact Heq.
    + exfalso. exact (Hno _ _ _ Hin Hpf).
  - intros Hno.
    destruct (export_presets_line_cases i line)
      as [(k & n & l & Hin' & Hpf' & Heq)|[_ Heq]]; [|exact Heq].
    exfalso. exact (Hno _ _ _ Hin' Hpf').
Qed.

(** An indented line with spaces around the equals sign and a trailing
    blank. *)
Lemma permission_lines_set_to_true_witness :
  export_presets_line export_presets_patterns 7
    (txt "  permissions/read_external_storage = false ")
  = (txt "  permissions/read_external_storage = true",
     [Change_ 7 "read_external_storage = true"]).
Proof.
  apply (proj1 (permission_lines_set_to_true 7
                  (txt "  permissions/read_external_storage = false "))
           "permissions/read_external_storage"%string
           "read_external_storage"%string
           (txt "  permissions/read_external_storage = ")).
  - right. left.
  - exists (txt "  "), (txt " "), (txt " "), (txt " ").
    repeat split; reflexivity.
Defined.

(** X2: rewriting the text of [export_presets.cfg] a second time changes
    nothing and logs nothing. *)
Theorem export_presets_rewrite_idempotent (content : text) :
  export_presets_rewrite (fst (export_presets_rewrite content))
  = (fst (export_presets_rewrite content), []).
Proof.
  rewrite (export_presets_rewrite_eq (fst (export_presets_rewrite content))).
  rewrite export_presets_split, export_presets_lines_again.
  rewrite (export_presets_rewrite_eq content). reflexivity.
Qed.

(** X3: [patch_export_presets] keeps the number of lines; the changes it
    logs are in increasing line order, and the lines logged are exactly
    the lines of the new text that differ from the old ones.  So the
    text changes exactly when a change is logged, which is when the file
    is written. *)
Theorem export_presets_logs_changed_lines (content : text) :
  let new_content := fst (export_presets_rewrite content) in
  let changes := snd (export_presets_rewrite content) in
  length (split_nl new_content) = length (split_nl content)
  /\ StronglySorted lt (map line_number changes)
  /\ (forall n, n ∈ map line_number changes <->
                exists j, n = S j /\ j < length (split_nl content) /\
                          split_nl new_content !! j <> split_nl content !! j)
  /\ (changes = [] <-> new_content = content).
Proof.
  cbv zeta. rewrite export_presets_split. rewrite export_presets_rewrite_eq.
  cbn [fst snd].
  split; [apply export_presets_lines_length|].
  split; [apply export_presets_lines_sorted|].
  split; [intros n; apply export_presets_lines_logged|].
  rewrite export_presets_lines_unchanged. split.
  - intros ->. apply join_split_nl.
  - intros H. apply (f_equal split_nl) in H.
    rewrite split_join_nl in H; [exact H| |].
    + intros H0. apply (f_equal length) in H0.
      rewrite export_presets_lines_length, split_nl_length in H0. discriminate.
    + apply export_presets_lines_no_nl, split_nl_no_nl.
Qed.

(** ** What a run leaves alone *)

Lemma not_below_ne d r k : strip_prefix d k = None -> d ++ r <> k.
Proof. intros H <-. rewrite strip_prefix_app in H. discriminate. Qed.

Lemma world_step_frame self p w w' tr :
  world_step self p w w' tr ->
  (forall k, is_Some (w_fs w !! k) -> is_Some (w_fs w' !! k)) /\
  (forall k, strip_prefix (backup_dir self) k = None ->
     (is_Some (w_fs w' !! k) <-> is_Some (w_fs w !! k)) /\
     (k <> p -> w_fs w' !! k = w_fs w !! k)).
Proof.
  intros H. destruct H as [|f Hdry Hp|f t Hdry Hp]; cbn [w_fs backed written].
  - split; [auto|]. intros k _. split; [reflexivity | reflexivity].
  - split.
    + intros k Hk. apply lookup_insert_is_Some'. right. exact Hk.
    + intros k Hk. rewrite lookup_insert_ne by (apply not_below_ne, Hk).
      split; reflexivity.
  - split.
    + intros k Hk. apply lookup_insert_is_Some'. right.
      apply lookup_insert_is_Some'. right. exact Hk.
    + intros k Hk. split.
      * destruct (decide (p = k)) as [->|Hne].
        -- rewrite lookup_insert_eq. split; [intros _; eauto | eauto].
        -- rewrite lookup_insert_ne by exact Hne.
           rewrite lookup_insert_ne by (apply not_below_ne, Hk). reflexivity.
      * intros Hne. rewrite lookup_insert_ne by congruence.
        apply lookup_insert_ne. apply not_below_ne, Hk.
Qed.

(** The same for the whole of [run]. *)
Lemma run_frame self ys w :
  (forall k, is_Some (w_fs w !! k) -> is_Some (w_fs (snd (run self ys w)) !! k)) /\
  (forall k, strip_prefix (backup_dir self) k = None ->
     (is_Some (w_fs (snd (run self ys w)) !! k) <-> is_Some (w_fs w !! k)) /\
     (k ∉ fixed_targets -> k ∉ ys -> w_fs (snd (run self ys w)) !! k = w_fs w !! k)).
Proof.
  set (I := fun w0 : world =>
    (forall k, is_Some (w_fs w !! k) -> is_Some (w_fs w0 !! k)) /\
    (forall k, strip_prefix (backup_dir self) k = None ->
       (is_Some (w_fs w0 !! k) <-> is_Some (w_fs w !! k)) /\
       (k ∉ fixed_targets -> k ∉ ys -> w_fs w0 !! k = w_fs w !! k))).
  assert (I0 : I w).
  { split; [auto|]. intros k _. split; [reflexivity | reflexivity]. }
  assert (Istep : forall p w0 w0' tr,
             (p ∈ fixed_targets \/ p ∈ ys) ->
             world_step self p w0 w0' tr -> I w0 -> I w0').
  { intros p w0 w0' tr Hp Hstep [Hk1 Hk2].
    destruct (world_step_frame _ _ _ _ _ Hstep) as [Hs1 Hs2]. split.
    - intros k Hk. apply Hs1, Hk1, Hk.
    - intros k Hk. destruct (Hk2 k Hk) as [Hd He].
      destruct (Hs2 k Hk) as [Hd' He']. split.
      + rewrite Hd'. exact Hd.
      + intros Hf Hy. rewrite He'; [apply He; assumption|].
        intros ->. destruct Hp; contradiction. }
  change (I (snd (run self ys w))).
  destruct (run_cases self ys w)
    as [[_ ->]|[Hv (fixed & w1 & tscn & w2 & H1 & H2 & ->)]]; [exact I0|].
  cbn [snd].
  destruct (run_patches_inv I (fun _ _ => True) (patches self) w I0)
    as (fixed' & w1' & H1' & Hw1 & _).
  { intros name f w0 Hin Hw0. split; [|destruct (fst (f w0)); exact Logic.I].
    destruct (patches_closed self name f Hin)
      as (p & missing & rw & ch & Hf & Hp & _).
    rewrite Hf.
    destruct (patch_file_sem_step self p missing rw ch w0) as [tr Hstep].
    exact (Istep _ _ _ _ (or_introl Hp) Hstep Hw0). }
  rewrite H1 in H1'. injection H1' as _ <-.
  destruct (patch_tscn_files_inv I (fun _ => True) self ys w1 Hw1)
    as (tscn' & w2' & H2' & Hw2 & _).
  { intros p w0 Hp Hw0. split.
    - destruct (patch_tscn_file_sem_step self p w0) as [tr Hstep].
      exact (Istep _ _ _ _ (or_intror Hp) Hstep Hw0).
    - pose proof (patch_tscn_file_sem_ok self p w0) as H.
      destruct (fst (patch_tscn_file_sem self p w0)) as [[r|]|e]; auto. }
  rewrite H2 in H2'. injection H2' as _ <-. exact Hw2.
Qed.

Lemma save_log_frame self lines now w :
  (forall k, is_Some (w_fs w !! k) ->
             is_Some (w_fs (snd (save_log self lines now w)) !! k)) /\
  (forall k, k <> log_path self ->
             w_fs (snd (save_log self lines now w)) !! k = w_fs w !! k).
Proof.
  unfold save_log, open_write, write_text.
  destruct (is_dir (w_fs w) (log_path self)); cbn [snd w_fs].
  - split; auto.
  - split.
    + intros k Hk. apply lookup_insert_is_Some'. right. exact Hk.
    + intros k Hk. apply lookup_insert_ne. congruence.
Qed.

Lemma run_and_save_log_world self ys lines now w :
  snd (run_and_save_log self ys lines now w)
  = if validate_project (w_fs w)
    then snd (save_log self lines now (snd (run self ys w)))
    else w.
Proof.
  unfold run_and_save_log.
  destruct (validate_project (w_fs w)) eqn:Hv; [|reflexivity]. cbn [negb].
  unfold mbind, io_bind.
  destruct (run_cases self ys w)
    as [[Hv' _]|[_ (fixed & w1 & tscn & w2 & _ & _ & ->)]]; [congruence|].
  cbn [snd].
  destruct (save_log self lines now w2) as [[[]|e] w3]; reflexivity.
Qed.

Lemma log_path_not_below self : strip_prefix (backup_dir self) (log_path self) = None.
Proof.
  unfold backup_dir, log_path. cbn [strip_prefix].
  destruct (String.eqb BACKUP_DIR _) eqn:H; [|reflexivity].
  apply String.eqb_eq in H. exfalso.
  apply (f_equal (fun s => String.get 0 s)) in H. discriminate.
Qed.

Lemma log_path_app_not_below self r :
  strip_prefix (backup_dir self) (log_path self ++ r) = None.
Proof.
  unfold backup_dir, log_path. cbn [app strip_prefix].
  destruct (String.eqb BACKUP_DIR _) eqn:H; [|reflexivity].
  apply String.eqb_eq in H. exfalso.
  apply (f_equal (fun s => String.get 0 s)) in H. discriminate.
Qed.

(** A run neither makes nor removes a directory that stands where its
    log goes. *)
Lemma is_dir_run_log self ys w :
  is_dir (w_fs (snd (run self ys w))) (log_path self)
  = is_dir (w_fs w) (log_path self).
Proof.
  destruct (run_frame self ys w) as [_ H].
  apply eq_true_iff_eq. rewrite !is_dir_spec.
  assert (Hnone : w_fs (snd (run self ys w)) !! log_path self = None
                  <-> w_fs w !! log_path self = None).
  { rewrite !eq_None_not_Some.
    rewrite (proj1 (H _ (log_path_not_below self))). reflexivity. }
  rewrite Hnone.
  split; intros [H0 (n & r & Hs)]; (split; [exact H0|]); exists n, r;
    apply (proj1 (H _ (log_path_app_not_below self (n :: r)))); exact Hs.
Qed.

(** The exit status of a patch run, from the tree it starts in. *)
Lemma main_patch_status dry ts ys lines now w rep w1 :
  run (mkPatcher dry ts) ys w = (Ok rep, w1) ->
  fst (main (Patch dry) ts ys lines now w)
  = if validate_project (w_fs w) && is_dir (w_fs w) (log_path (mkPatcher dry ts))
    then 1 else exit_status (run_ok rep).
Proof.
  intros Hrun. destruct (validate_project (w_fs w)) eqn:Hv; cbn [andb].
  - pose proof (proj2 (main_patch (mkPatcher dry ts) ys lines now w rep w1 Hv Hrun))
      as Hm.
    cbn [dry_run timestamp] in Hm. rewrite Hm.
    pose proof (is_dir_run_log (mkPatcher dry ts) ys w) as Hd.
    rewrite Hrun in Hd. cbn [snd] in Hd. rewrite Hd. reflexivity.
  - rewrite (run_invalid _ ys w Hv) in Hrun. injection Hrun as <- <-.
    unfold main, run_and_save_log. rewrite Hv. reflexivity.
Qed.

(** ** C1: the exit status *)



(** X7: whatever a run logs, and with or without [--dry-run], it
    deletes no file; outside its own backup directory it creates no
    file but its log, and the files whose content it changes are among
    the six fixed targets, the scene files that [rglob] yields, and the
    log.  A dry run changes the log and nothing else. *)
Theorem run_touches_only_its_targets (self : patcher) (ys : list path)
    (lines : list text) (now : text) (w : world) :
  let w' := snd (run_and_save_log self ys lines now w) in
  (forall k, is_Some (w_fs w !! k) -> is_Some (w_fs w' !! k))
  /\ (forall k, strip_prefix (backup_dir self) k = None -> k <> log_path self ->
        (is_Some (w_fs w' !! k) <-> is_Some (w_fs w !! k)) /\
        (k ∉ fixed_targets -> k ∉ ys -> w_fs w' !! k = w_fs w !! k))
  /\ (dry_run self = true ->
      forall k, k <> log_path self -> w_fs w' !! k = w_fs w !! k).
Proof.
  cbv zeta. rewrite run_and_save_log_world.
  destruct (validate_project (w_fs w)).
  2:{ split; [auto|]. split; [|reflexivity].
      intros k _ _. split; reflexivity. }
  destruct (run_frame self ys w) as [Hr1 Hr2].
  destruct (save_log_frame self lines now (snd (run self ys w))) as [Hl1 Hl2].
  split; [intros k Hk; apply Hl1, Hr1, Hk|].
  split.
  - intros k Hk Hlog. rewrite (Hl2 k Hlog). exact (Hr2 k Hk).
  - intros Hdry k Hlog. rewrite (Hl2 k Hlog).
    destruct self as [dry ts]. simpl in Hdry. subst dry.
    rewrite dry_run_leaves_world. reflexivity.
Qed.

(** ** Patching and rolling back *)

Lemma restorable_init bd fs :
  (forall r, fs !! (bd ++ r) = None) -> restorable bd fs [] fs.
Proof.
  intros H. split; [intros p Hp; inversion Hp|]. split; [auto|]. split.
  - intros r f Hr. rewrite H in Hr. discriminate.
  - intros p Hp. inversion Hp.
Qed.

Lemma restorable_step self fs done p w w' tr :
  world_step self p w w' tr ->
  strip_prefix (backup_dir self) p = None -> p ∉ done ->
  restorable (backup_dir self) fs done (w_fs w) ->
  restorable (backup_dir self) fs (p :: done) (w_fs w').
Proof.
  set (bd := backup_dir self).
  intros Hstep Hout Hp (Hdo & Ha & Hb & Hc).
  assert (Hpfs : w_fs w !! p = fs !! p) by (apply Ha; assumption).
  assert (Hne : forall r, bd ++ r <> p) by (intros r; apply not_below_ne, Hout).
  assert (Hned : forall r q, q ∈ done -> bd ++ r <> q)
    by (intros r q Hq; apply not_below_ne, Hdo, Hq).
  split.
  { intros q Hq. apply elem_of_cons in Hq as [->|Hq]; [exact Hout | auto]. }
  destruct Hstep as [|f Hdry Hf|f t Hdry Hf]; cbn [w_fs backed written]; fold bd.
  - split; [|split].
    + intros k Hk Hd. apply Ha; [exact Hk|]. intros Hin. apply Hd. right. exact Hin.
    + intros r f Hr. destruct (Hb r f Hr) as [Hin Hfs]. split; [right|]; assumption.
    + intros q Hq. apply elem_of_cons in Hq as [->|Hq]; [left; exact Hpfs | auto].
  - split; [|split].
    + intros k Hk Hd. rewrite lookup_insert_ne by (apply not_below_ne, Hk).
      apply Ha; [exact Hk|]. intros Hin. apply Hd. right. exact Hin.
    + intros r g Hr. destruct (decide (r = p)) as [->|Hrp].
      * rewrite lookup_insert_eq in Hr. injection Hr as <-.
        split; [left | congruence].
      * rewrite lookup_insert_ne in Hr by (intros H; apply app_inv_head in H; congruence).
        destruct (Hb r g Hr) as [Hin Hfs]. split; [right|]; assumption.
    + intros q Hq. apply elem_of_cons in Hq as [->|Hq].
      * left. rewrite lookup_insert_ne by apply Hne. exact Hpfs.
      * assert (Hqp : q <> p) by congruence.
        destruct (Hc q Hq) as [Hl|(g & Hg & Hbq)].
        -- left. rewrite lookup_insert_ne by (apply Hned, Hq). exact Hl.
        -- right. exists g. split; [exact Hg|].
           rewrite lookup_insert_ne
             by (intros H; apply app_inv_head in H; congruence).
           exact Hbq.
  - split; [|split].
    + intros k Hk Hd. apply not_elem_of_cons in Hd as [Hkp Hd].
      rewrite lookup_insert_ne by congruence.
      rewrite lookup_insert_ne by (apply not_below_ne, Hk).
      apply Ha; assumption.
    + intros r g Hr. rewrite lookup_insert_ne in Hr by (symmetry; apply Hne).
      destruct (decide (r = p)) as [->|Hrp].
      * rewrite lookup_insert_eq in Hr. injection Hr as <-.
        split; [left | congruence].
      * rewrite lookup_insert_ne in Hr by (intros H; apply app_inv_head in H; congruence).
        destruct (Hb r g Hr) as [Hin Hfs]. split; [right|]; assumption.
    + intros q Hq. apply elem_of_cons in Hq as [->|Hq].
      * right. exists f. split; [congruence|].
        rewrite lookup_insert_ne by (symmetry; apply Hne). apply lookup_insert_eq.
      * assert (Hqp : q <> p) by congruence.
        destruct (Hc q Hq) as [Hl|(g & Hg & Hbq)].
        -- left. rewrite lookup_insert_ne by congruence.
           rewrite lookup_insert_ne by (apply Hned, Hq). exact Hl.
        -- right. exists g. split; [exact Hg|].
           rewrite lookup_insert_ne by (symmetry; apply Hne).
           rewrite lookup_insert_ne
             by (intros H; apply app_inv_head in H; congruence).
           exact Hbq.
Qed.

Lemma restorable_equiv bd fs d1 d2 fs' :
  (forall x, x ∈ d1 <-> x ∈ d2) ->
  restorable bd fs d1 fs' -> restorable bd fs d2 fs'.
Proof.
  intros He (Hd0 & Ha & Hb & Hc). split; [|split; [|split]].
  - intros p Hp. apply Hd0. rewrite He. exact Hp.
  - intros k Hk Hd. apply Ha; [exact Hk|]. rewrite He. exact Hd.
  - intros r f Hr. destruct (Hb r f Hr) as [Hin Hfs]. rewrite <- He. auto.
  - intros p Hp. apply Hc. rewrite He. exact Hp.
Qed.

(** The invariant along a list of patches, each on a target of its own. *)
Lemma run_patches_restorable self fs ps tgts :
  Forall2 (fun (nf : string * io FileResult) p =>
             exists missing rw ch,
               forall w, nf.2 w = patch_file_sem self p missing rw ch w) ps tgts ->
  forall done w,
    NoDup tgts ->
    (forall p, p ∈ tgts -> strip_prefix (backup_dir self) p = None /\ p ∉ done) ->
    restorable (backup_dir self) fs done (w_fs w) ->
    restorable (backup_dir self) fs (tgts ++ done) (w_fs (snd (run_patches ps w))).
Proof.
  induction 1 as [|[name f] p ps tgts (missing & rw & ch & Hf) _ IH];
    intros done w Hnd Hall Hres.
  - exact Hres.
  - apply NoDup_cons in Hnd as [Hp Hnd].
    destruct (Hall p ltac:(left)) as [Hout Hpd].
    cbn [run_patches]. unfold mbind, io_bind. rewrite guarded_ok.
    cbn [snd] in Hf. rewrite Hf.
    destruct (patch_file_sem_step self p missing rw ch w) as [tr Hstep].
    pose proof (restorable_step _ _ _ _ _ _ _ Hstep Hout Hpd Hres) as Hres1.
    set (w1 := snd (patch_file_sem self p missing rw ch w)) in *.
    assert (Hrest : restorable (backup_dir self) fs (tgts ++ p :: done)
                      (w_fs (snd (run_patches ps w1)))).
    { apply IH; [exact Hnd | | exact Hres1].
      intros q Hq. destruct (Hall q ltac:(right; exact Hq)) as [Hqo Hqd].
      split; [exact Hqo|]. apply not_elem_of_cons. split; [|exact Hqd].
      intros ->. contradiction. }
    assert (Heq : forall x, x ∈ tgts ++ p :: done <-> x ∈ (p :: tgts) ++ done).
    { intros x. rewrite !elem_of_app, !elem_of_cons. tauto. }
    apply (restorable_equiv _ _ _ _ _ Heq).
    subst w1.
    destruct (patch_file_sem self p missing rw ch w) as [[r|e] w1]; cbn [snd] in *.
    + destruct (run_patches ps w1) as [[rs|e'] w2]; exact Hrest.
    + destruct (run_patches ps w1) as [[rs|e'] w2]; exact Hrest.
Qed.

Lemma patch_tscn_files_restorable self fs ys :
  forall done w,
    NoDup ys ->
    (forall p, p ∈ ys -> strip_prefix (backup_dir self) p = None /\ p ∉ done) ->
    restorable (backup_dir self) fs done (w_fs w) ->
    restorable (backup_dir self) fs (ys ++ done)
      (w_fs (snd (patch_tscn_files self ys w))).
Proof.
  induction ys as [|p ys IH]; intros done w Hnd Hall Hres.
  - exact Hres.
  - apply NoDup_cons in Hnd as [Hp Hnd].
    destruct (Hall p ltac:(left)) as [Hout Hpd].
    cbn [patch_tscn_files]. unfold mbind, io_bind.
    rewrite patch_tscn_file_closed.
    destruct (patch_tscn_file_sem_step self p w) as [tr Hstep].
    pose proof (restorable_step _ _ _ _ _ _ _ Hstep Hout Hpd Hres) as Hres1.
    set (w1 := snd (patch_tscn_file_sem self p w)) in *.
    assert (Hrest : restorable (backup_dir self) fs (ys ++ p :: done)
                      (w_fs (snd (patch_tscn_files self ys w1)))).
    { apply IH; [exact Hnd | | exact Hres1].
      intros q Hq. destruct (Hall q ltac:(right; exact Hq)) as [Hqo Hqd].
      split; [exact Hqo|]. apply not_elem_of_cons. split; [|exact Hqd].
      intros ->. contradiction. }
    assert (Heq : forall x, x ∈ ys ++ p :: done <-> x ∈ (p :: ys) ++ done).
    { intros x. rewrite !elem_of_app, !elem_of_cons. tauto. }
    apply (restorable_equiv _ _ _ _ _ Heq).
    subst w1. pose proof (patch_tscn_file_sem_ok self p w) as Hok.
    destruct (patch_tscn_file_sem self p w) as [[o|e] w1]; cbn [fst snd] in *;
      [|contradiction].
    destruct (patch_tscn_files self ys w1) as [[rs|e'] w2]; exact Hrest.
Qed.

Lemma outside_not_below ts p :
  outside_backups p -> strip_prefix [BACKUP_DIR; ts] p = None.
Proof.
  intros [Hnil Hhd]. destruct p as [|n r]; [contradiction|]. cbn [strip_prefix].
  destruct (String.eqb BACKUP_DIR n) eqn:H; [|reflexivity].
  apply String.eqb_eq in H. subst n. contradiction.
Qed.

Lemma head_not_below ts k :
  head k <> Some BACKUP_DIR -> strip_prefix [BACKUP_DIR; ts] k = None.
Proof.
  intros Hhd. destruct k as [|n r]; [reflexivity|]. cbn [strip_prefix].
  destruct (String.eqb BACKUP_DIR n) eqn:H; [|reflexivity].
  apply String.eqb_eq in H. subst n. contradiction.
Qed.

Lemma restorable_same bd fs done :
  (forall r, fs !! (bd ++ r) = None) ->
  (forall p, p ∈ done -> strip_prefix bd p = None) ->
  restorable bd fs done fs.
Proof.
  intros H Hd. split; [exact Hd|]. split; [auto|]. split.
  - intros r f Hr. rewrite H in Hr. discriminate.
  - intros p Hp. left. reflexivity.
Qed.

Lemma patches_targets self :
  Forall2 (fun (nf : string * io FileResult) p =>
             exists missing rw ch,
               forall w, nf.2 w = patch_file_sem self p missing rw ch w)
    (patches self) fixed_targets.
Proof.
  unfold patches, fixed_targets, required_targets. cbn [app].
  repeat constructor; cbn [snd]; eexists _, _, _; intros w.
  - apply patch_export_presets_closed.
  - apply patch_global_gd_closed.
  - apply patch_settings_manager_closed.
  - apply patch_mod_loader_path_closed.
  - apply patch_save_manager_closed.
  - apply patch_resource_pack_loader_closed.
Qed.

Lemma NoDup_fixed_targets : NoDup fixed_targets.
Proof.
  unfold fixed_targets, required_targets. cbn [app].
  repeat (apply NoDup_cons; split;
          [intros H; repeat (apply elem_of_cons in H as [H|H]; [discriminate|]);
           inversion H|]).
  constructor.
Qed.

(** The tree an apply run leaves, before the log is written. *)
Lemma run_restorable ts ys fs tr :
  (forall r, fs !! ([BACKUP_DIR; ts] ++ r) = None) ->
  NoDup ys ->
  Forall (fun p => outside_backups p /\ p ∉ fixed_targets) ys ->
  restorable [BACKUP_DIR; ts] fs (ys ++ fixed_targets)
    (w_fs (snd (run (mkPatcher false ts) ys (mkWorld fs tr)))).
Proof.
  intros Hfresh Hnd Hall. set (self := mkPatcher false ts).
  rewrite Forall_forall in Hall.
  assert (Hfix : forall p, p ∈ fixed_targets -> strip_prefix [BACKUP_DIR; ts] p = None).
  { intros p Hp. apply outside_not_below. apply fixed_target_outside, Hp. }
  destruct (run_cases self ys (mkWorld fs tr))
    as [[_ ->]|[Hv (fixed & w1 & tscn & w2 & H1 & H2 & ->)]]; cbn [snd].
  - apply restorable_same; [exact Hfresh|].
    intros p Hp. apply elem_of_app in Hp as [Hp|Hp]; [|auto].
    apply outside_not_below, (Hall p Hp).
  - pose proof (run_patches_restorable self fs _ _ (patches_targets self) []
                  (mkWorld fs tr) NoDup_fixed_targets) as Hr1.
    rewrite H1 in Hr1. cbn [snd] in Hr1. rewrite app_nil_r in Hr1.
    specialize (Hr1 ltac:(intros p Hp; split; [apply Hfix, Hp | apply not_elem_of_nil])
                    (restorable_init _ _ Hfresh)).
    pose proof (patch_tscn_files_restorable self fs ys fixed_targets w1 Hnd) as Hr2.
    rewrite H2 in Hr2. cbn [snd] in Hr2. apply Hr2; [|exact Hr1].
    intros p Hp. destruct (Hall p Hp) as [Hout Hnf].
    split; [apply outside_not_below, Hout | exact Hnf].
Qed.

Lemma log_path_head self : head (log_path self) <> Some BACKUP_DIR.
Proof.
  unfold log_path. cbn [head]. intros H. discriminate H.
Qed.

Lemma log_path_ne_backup self bd_rest :
  BACKUP_DIR :: bd_rest <> log_path self.
Proof.
  intros H. apply (log_path_head self). rewrite <- H. reflexivity.
Qed.

(* X8_PLACEHOLDER *)

(** ** A target that cannot be read *)

Lemma patches_named self name f :
  (name, f) ∈ patches self ->
  exists p missing rw ch,
    (name, p) ∈ patch_targets /\
    (forall w, f w = patch_file_sem self p missing rw ch w) /\
    (missing = not_found p \/
     missing = mkFileResult resource_pack_loader_path true []
                 (Some NotFoundOptional) None).
Proof.
  unfold patches, patch_targets. intros Hin.
  repeat (apply elem_of_cons in Hin as [Hin|Hin]);
    try (apply elem_of_nil in Hin; contradiction);
    injection Hin as -> ->.
  - eexists _, _, _, _. split; [|split; [apply patch_export_presets_closed | left; reflexivity]].
    repeat (first [left; reflexivity | right]).
  - eexists _, _, _, _. split; [|split; [apply patch_global_gd_closed | left; reflexivity]].
    right. left.
  - eexists _, _, _, _. split; [|split; [apply patch_settings_manager_closed | left; reflexivity]].
    do 2 right. left.
  - eexists _, _, _, _. split; [|split; [apply patch_mod_loader_path_closed | left; reflexivity]].
    do 3 right. left.
  - eexists _, _, _, _. split; [|split; [apply patch_save_manager_closed | left; reflexivity]].
    do 4 right. left.
  - eexists _, _, _, _. split; [|split; [apply patch_resource_pack_loader_closed | right; reflexivity]].
    do 5 right. left.
Qed.

Lemma patch_targets_spec name p :
  (name, p) ∈ patch_targets ->
  p ∈ fixed_targets /\
  (forall q, (name, q) ∈ patch_targets -> q = p) /\
  forall self, exists f, (name, f) ∈ patches self.
Proof.
  unfold patch_targets. intros Hin.
  repeat (apply elem_of_cons in Hin as [Hin|Hin]);
    try (apply elem_of_nil in Hin; contradiction);
    injection Hin as -> ->.
  all: split;
    [unfold fixed_targets, required_targets; cbn [app];
     repeat (first [left; reflexivity | right])|].
  all: split;
    [intros q Hq;
     repeat (apply elem_of_cons in Hq as [Hq|Hq]);
     try (apply elem_of_nil in Hq; contradiction);
     try discriminate; injection Hq as ->; reflexivity|].
  all: intros self; eexists; unfold patches.
  - left.
  - right; left.
  - do 2 right; left.
  - do 3 right; left.
  - do 4 right; left.
  - do 5 right; left.
Qed.

(** A file that is not valid UTF-8 is never written. *)
Lemma patch_file_sem_keeps_raw self q missing rw ch w p b :
  head p <> Some BACKUP_DIR ->
  w_fs w !! p = Some (Raw b) ->
  w_fs (snd (patch_file_sem self q missing rw ch w)) !! p = Some (Raw b).
Proof.
  intros Hhd Hp. unfold patch_file_sem.
  assert (Hne : backup_dir self ++ q <> p).
  { intros <-. apply Hhd. reflexivity. }
  destruct (negb (exists_ (w_fs w) q)); [exact Hp|].
  destruct (w_fs w !! q) as [f|] eqn:Hq; [|exact Hp].
  assert (Hw1 : w_fs (if dry_run self then w else backed self q f w) !! p
                = Some (Raw b)).
  { destruct (dry_run self); [exact Hp|]. cbn [w_fs backed].
    rewrite lookup_insert_ne by exact Hne. exact Hp. }
  destruct f as [t|b']; cbn [snd]; [|exact Hw1].
  destruct (ch t _ _ && negb (dry_run self)); [|exact Hw1].
  cbn [w_fs written]. rewrite lookup_insert_ne; [exact Hw1|].
  intros ->. congruence.
Qed.

Lemma patch_tscn_file_sem_keeps_raw self q w p b :
  head p <> Some BACKUP_DIR ->
  w_fs w !! p = Some (Raw b) ->
  w_fs (snd (patch_tscn_file_sem self q w)) !! p = Some (Raw b).
Proof.
  intros Hhd Hp. unfold patch_tscn_file_sem.
  assert (Hne : backup_dir self ++ q <> p).
  { intros <-. apply Hhd. reflexivity. }
  destruct (w_fs w !! q) as [[t|b']|] eqn:Hq; try exact Hp.
  destruct (found tscn_pattern t); [|exact Hp]. cbn [snd].
  assert (Hw1 : w_fs (if dry_run self then w else backed self q (Utf8 t) w) !! p
                = Some (Raw b)).
  { destruct (dry_run self); [exact Hp|]. cbn [w_fs backed].
    rewrite lookup_insert_ne by exact Hne. exact Hp. }
  destruct (nonempty _ && negb (dry_run self)); [|exact Hw1].
  cbn [w_fs written]. rewrite lookup_insert_ne; [exact Hw1|].
  intros ->. congruence.
Qed.

(** X9: when one of the six fixed targets is there but is not valid
    UTF-8, [run] catches the exception: the result for that target is a
    failure filed under the name of the patch, not under the path of the
    file, the other patches still run, [run] returns false and the exit
    status is 1; the file is left as it is. *)
Theorem undecodable_target_fails_the_run (dry : bool) (ts : string)
    (ys : list path) (lines : list text) (now : text) (w : world)
    (name : string) (p : path) (b : list N) :
  (name, p) ∈ patch_targets ->
  w_fs w !! p = Some (Raw b) ->
  validate_project (w_fs w) = true ->
  exists rep w',
    run (mkPatcher dry ts) ys w = (Ok rep, w') /\
    raised name UnicodeDecodeError ∈ results rep /\
    6 <= length (results rep) /\
    run_ok rep = false /\
    fst (main (Patch dry) ts ys lines now w) = 1 /\
    w_fs w' !! p = Some (Raw b).
Proof.
  intros Hin Hp Hv. set (self := mkPatcher dry ts).
  destruct (patch_targets_spec name p Hin) as (Hfix & Hfun & Hpatch).
  destruct (fixed_target_outside p Hfix) as [_ Hhd].
  set (I := fun w0 : world => w_fs w0 !! p = Some (Raw b)).
  set (P := fun (nf : string * io FileResult) (r : FileResult) =>
              nf.1 = name -> r = raised name UnicodeDecodeError).
  destruct (run_patches_inv I P (patches self) w Hp)
    as (fixed & w1 & H1 & Hw1 & HP).
  { intros name' f w0 Hin' Hw0.
    destruct (patches_named self name' f Hin')
      as (q & missing & rw & ch & Hq & Hf & _).
    rewrite Hf. split; [apply patch_file_sem_keeps_raw; assumption|].
    assert (Hcase : name' = name ->
              fst (patch_file_sem self q missing rw ch w0)
              = Raise UnicodeDecodeError).
    { intros ->. rewrite (Hfun q Hq). unfold patch_file_sem.
      rewrite (exists_file _ _ _ Hw0). cbn [negb]. rewrite Hw0. reflexivity. }
    destruct (fst (patch_file_sem self q missing rw ch w0)) as [r|e] eqn:Hr;
      unfold P; cbn [fst]; intros Hn; specialize (Hcase Hn);
      [discriminate | congruence]. }
  destruct (patch_tscn_files_inv I (fun _ => True) self ys w1 Hw1)
    as (tscn & w2 & H2 & Hw2 & _).
  { intros q w0 _ Hw0. split; [apply patch_tscn_file_sem_keeps_raw; assumption|].
    pose proof (patch_tscn_file_sem_ok self q w0) as H.
    destruct (fst (patch_tscn_file_sem self q w0)) as [[r|]|e]; auto. }
  pose proof (run_unfold self ys w fixed w1 tscn w2 Hv H1 H2) as Hrun.
  assert (Hraised : raised name UnicodeDecodeError ∈ fixed).
  { destruct (Hpatch self) as [f Hf].
    apply list_elem_of_lookup in Hf as [i Hi].
    destruct (Forall2_lookup_l _ _ _ _ _ HP Hi) as (r & Hr & HPr).
    rewrite (HPr eq_refl) in Hr. apply list_elem_of_lookup. eauto. }
  assert (Hfail : all_success (fixed ++ tscn) = false).
  { apply all_success_Exists. apply Exists_exists.
    exists (raised name UnicodeDecodeError).
    split; [apply elem_of_app; left; exact Hraised | reflexivity]. }
  eexists _, w2. split; [exact Hrun|]. cbn [results run_ok].
  split; [apply elem_of_app; left; exact Hraised|].
  split; [rewrite length_app, <- (Forall2_length _ _ _ HP); simpl; lia|].
  split; [exact Hfail|].
  split; [|exact Hw2].
  pose proof (proj2 (main_patch self ys lines now w _ w2 Hv Hrun)) as Hm.
  cbn [dry_run timestamp self run_ok] in Hm. rewrite Hm, Hfail.
  destruct (is_dir _ _); reflexivity.
Qed.

(** X9 for a [Global.gd] that holds one byte, 255. *)
Lemma undecodable_target_fails_the_run_witness :
  raised "Global.gd" UnicodeDecodeError
    ∈ match run (mkPatcher false "T") []
              (mkWorld (<[global_gd_path := Raw [255%N]]> bare_project) []) with
      | (Ok rep, _) => results rep
      | (Raise _, _) => []
      end.
Proof.
  destruct (undecodable_target_fails_the_run false "T" [] [] []
              (mkWorld (<[global_gd_path := Raw [255%N]]> bare_project) [])
              "Global.gd" global_gd_path [255%N])
    as (rep & w' & Hrun & Hin & _).
  - right. left.
  - apply lookup_insert_eq.
  - vm_compute. reflexivity.
  - rewrite Hrun. exact Hin.
Defined.

(** ** The results of a run *)

Lemma patch_file_sem_well_formed self p missing rw ch w name :
  missing = not_found p \/
  missing = mkFileResult resource_pack_loader_path true []
              (Some NotFoundOptional) None ->
  match fst (patch_file_sem self p missing rw ch w) with
  | Ok r => well_formed r
  | Raise e => well_formed (raised name e)
  end.
Proof.
  intros Hm. unfold patch_file_sem.
  destruct (negb (exists_ (w_fs w) p)); cbn [fst].
  { destruct Hm as [->| ->]; [right; right | right; left; reflexivity].
    repeat split. eexists; reflexivity. }
  destruct (w_fs w !! p) as [[t|b]|]; cbn [fst].
  - left. repeat split. eexists; reflexivity.
  - right; right. repeat split. eexists; reflexivity.
  - right; right. repeat split. eexists; reflexivity.
Qed.

Lemma patch_tscn_file_sem_well_formed self p w :
  match fst (patch_tscn_file_sem self p w) with
  | Ok (Some r) => well_formed r
  | Ok None => True
  | Raise _ => False
  end.
Proof.
  unfold patch_tscn_file_sem.
  destruct (w_fs w !! p) as [[t|b]|]; cbn [fst].
  - destruct (found tscn_pattern t); cbn [fst]; [|exact I].
    left. repeat split. eexists; reflexivity.
  - right; right. repeat split. eexists; reflexivity.
  - right; right. repeat split. eexists; reflexivity.
Qed.

Lemma all_success_filter rs :
  all_success rs = true <->
  length (filter (fun r => success r = true) rs) = length rs.
Proof.
  unfold all_success. induction rs as [|r rs IH]; [split; reflexivity|].
  cbn [forallb]. pose proof (length_filter (fun r => success r = true) rs) as Hle.
  destruct (success r) eqn:Hs.
  - rewrite filter_cons_True by exact Hs. cbn [andb length]. rewrite IH.
    split; intros H; lia.
  - rewrite filter_cons_False by congruence. cbn [andb length].
    split; [discriminate | intros H; lia].
Qed.

Lemma failed_nil rs : failed rs = [] <-> all_success rs = true.
Proof.
  unfold failed, all_success. induction rs as [|r rs IH]; [split; reflexivity|].
  cbn [forallb]. destruct (success r) eqn:Hs.
  - rewrite filter_cons_False by congruence. exact IH.
  - rewrite filter_cons_True by exact Hs. split; discriminate.
Qed.

Lemma changes_of_successes rs :
  Forall well_formed rs ->
  sum_list (map (fun r => length (changes r))
              (filter (fun r => success r = true) rs))
  = sum_list (map (fun r => length (changes r)) rs).
Proof.
  induction 1 as [|r rs Hr _ IH]; [reflexivity|].
  destruct (success r) eqn:Hs.
  - rewrite filter_cons_True by exact Hs. cbn [map sum_list]. rewrite IH. reflexivity.
  - rewrite filter_cons_False by congruence. cbn [map sum_list]. rewrite IH.
    destruct Hr as [[H _]|[->|(_ & -> & _)]]; [congruence | discriminate | reflexivity].
Qed.

(** X11: every result of a run has one of three shapes: a success with
    a backup and no error, the optional target reported missing, or a
    failure with an error, no change and no backup.  So in the summary
    the changes counted, those of the successes, are all the changes
    recorded; the count of successes is the count of results exactly
    when no result is listed as failed, and for a project with
    [project.godot] that is when [run] returns true. *)
Theorem results_are_well_formed (self : patcher) (ys : list path) (w : world) :
  exists rep w',
    run self ys w = (Ok rep, w') /\
    Forall well_formed (results rep) /\
    let '(total, ok, n) := summary_counts (results rep) in
    ok <= total
    /\ n = sum_list (map (fun r => length (changes r)) (results rep))
    /\ (ok = total <-> failed (results rep) = [])
    /\ run_ok rep = validate_project (w_fs w) && bool_decide (ok = total).
Proof.
  assert (Hcounts : forall rs v,
            Forall well_formed rs ->
            let '(total, ok, n) := summary_counts rs in
            ok <= total
            /\ n = sum_list (map (fun r => length (changes r)) rs)
            /\ (ok = total <-> failed rs = [])
            /\ v && all_success rs = v && bool_decide (ok = total)).
  { intros rs v Hwf. unfold summary_counts.
    split; [apply length_filter|].
    split; [apply changes_of_successes, Hwf|].
    split; [rewrite failed_nil, all_success_filter; reflexivity|].
    f_equal. apply eq_true_iff_eq.
    rewrite all_success_filter, bool_decide_eq_true. reflexivity. }
  destruct (run_cases self ys w)
    as [[Hv Hrun]|[Hv (fixed & w1 & tscn & w2 & H1 & H2 & Hrun)]].
  - eexists _, _. split; [exact Hrun|]. cbn [results run_ok]. rewrite Hv.
    split; [constructor|]. exact (Hcounts [] false ltac:(constructor)).
  - eexists _, _. split; [exact Hrun|]. cbn [results run_ok]. rewrite Hv.
    assert (Hwf : Forall well_formed (fixed ++ tscn)).
    { apply Forall_app. split.
      - destruct (run_patches_inv (fun _ => True) (fun _ r => well_formed r)
                    (patches self) w I) as (fixed' & w1' & H1' & _ & HP).
        { intros name f w0 Hin _. split; [exact I|].
          destruct (patches_named self name f Hin)
            as (q & missing & rw & ch & _ & Hf & Hm).
          rewrite Hf. apply patch_file_sem_well_formed, Hm. }
        rewrite H1 in H1'. injection H1' as <- _.
        clear -HP. induction HP; constructor; auto.
      - destruct (patch_tscn_files_inv (fun _ => True) well_formed self ys w1 I)
          as (tscn' & w2' & H2' & _ & HP).
        { intros q w0 _ _. split; [exact I|].
          apply patch_tscn_file_sem_well_formed. }
        rewrite H2 in H2'. injection H2' as <- _. exact HP. }
    split; [exact Hwf|]. exact (Hcounts _ true Hwf).
Qed.

(** ** Dry run and apply run *)

(** X10: when [rglob] hands a dry run and an apply run the same scenes,
    each once and none of them in [backups], the two runs report the
    same files, successes, changes and errors, and [run] returns the
    same value; the process then exits with the same status, unless a
    directory stands where one of the two logs goes. *)
Theorem dry_run_predicts_apply (ts : string) (ys : list path)
    (lines : list text) (now : text) (w : world) :
  NoDup ys ->
  Forall (fun p => outside_backups p /\ p ∉ fixed_targets) ys ->
  exists repd repa wa,
    run (mkPatcher true ts) ys w = (Ok repd, w) /\
    run (mkPatcher false ts) ys w = (Ok repa, wa) /\
    map summary (results repd) = map summary (results repa) /\
    run_ok repd = run_ok repa /\
    (is_dir (w_fs w) (log_path (mkPatcher true ts)) = false ->
     is_dir (w_fs w) (log_path (mkPatcher false ts)) = false ->
     fst (main (Patch true) ts ys lines now w)
     = fst (main (Patch false) ts ys lines now w)).
Proof.
  intros Hnd Hall.
  destruct (dry_apply_same_changes ts ys w Hnd Hall)
    as (repd & repa & wa & Hd & Ha & Hs & Hok).
  exists repd, repa, wa. split; [exact Hd|]. split; [exact Ha|].
  split; [exact Hs|]. split; [exact Hok|]. intros Ld La.
  rewrite (main_patch_status true ts ys lines now w repd w Hd).
  rewrite (main_patch_status false ts ys lines now w repa wa Ha).
  rewrite Ld, La, !andb_false_r, Hok. reflexivity.
Qed.

(** X10 at [scene_project], with the scene that is there. *)
Lemma dry_run_predicts_apply_witness :
  fst (main (Patch true) "T" [["Scenes"; "x.tscn"]%string] [] []
         (mkWorld scene_project []))
  = fst (main (Patch false) "T" [["Scenes"; "x.tscn"]%string] [] []
           (mkWorld scene_project [])).
Proof.
  destruct (dry_run_predicts_apply "T" [["Scenes"; "x.tscn"]%string] [] []
              (mkWorld scene_project []))
    as (repd & repa & wa & _ & _ & _ & _ & H).
  - apply NoDup_singleton.
  - constructor; [|constructor]. split; [split; discriminate|].
    intros H. repeat (apply elem_of_cons in H as [H|H]; [discriminate|]).
    inversion H.
  - apply H; vm_compute; reflexivity.
Defined.

(** ** Verification and the backups *)

Lemma world_step_other self q w w' tr k :
  world_step self q w w' tr ->
  k <> q -> k <> backup_dir self ++ q -> w_fs w' !! k = w_fs w !! k.
Proof.
  intros H Hq Hb. destruct H as [|f Hdry Hf|f t Hdry Hf]; cbn [w_fs backed written].
  - reflexivity.
  - apply lookup_insert_ne. congruence.
  - rewrite lookup_insert_ne by congruence. apply lookup_insert_ne. congruence.
Qed.

Lemma run_patches_keeps self ps tgts k :
  Forall2 (fun (nf : string * io FileResult) p =>
             exists missing rw ch,
               forall w, nf.2 w = patch_file_sem self p missing rw ch w) ps tgts ->
  (forall q, q ∈ tgts -> k <> q /\ k <> backup_dir self ++ q) ->
  forall w, w_fs (snd (run_patches ps w)) !! k = w_fs w !! k.
Proof.
  induction 1 as [|[name f] p ps tgts (missing & rw & ch & Hf) _ IH];
    intros Hk w; [reflexivity|].
  cbn [run_patches]. unfold mbind, io_bind. rewrite guarded_ok.
  cbn [snd] in Hf. rewrite Hf.
  destruct (patch_file_sem_step self p missing rw ch w) as [tr Hstep].
  destruct (Hk p ltac:(left)) as [Hp Hb].
  pose proof (world_step_other _ _ _ _ _ k Hstep Hp Hb) as H1.
  assert (Hrest : forall q, q ∈ tgts -> k <> q /\ k <> backup_dir self ++ q)
    by (intros q Hq; apply Hk; right; exact Hq).
  specialize (IH Hrest).
  destruct (patch_file_sem self p missing rw ch w) as [[r|e] w1]; cbn [snd] in *.
  - specialize (IH w1). destruct (run_patches ps w1) as [[rs|e'] w2];
      exact (eq_trans IH H1).
  - specialize (IH w1). destruct (run_patches ps w1) as [[rs|e'] w2];
      exact (eq_trans IH H1).
Qed.

Lemma patch_tscn_files_keeps self ys k :
  (forall q, q ∈ ys -> k <> q /\ k <> backup_dir self ++ q) ->
  forall w, w_fs (snd (patch_tscn_files self ys w)) !! k = w_fs w !! k.
Proof.
  induction ys as [|p ys IH]; intros Hk w; [reflexivity|].
  cbn [patch_tscn_files]. unfold mbind, io_bind. rewrite patch_tscn_file_closed.
  destruct (patch_tscn_file_sem_step self p w) as [tr Hstep].
  destruct (Hk p ltac:(left)) as [Hp Hb].
  pose proof (world_step_other _ _ _ _ _ k Hstep Hp Hb) as H1.
  assert (Hrest : forall q, q ∈ ys -> k <> q /\ k <> backup_dir self ++ q)
    by (intros q Hq; apply Hk; right; exact Hq).
  specialize (IH Hrest).
  destruct (patch_tscn_file_sem self p w) as [[o|e] w1]; cbn [snd] in *;
    [|exact H1].
  specialize (IH w1).
  destruct (patch_tscn_files self ys w1) as [[rs|e'] w2]; exact (eq_trans IH H1).
Qed.

(** In an apply run a fixed target that is there is copied into the
    backup directory as it was. *)
Lemma patch_file_sem_backs_up self p missing rw ch w f :
  dry_run self = false -> w_fs w !! p = Some f ->
  w_fs (snd (patch_file_sem self p missing rw ch w)) !! (backup_dir self ++ p)
  = Some f.
Proof.
  intros Hdry Hf. unfold patch_file_sem.
  rewrite (exists_file _ _ _ Hf), Hf, Hdry. cbn [negb].
  assert (Hb : w_fs (backed self p f w) !! (backup_dir self ++ p) = Some f)
    by apply lookup_insert_eq.
  destruct f as [t|b]; cbn [snd]; [|exact Hb].
  match goal with |- context [if ?c then _ else _] => destruct c end;
    [|exact Hb].
  cbn [w_fs written backed].
  rewrite lookup_insert_ne by (symmetry; apply backup_path_ne).
  apply lookup_insert_eq.
Qed.

Lemma run_patches_backs_up self ps tgts :
  Forall2 (fun (nf : string * io FileResult) p =>
             exists missing rw ch,
               forall w, nf.2 w = patch_file_sem self p missing rw ch w) ps tgts ->
  dry_run self = false -> NoDup tgts ->
  (forall q, q ∈ tgts -> head q <> Some BACKUP_DIR) ->
  forall w p f,
    p ∈ tgts -> w_fs w !! p = Some f ->
    w_fs (snd (run_patches ps w)) !! (backup_dir self ++ p) = Some f.
Proof.
  intros HF Hdry. induction HF as [|[name g] q ps tgts Hg HF IH];
    intros Hnd Hout w p f Hp Hf; [inversion Hp|].
  apply NoDup_cons in Hnd as [Hq Hnd].
  assert (Hout' : forall x, x ∈ tgts -> head x <> Some BACKUP_DIR)
    by (intros x Hx; apply Hout; right; exact Hx).
  assert (Hnb : forall x y, head y <> Some BACKUP_DIR -> y <> backup_dir self ++ x).
  { intros x y Hy ->. apply Hy. reflexivity. }
  pose proof Hg as (missing & rw & ch & Hgw). cbn [snd] in Hgw.
  cbn [run_patches]. unfold mbind, io_bind. rewrite guarded_ok, Hgw.
  destruct (patch_file_sem_step self q missing rw ch w) as [tr Hstep].
  apply elem_of_cons in Hp as [->|Hp].
  - pose proof (patch_file_sem_backs_up self q missing rw ch w f Hdry Hf) as Hb.
    pose proof (run_patches_keeps self ps tgts (backup_dir self ++ q) HF) as Hkeep.
    specialize (Hkeep ltac:(intros x Hx; split;
                  [symmetry; apply Hnb, Hout', Hx
                  |intros H; apply app_inv_head in H; congruence])).
    destruct (patch_file_sem self q missing rw ch w) as [[r|e] w1]; cbn [snd] in *.
    + specialize (Hkeep w1). destruct (run_patches ps w1) as [[rs|e'] w2];
        exact (eq_trans Hkeep Hb).
    + specialize (Hkeep w1). destruct (run_patches ps w1) as [[rs|e'] w2];
        exact (eq_trans Hkeep Hb).
  - assert (Hpq : p <> q) by congruence.
    pose proof (world_step_other _ _ _ _ _ p Hstep Hpq
                  (Hnb q p (Hout p ltac:(right; exact Hp)))) as H1.
    specialize (IH Hnd Hout').
    destruct (patch_file_sem self q missing rw ch w) as [[r|e] w1]; cbn [snd] in *.
    + specialize (IH w1 p f Hp (eq_trans H1 Hf)).
      destruct (run_patches ps w1) as [[rs|e'] w2]; exact IH.
    + specialize (IH w1 p f Hp (eq_trans H1 Hf)).
      destruct (run_patches ps w1) as [[rs|e'] w2]; exact IH.
Qed.

Lemma name_of_app d p : p <> [] -> name_of (d ++ p) = name_of p.
Proof.
  intros Hp. unfold name_of. induction d as [|x d IH]; [reflexivity|].
  cbn [app]. destruct (d ++ p) as [|y l] eqn:Hd.
  - apply app_eq_nil in Hd as [_ ->]. contradiction.
  - rewrite <- IH. reflexivity.
Qed.

Lemma verify_reports_script fs rel content j line :
  fs !! rel = Some (Utf8 content) ->
  ends_with ".gd" (name_of rel) = true ->
  split_nl content !! j = Some line ->
  is_comment_line line = false -> found combined line = true ->
  InScript rel (S j) ∈ snd (verify_patches fs).
Proof.
  intros Hfs He Hj Hc Hf. unfold verify_patches. cbn [snd].
  apply elem_of_app. left. apply elem_of_concat_map. exists rel.
  split; [apply rglob_files_spec; eauto|].
  unfold verify_script. rewrite Hfs. apply script_residuals_script.
  split; [reflexivity|]. exists j, line. auto.
Qed.

(** X12: the verification scans the backups too.  When an apply run
    has patched a script among the fixed targets that held a forbidden
    literal on a line that is no comment, the copy of the script under
    [backups/<timestamp>] still holds it: the verification that ends
    the run reports that line of the copy, and so does [--verify] after
    the run, which exits with status 1. *)
Theorem verification_reports_the_backups (ts : string) (ys : list path)
    (lines : list text) (now : text)
    (fs : FS) (p : path) (content : text) (j : nat) (line : text) :
  validate_project fs = true ->
  Forall (fun q => outside_backups q /\ q ∉ fixed_targets) ys ->
  p ∈ fixed_targets -> ends_with ".gd" (name_of p) = true ->
  fs !! p = Some (Utf8 content) ->
  split_nl content !! j = Some line ->
  is_comment_line line = false -> found combined line = true ->
  exists rep w' rs,
    run (mkPatcher false ts) ys (mkWorld fs []) = (Ok rep, w') /\
    verification rep = Some (false, rs) /\
    InScript ([BACKUP_DIR; ts] ++ p) (S j) ∈ rs /\
    fst (main Verify ts [] [] []
           (snd (run_and_save_log (mkPatcher false ts) ys lines now
                   (mkWorld fs [])))) = 1.
Proof.
  intros Hv Hall Hp He Hfs Hj Hc Hf. set (self := mkPatcher false ts).
  destruct (run_cases self ys (mkWorld fs []))
    as [[Hv' _]|[_ (fixed & w1 & tscn & w2 & H1 & H2 & Hrun)]];
    [cbn [w_fs] in Hv'; congruence|].
  assert (Hb1 : w_fs w1 !! ([BACKUP_DIR; ts] ++ p) = Some (Utf8 content)).
  { pose proof (run_patches_backs_up self _ _ (patches_targets self) eq_refl
                  NoDup_fixed_targets
                  (fun q Hq => proj2 (fixed_target_outside q Hq))
                  (mkWorld fs []) p (Utf8 content) Hp Hfs) as H.
    rewrite H1 in H. exact H. }
  assert (Hb2 : w_fs w2 !! ([BACKUP_DIR; ts] ++ p) = Some (Utf8 content)).
  { assert (Hk : forall q, q ∈ ys ->
                [BACKUP_DIR; ts] ++ p <> q /\
                [BACKUP_DIR; ts] ++ p <> backup_dir self ++ q).
    { intros q Hq. rewrite Forall_forall in Hall.
      destruct (Hall q Hq) as [[_ Hhd] Hnf]. split.
      - intros <-. apply Hhd. reflexivity.
      - intros H'. apply app_inv_head in H'. congruence. }
    pose proof (patch_tscn_files_keeps self ys ([BACKUP_DIR; ts] ++ p) Hk w1) as H.
    rewrite H2 in H. exact (eq_trans H Hb1). }
  assert (Hin : InScript ([BACKUP_DIR; ts] ++ p) (S j) ∈ snd (verify_patches (w_fs w2))).
  { apply (verify_reports_script _ _ content j line); try assumption.
    rewrite name_of_app; [exact He | apply fixed_target_outside, Hp]. }
  assert (Hne : nonempty (snd (verify_patches (w_fs w2))) = true).
  { destruct (snd (verify_patches (w_fs w2))); [inversion Hin | reflexivity]. }
  exists (mkReport (all_success (fixed ++ tscn)) (fixed ++ tscn)
            (Some (verify_patches (w_fs w2)))), w2, (snd (verify_patches (w_fs w2))).
  split; [exact Hrun|]. cbn [verification].
  split; [unfold verify_patches in *; cbn [snd] in *; rewrite Hne; reflexivity|].
  split; [exact Hin|].
  match goal with |- fst (main _ _ _ _ _ ?x) = _ => set (w3 := x) end.
  assert (Hb3 : w_fs w3 !! ([BACKUP_DIR; ts] ++ p) = Some (Utf8 content)).
  { subst w3. rewrite run_and_save_log_world. cbn [w_fs]. rewrite Hv.
    fold self. rewrite Hrun. cbn [snd].
    rewrite (proj2 (save_log_frame self lines now w2))
      by (cbn [app]; apply log_path_ne_backup).
    exact Hb2. }
  clearbody w3.
  assert (Hin3 : InScript ([BACKUP_DIR; ts] ++ p) (S j)
                   ∈ snd (verify_patches (w_fs w3))).
  { apply (verify_reports_script _ _ content j line); try assumption.
    rewrite name_of_app; [exact He | apply fixed_target_outside, Hp]. }
  assert (Hne3 : nonempty (snd (verify_patches (w_fs w3))) = true).
  { destruct (snd (verify_patches (w_fs w3))); [inversion Hin3 | reflexivity]. }
  unfold main, verify_patches in *. cbn [fst snd] in *. rewrite Hne3. reflexivity.
Qed.

(** X12 at [save_project]: the literal of [SaveManager.gd] is rewritten,
    and line 1 of its backup is reported. *)
Lemma verification_reports_the_backups_witness :
  exists rep w' rs,
    run (mkPatcher false "T") [] (mkWorld save_project []) = (Ok rep, w') /\
    verification rep = Some (false, rs) /\
    InScript ([BACKUP_DIR; "T"%string] ++ save_manager_path) 1 ∈ rs /\
    fst (main Verify "T" [] [] []
           (snd (run_and_save_log (mkPatcher false "T") [] [] []
                   (mkWorld save_project [])))) = 1.
Proof.
  apply (verification_reports_the_backups "T" [] [] [] save_project
           save_manager_path one_literal 0 one_literal).
  - vm_compute. reflexivity.
  - constructor.
  - unfold fixed_targets, required_targets. cbn [app]. do 4 right. left.
  - vm_compute. reflexivity.
  - vm_compute. reflexivity.
  - vm_compute. reflexivity.
  - vm_compute. reflexivity.
  - vm_compute. reflexivity.
Defined.
